(** * IDA* grid path finding: a shallow embedding and its properties

    The development follows [src/ida_star.py] (the heuristic [manhattan],
    the nested bounded depth-first search [dfs_search] and the threshold
    loop of [ida_star]), [examples/comparison_a_star.py] (the reference
    best-first search [AStar.search] and the random grids of
    [create_test_grid]) and the integer heuristics of
    [examples/basic_usage.py].

    Conventions of the embedding:
    - a coordinate is a pair of Python integers, [Z * Z];
    - a grid is a list of rows, each a list of integers (0 free, 1 blocked);
      indexing a row that is too short raises [IndexError];
    - the visited set is one shared mutable Python set: it is threaded
      through the calls as explicit state ([gset (Z * Z)]);
    - the searches are embedded twice. The first embedding is for
      heuristics with integer values, as [manhattan] has: a number returned
      by the search is then a Python [int] or [math.inf]. The second, the
      module [Numeric], is the same code on Python's numbers, ints and
      floats, for heuristics such as [euclidean] or one that returns
      [math.inf]; on a heuristic with integer values the two coincide.
      What depends on the values of the heuristic is stated on the first,
      what holds for every heuristic on the second;
    - a float is an IEEE 754 binary64 number with the arithmetic that the
      standard library specifies ([SpecFloat]); Python compares numbers by
      their exact values;
    - recursion and the [while True] loop are driven by fuel; [None] means
      that the fuel ran out, and the theorems below show that enough fuel
      always gives an answer. The interpreter's recursion limit is a
      resource bound of the host and is not part of the model; nor is the
      [OverflowError] of an int of 2^1024 or more that meets a float, the
      ints concerned being path costs, which the depth of the recursion
      and the number of cells bound. *)

From stdpp Require Import gmap list relations sorting.
From Stdlib Require Import ZArith Lia.
From Stdlib Require Import Floats.SpecFloat.

Local Open Scope Z_scope.

(** ** Data model *)

Abbreviation Coord := (Z * Z)%type.
Abbreviation Grid := (list (list Z)).

(** Exceptions the code can raise: [grid[r][c]] on a short row, and
    [visited.remove(x)] / [g_score[x]] on a missing key. *)
Inductive exn := IndexError | KeyError.

(** How a call completes: it returns a value or raises. *)
Inductive completion (A : Type) :=
  | Returns (a : A)
  | Raises (e : exn).
Arguments Returns {A} a.
Arguments Raises {A} e.

(** A Python number as the search uses it: an [int] or [math.inf]. *)
Inductive num := Fin (z : Z) | Inf.

(** The value [dfs_search] returns: the string ["FOUND"] or a number. *)
Inductive result := FOUND | Num (n : num).

(** [b < a] on numbers, with [math.inf] above every integer. *)
Definition num_ltb (b a : num) : bool :=
  match b, a with
  | Fin y, Fin x => y <? x
  | Fin _, Inf => true
  | Inf, _ => false
  end.

(** Python's [min(a, b)]: [b] when [b < a], else [a]. *)
Definition num_min (a b : num) : num := if num_ltb b a then b else a.

(** ** The heuristic *)

(** [abs(a[0] - b[0]) + abs(a[1] - b[1])] *)
Definition manhattan (a b : Coord) : Z :=
  Z.abs (a.1 - b.1) + Z.abs (a.2 - b.2).

(** ** Grid access *)

Definition len {A} (l : list A) : Z := Z.of_nat (length l).

(** [len(grid[0])]; the code evaluates it only after [0 <= r < len(grid)]
    held, that is on a grid that has a first row. *)
Definition row0_len (grid : Grid) : Z :=
  match grid with
  | [] => 0
  | row :: _ => len row
  end.

(** [0 <= n[0] < len(grid) and 0 <= n[1] < len(grid[0])] *)
Definition in_bounds (grid : Grid) (n : Coord) : bool :=
  (0 <=? n.1) && (n.1 <? len grid) && ((0 <=? n.2) && (n.2 <? row0_len grid)).

(** Python's [l[i]]: a negative index counts from the end, and an index
    out of range raises [IndexError], which is [None] here. *)
Definition index {A} (l : list A) (i : Z) : option A :=
  if 0 <=? i then l !! Z.to_nat i
  else if - len l <=? i then l !! Z.to_nat (len l + i)
  else None.

(** [grid[n[0]][n[1]]] *)
Definition cell (grid : Grid) (n : Coord) : option Z :=
  row ← index grid n.1; index row n.2.

(** Explore neighbors (right, down, left, up). *)
Definition directions : list (Z * Z) := [(0, 1); (1, 0); (0, -1); (-1, 0)].

Definition move (node : Coord) (d : Z * Z) : Coord :=
  (node.1 + d.1, node.2 + d.2).

(** ** The search of [ida_star] *)

Section ida_star.
Context (start goal : Coord) (grid : Grid) (heuristic : Coord → Coord → Z).

(** What a call of [dfs_search] leaves behind: its return value and the
    visited set as the call left it, or an exception. *)
Abbreviation outcome := (completion (result * gset Coord)).

(** The [for dr, dc in ...] loop of [dfs_search], from the direction list
    [dirs] on, with the current [min_exceed] and [visited]; [rec] is the
    recursive call. *)
Fixpoint explore (rec : Coord → Z → Z → gset Coord → option outcome)
    (node : Coord) (g_cost current_threshold : Z)
    (dirs : list (Z * Z)) (min_exceed : num) (visited : gset Coord)
    : option outcome :=
  match dirs with
  | [] => Some (Returns (Num min_exceed, visited))
  | d :: dirs' =>
    let neighbor := move node d in
    if negb (in_bounds grid neighbor) then
      explore rec node g_cost current_threshold dirs' min_exceed visited
    else
      match cell grid neighbor with
      | None => Some (Raises IndexError)
      | Some x =>
        if x =? 1 then
          explore rec node g_cost current_threshold dirs' min_exceed visited
        else if decide (neighbor ∈ visited) then
          explore rec node g_cost current_threshold dirs' min_exceed visited
        else
          match rec neighbor (g_cost + 1) current_threshold
                    (visited ∪ {[neighbor]}) with
          | None => None
          | Some (Raises e) => Some (Raises e)
          | Some (Returns (FOUND, visited')) => Some (Returns (FOUND, visited'))
          | Some (Returns (Num r, visited')) =>
            if decide (neighbor ∈ visited') then
              explore rec node g_cost current_threshold dirs'
                      (num_min min_exceed r) (visited' ∖ {[neighbor]})
            else Some (Raises KeyError)
          end
      end
  end.

Fixpoint dfs_search (fuel : nat) (node : Coord) (g_cost current_threshold : Z)
    (visited : gset Coord) : option outcome :=
  match fuel with
  | O => None
  | S fuel' =>
    let f_cost := g_cost + heuristic node goal in
    if f_cost >? current_threshold then
      Some (Returns (Num (Fin f_cost), visited))
    else if decide (node = goal) then
      Some (Returns (FOUND, visited))
    else
      explore (dfs_search fuel') node g_cost current_threshold
              directions Inf visited
  end.

(** The main loop: [iters] bounds the iterations of [while True], [depth]
    the recursion of each top-level [dfs_search]. *)
Fixpoint ida_loop (iters depth : nat) (threshold : Z)
    : option (completion bool) :=
  match iters with
  | O => None
  | S iters' =>
    match dfs_search depth start 0 threshold {[start]} with
    | None => None
    | Some (Raises e) => Some (Raises e)
    | Some (Returns (FOUND, _)) => Some (Returns true)
    | Some (Returns (Num Inf, _)) => Some (Returns false)
    | Some (Returns (Num (Fin r), _)) => ida_loop iters' depth r
    end
  end.

Definition ida_star (fuel : nat) : option (completion bool) :=
  ida_loop fuel fuel (heuristic start goal).
End ida_star.


(** ** The reference search [AStar.search] *)

Module AStar.
(** An [AStar] object: its heuristic and its counter of expanded nodes. *)
Record t := {
  heuristic : Coord → Coord → Z;
  nodes_expanded : Z
}.

(** [AStar(heuristic)] *)
Definition init (heuristic : Coord → Coord → Z) : t :=
  {| heuristic := heuristic; nodes_expanded := 0 |}.

(** An entry of the open set: the tuple [(f, g, node)]. *)
Abbreviation item := (Z * Z * Coord)%type.

(** Python's [<] on such tuples: lexicographic, the node being compared
    as a tuple in its turn. *)
Definition item_ltb (a b : item) : bool :=
  let '(fa, ga, (ra, ca)) := a in
  let '(fb, gb, (rb, cb)) := b in
  (fa <? fb) || ((fa =? fb) &&
    ((ga <? gb) || ((ga =? gb) &&
      ((ra <? rb) || ((ra =? rb) && (ca <? cb)))))).

(** [heapq] is the binary heap of the Python standard library. Its array
    layout is not modelled, only its contract: the heap holds a multiset
    of items and [heappop] removes and returns a least one. The heap is
    kept as a sorted list, [heappush] inserts in order and [heappop]
    takes the head; [None] stands for popping from an empty heap, which
    [search] never does. *)
Fixpoint heappush (heap : list item) (x : item) : list item :=
  match heap with
  | [] => [x]
  | y :: heap' =>
    if item_ltb x y then x :: heap else y :: heappush heap' x
  end.

Definition heappop (heap : list item) : option (item * list item) :=
  match heap with
  | [] => None
  | x :: heap' => Some (x, heap')
  end.

(** The local variables of [search], and [self.nodes_expanded]. *)
Record state := {
  open_set : list item;
  came_from : gmap Coord Coord;
  g_score : gmap Coord Z;
  f_score : gmap Coord Z;
  visited : gset Coord;
  expanded : Z
}.

Section search.
Context (self : t) (start goal : Coord) (grid : Grid).

(** The body of the [for dx, dy in ...] loop of [search] for the node
    [current] and the direction [d]; [continue] returns the state as it
    is. *)
Definition relax_neighbor (current : Coord) (d : Z * Z) (st : state)
    : completion state :=
  let neighbor := move current d in
  if negb (in_bounds grid neighbor) then Returns st
  else
    match cell grid neighbor with
    | None => Raises IndexError
    | Some x =>
      if x =? 1 then Returns st
      else
        match g_score st !! current with
        | None => Raises KeyError
        | Some g_current =>
          let tentative_g := g_current + 1 in
          if match g_score st !! neighbor with
             | None => true
             | Some g_neighbor => tentative_g <? g_neighbor
             end
          then
            let f_neighbor := tentative_g + heuristic self neighbor goal in
            Returns
              {| open_set :=
                   if decide (neighbor ∈ visited st) then open_set st
                   else heappush (open_set st)
                                 (f_neighbor, tentative_g, neighbor);
                 came_from := <[neighbor := current]> (came_from st);
                 g_score := <[neighbor := tentative_g]> (g_score st);
                 f_score := <[neighbor := f_neighbor]> (f_score st);
                 visited := visited st;
                 expanded := expanded st |}
          else Returns st
        end
    end.

(** The [for] loop, from the direction list [dirs] on. *)
Fixpoint relax (current : Coord) (dirs : list (Z * Z)) (st : state)
    : completion state :=
  match dirs with
  | [] => Returns st
  | d :: dirs' =>
    match relax_neighbor current d st with
    | Raises e => Raises e
    | Returns st' => relax current dirs' st'
    end
  end.

(** The [while open_set] loop; the result comes with the final value
    of [self.nodes_expanded]. *)
Fixpoint search_loop (fuel : nat) (st : state)
    : option (completion bool * Z) :=
  match fuel with
  | O => None
  | S fuel' =>
    match heappop (open_set st) with
    | None => Some (Returns false, expanded st)
    | Some ((current_f, current_g, current), open_set') =>
      let expanded' := expanded st + 1 in
      if decide (current = goal) then Some (Returns true, expanded')
      else
        match relax current directions
                {| open_set := open_set';
                   came_from := came_from st;
                   g_score := g_score st;
                   f_score := f_score st;
                   visited := visited st ∪ {[current]};
                   expanded := expanded' |} with
        | Raises e => Some (Raises e, expanded')
        | Returns st' => search_loop fuel' st'
        end
    end
  end.

Definition initial : state :=
  {| open_set := heappush [] (0 + heuristic self start goal, 0, start);
     came_from := ∅;
     g_score := {[start := 0]};
     f_score := {[start := heuristic self start goal]};
     visited := ∅;
     expanded := nodes_expanded self |}.

Definition search (fuel : nat) : option (completion bool * Z) :=
  search_loop fuel initial.
End search.
End AStar.

(** ** Paths on a grid *)

(** A cell the search may enter: in bounds and not an obstacle. *)
Definition free (grid : Grid) (n : Coord) : Prop :=
  in_bounds grid n = true ∧ ∃ x, cell grid n = Some x ∧ x ≠ 1.

(** One move of the search: from [a] to a 4-neighbor that is free. *)
Definition step (grid : Grid) (a b : Coord) : Prop :=
  (∃ d, d ∈ directions ∧ b = move a d) ∧ free grid b.

(** [g] can be reached from [s] by moves into free cells; [s = g] counts. *)
Definition reachable (grid : Grid) (s g : Coord) : Prop := rtc (step grid) s g.

(** All rows have the length of the first one. *)
Definition rectangular (grid : Grid) : Prop :=
  Forall (λ row, len row = row0_len grid) grid.

(** A walk that starts at [a] and then visits the cells of [p] in order,
    every move being a [step]; [endpoint a p] is where it ends. *)
Fixpoint trail (grid : Grid) (a : Coord) (p : list Coord) : Prop :=
  match p with
  | [] => True
  | b :: p' => step grid a b ∧ trail grid b p'
  end.

Fixpoint endpoint (a : Coord) (p : list Coord) : Coord :=
  match p with
  | [] => a
  | b :: p' => endpoint b p'
  end.

(** The path of the output contract: a list of cells from [s] to [g], all
    of them in bounds and not blocked, consecutive ones one unit apart
    along one axis. *)
Definition adjacent (a b : Coord) : Prop :=
  Z.abs (a.1 - b.1) + Z.abs (a.2 - b.2) = 1.

Fixpoint connected_cells (p : list Coord) : Prop :=
  match p with
  | a :: p' =>
    match p' with
    | b :: _ => adjacent a b ∧ connected_cells p'
    | [] => True
    end
  | [] => True
  end.

Definition free_path (grid : Grid) (s g : Coord) (p : list Coord) : Prop :=
  head p = Some s ∧ last p = Some g ∧ Forall (free grid) p ∧ connected_cells p.

Definition path_exists (grid : Grid) (s g : Coord) : Prop :=
  ∃ p, free_path grid s g p.

(** ** Fuel that suffices for [ida_star] *)

(** The in-bounds coordinates of a grid. *)
Definition cells (grid : Grid) : gset Coord :=
  list_to_set (r ← seqZ 0 (len grid); c ← seqZ 0 (row0_len grid); [(r, c)]).

(** Fuel that is enough for [ida_star]: the recursion is at most one deeper
    than the number of cells, and the threshold, which grows by at least one
    per iteration, stays below the largest f-cost of the grid. *)
Definition h_bound (start goal : Coord) (grid : Grid)
    (heuristic : Coord → Coord → Z) : Z :=
  foldr Z.max (heuristic start goal)
        ((λ n, heuristic n goal) <$> elements (cells grid)).

Definition depth_bound (grid : Grid) : nat := S (size (cells grid)).

Definition iter_bound (start goal : Coord) (grid : Grid)
    (heuristic : Coord → Coord → Z) : nat :=
  S (Z.to_nat (Z.of_nat (size (cells grid)) + h_bound start goal grid heuristic
               - heuristic start goal)).

Definition fuel_bound (start goal : Coord) (grid : Grid)
    (heuristic : Coord → Coord → Z) : nat :=
  (depth_bound grid + iter_bound start goal grid heuristic)%nat.

(** ** The calls of [dfs_search] *)

(** A neighbor the loop of [dfs_search] passes over: out of bounds, blocked,
    or already in the visited set. *)
Definition ineligible (grid : Grid) (visited : gset Coord) (n : Coord) : Prop :=
  in_bounds grid n = false
  ∨ cell grid n = Some 1
  ∨ (is_Some (cell grid n) ∧ n ∈ visited).

(** A call of [dfs_search]: the fuel it runs on, its node, its cost and the
    visited set at its entry; [f_cost] is what it compares with the
    threshold. *)
Record call := Call {
  call_fuel : nat;
  call_node : Coord;
  call_cost : Z;
  call_visited : gset Coord
}.

Definition f_cost (goal : Coord) (heuristic : Coord → Coord → Z) (c : call) : Z :=
  call_cost c + heuristic (call_node c) goal.

(** [subcall c c']: the call [c], run with threshold [t], makes the
    recursive call [c']. A call that passes the threshold test at a node
    other than the goal runs the loop: when the loop has gone through the
    directions [ds] without returning, leaving [min_exceed] and the visited
    set [v1], and the next neighbor is in bounds, not blocked and not in
    [v1], the neighbor is added and the call into it is made. *)
Inductive subcall (goal : Coord) (grid : Grid) (heuristic : Coord → Coord → Z)
    (t : Z) : call → call → Prop :=
  | subcall_neighbor fuel node g_cost visited ds d ds' min_exceed v1 x :
      (g_cost + heuristic node goal >? t) = false →
      node ≠ goal →
      directions = ds ++ d :: ds' →
      explore grid (dfs_search goal grid heuristic fuel) node g_cost t
              ds Inf visited
        = Some (Returns (Num min_exceed, v1)) →
      in_bounds grid (move node d) = true →
      cell grid (move node d) = Some x → x ≠ 1 →
      move node d ∉ v1 →
      subcall goal grid heuristic t
              (Call (S fuel) node g_cost visited)
              (Call fuel (move node d) (g_cost + 1) (v1 ∪ {[move node d]})).

(** The calls made during the outer iteration with threshold [t], each with
    its recursion path: the nodes of the calls on the stack, innermost
    first. The top-level call is made at [start] on the visited set
    [{start}]. *)
Inductive active (start goal : Coord) (grid : Grid)
    (heuristic : Coord → Coord → Z) (t : Z) : list Coord → call → Prop :=
  | active_top depth :
      active start goal grid heuristic t [start] (Call depth start 0 {[start]})
  | active_sub path c c' :
      active start goal grid heuristic t path c →
      subcall goal grid heuristic t c c' →
      active start goal grid heuristic t (call_node c' :: path) c'.

(** [a <= b] on numbers, [math.inf] being the largest. *)
Definition num_le (a b : num) : Prop :=
  match a, b with
  | _, Inf => True
  | Inf, Fin _ => False
  | Fin x, Fin y => x ≤ y
  end.

(** ** Occupancy *)

(** Two grids with rows of the same lengths that hold the same value in
    every in-bounds cell but [s]. *)
Definition differ_only_at (s : Coord) (grid grid' : Grid) : Prop :=
  length <$> grid = length <$> grid'
  ∧ ∀ n, in_bounds grid n = true → n ≠ s → cell grid n = cell grid' n.

(** [s] is an obstacle of the grid. *)
Definition blocked (grid : Grid) (n : Coord) : Prop := cell grid n = Some 1.

(** ** Invariant and measure of the loop of [AStar.search] *)

(** [a <= b] on the tuples of the open set. *)
Definition item_le (a b : AStar.item) : Prop := AStar.item_ltb b a = false.

(** What holds of the variables of [search] at each test of [while
    open_set]; inside the [for] loop the node being expanded is in [open]:
    its neighbors are not all scored yet. *)
Record astar_inv (start goal : Coord) (grid : Grid) (open : gset Coord)
    (st : AStar.state) : Prop := {
  inv_start : start ∈ dom (AStar.g_score st);
  inv_open : ∀ f g n, (f, g, n) ∈ AStar.open_set st → n ∈ dom (AStar.g_score st);
  inv_reach : ∀ n, n ∈ dom (AStar.g_score st) → reachable grid start n;
  inv_visited : AStar.visited st ⊆ dom (AStar.g_score st);
  inv_closed : ∀ n m, n ∈ AStar.visited st → n ∉ open → step grid n m →
                      m ∈ dom (AStar.g_score st);
  inv_pending : ∀ n, n ∈ dom (AStar.g_score st) →
                     n ∈ AStar.visited st ∨ ∃ f g, (f, g, n) ∈ AStar.open_set st;
  inv_goal : goal ∉ AStar.visited st;
  inv_range : ∀ n g, AStar.g_score st !! n = Some g →
                     0 ≤ g < Z.of_nat (size (dom (AStar.g_score st)));
  inv_sorted : StronglySorted item_le (AStar.open_set st)
}.
Arguments inv_start {_ _ _ _ _} _.
Arguments inv_open {_ _ _ _ _} _ _ _ _ _.
Arguments inv_reach {_ _ _ _ _} _ _ _.
Arguments inv_visited {_ _ _ _ _} _.
Arguments inv_closed {_ _ _ _ _} _ _ _ _ _ _.
Arguments inv_pending {_ _ _ _ _} _ _ _.
Arguments inv_goal {_ _ _ _ _} _.
Arguments inv_range {_ _ _ _ _} _ _ _ _.
Arguments inv_sorted {_ _ _ _ _} _.

(** The cells [search] can score, and the measure that each iteration of
    its loop decreases: a scored cell weighs its score, an unscored one
    more than any score. *)
Definition astar_cells (start : Coord) (grid : Grid) : gset Coord :=
  cells grid ∪ {[start]}.

Definition astar_weight (start : Coord) (grid : Grid) (st : AStar.state)
    (n : Coord) : nat :=
  match AStar.g_score st !! n with
  | None => size (astar_cells start grid)
  | Some g => Z.to_nat g
  end.

Definition astar_measure (start : Coord) (grid : Grid) (st : AStar.state) : nat :=
  (length (AStar.open_set st)
   + 2 * sum_list_with (astar_weight start grid st)
                       (elements (astar_cells start grid)))%nat.

Definition astar_fuel_bound (start : Coord) (grid : Grid) : nat :=
  S (S (2 * (size (astar_cells start grid) * size (astar_cells start grid)))).

(** Properties of a recursive call that the loop of [dfs_search] relies on:
    a non-FOUND return leaves the visited set as the call found it, and a
    finite bound exceeds the threshold. *)
Definition restores
    (rec : Coord → Z → Z → gset Coord → option (completion (result * gset Coord)))
    : Prop :=
  ∀ n g t v c v', rec n g t v = Some (Returns (Num c, v')) → v' = v.

Definition exceeds
    (rec : Coord → Z → Z → gset Coord → option (completion (result * gset Coord)))
    : Prop :=
  ∀ n g t v r v', rec n g t v = Some (Returns (Num (Fin r), v')) → t < r.

(** ** The heuristics of the examples *)

(** [chebyshev] and [zero_heuristic] of [example_custom_heuristic] in
    [examples/basic_usage.py]; its [euclidean] returns a float and is not
    modelled. *)

(** [max(abs(a[0] - b[0]), abs(a[1] - b[1]))] *)
Definition chebyshev (a b : Coord) : Z :=
  Z.max (Z.abs (a.1 - b.1)) (Z.abs (a.2 - b.2)).

(** [return 0] *)
Definition zero_heuristic (a b : Coord) : Z := 0.

(** ** The thresholds of a run *)

(** The thresholds with which the loop of [ida_star] calls [dfs_search]:
    the heuristic estimate of the start, and then each finite bound that a
    top-level call returns. *)
Inductive threshold_reached (start goal : Coord) (grid : Grid)
    (heuristic : Coord → Coord → Z) (depth : nat) : Z → Prop :=
  | threshold_initial :
      threshold_reached start goal grid heuristic depth (heuristic start goal)
  | threshold_next t r visited' :
      threshold_reached start goal grid heuristic depth t →
      dfs_search goal grid heuristic depth start 0 t {[start]}
        = Some (Returns (Num (Fin r), visited')) →
      threshold_reached start goal grid heuristic depth r.

(** ** The random grids of the comparison *)

(** Python's [l[i] = x]; [None] is [IndexError]. *)
Definition set_item {A} (l : list A) (i : Z) (x : A) : option (list A) :=
  if 0 <=? i then
    if i <? len l then Some (<[Z.to_nat i := x]> l) else None
  else if - len l <=? i then Some (<[Z.to_nat (len l + i) := x]> l)
  else None.

(** [grid[i][j] = v]: the row [grid[i]] is fetched and updated in place. The
    rows of the grids built here are distinct lists, so that updating one
    leaves the others alone. *)
Definition set_cell (grid : Grid) (i j v : Z) : option Grid :=
  row ← index grid i; row' ← set_item row j v; set_item grid i row'.

(** [[[0 for _ in range(size)] for _ in range(size)]] *)
Definition zeros (size : Z) : Grid :=
  replicate (Z.to_nat size) (replicate (Z.to_nat size) 0).

(** [create_test_grid(size, obstacle_density)] of
    [examples/comparison_a_star.py]. The random source is an input:
    [draws k] is the outcome of the test [random.random() < obstacle_density]
    at the [k]-th call of [random.random()], the calls being numbered from
    0 in the order in which the loops make them. *)
Section create_test_grid.
Context (draws : nat → bool).

(** [for j in range(size)], from the column list [js] on; [k] counts the
    calls of [random.random()] made so far. *)
Fixpoint fill_row (grid : Grid) (i : Z) (js : list Z) (k : nat)
    : option (Grid * nat) :=
  match js with
  | [] => Some (grid, k)
  | j :: js' =>
    if draws k then
      match set_cell grid i j 1 with
      | None => None
      | Some grid' => fill_row grid' i js' (S k)
      end
    else fill_row grid i js' (S k)
  end.

(** [for i in range(size)], from the row list [rows] on. *)
Fixpoint fill (grid : Grid) (size : Z) (rows : list Z) (k : nat)
    : option (Grid * nat) :=
  match rows with
  | [] => Some (grid, k)
  | i :: rows' =>
    match fill_row grid i (seqZ 0 size) k with
    | None => None
    | Some (grid', k') => fill grid' size rows' k'
    end
  end.

Definition create_test_grid (size : Z) : completion Grid :=
  match fill (zeros size) size (seqZ 0 size) 0 with
  | None => Raises IndexError
  | Some (grid, _) =>
    (* Ensure start and goal are free *)
    match set_cell grid 0 0 0 with
    | None => Raises IndexError
    | Some grid' =>
      match set_cell grid' (size - 1) (size - 1) 0 with
      | None => Raises IndexError
      | Some grid'' => Returns grid''
      end
    end
  end.
End create_test_grid.

(** [grid] is a square of [size] rows of [size] cells, the cell in row [r]
    and column [c] holding [val r c]. *)
Definition grid_is (size : Z) (grid : Grid) (val : Z → Z → Z) : Prop :=
  len grid = size
  ∧ Forall (λ row, len row = size) grid
  ∧ ∀ r c, 0 ≤ r < size → 0 ≤ c < size → cell grid (r, c) = Some (val r c).

(** * The searches on Python's numbers *)

(** The definitions above give the heuristic integer values, as [manhattan],
    [chebyshev] and [zero_heuristic] have. The code takes any callable that
    returns a number: [euclidean] returns a float, and a caller may return
    [math.inf]. The module [Numeric] below is the same code on Python's
    numbers. For a heuristic with integer values it is the search above
    ([numeric_ida_star_int_valued], [numeric_astar_search_int_valued]). *)

(** ** Python's numbers *)

(** An [int] or a [float]. A float is an IEEE 754 binary64 number, as the
    standard library specifies them: an infinity, a NaN, a signed zero or
    a signed mantissa [m] with an exponent [e], of value [m * 2^e]. *)
Inductive pynum := PInt (z : Z) | PFloat (f : spec_float).

Definition prec : Z := 53.
Definition emax : Z := 1024.

(** [float(z)]: the nearest float, ties to even. For an int that rounds to
    2^1024 or beyond (from 2^1024 - 2^970 on) Python raises
    [OverflowError]; here the result is the infinity. The ints that the
    searches convert are path costs, which count cells of the grid. *)
Definition float_of_int (z : Z) : spec_float :=
  binary_normalize prec emax z 0 false.

Definition to_float (x : pynum) : spec_float :=
  match x with
  | PInt z => float_of_int z
  | PFloat f => f
  end.

(** [a + b]: exact on two ints; otherwise the ints are converted and the
    floats are added with rounding. *)
Definition py_add (a b : pynum) : pynum :=
  match a, b with
  | PInt x, PInt y => PInt (x + y)
  | _, _ => PFloat (SFadd prec emax (to_float a) (to_float b))
  end.

(** The value of a number, by which Python compares: ints with floats too
    are compared exactly, not after conversion. *)
Inductive xval := XNaN | XNegInf | XPosInf | XFin (m e : Z).

Definition value (x : pynum) : xval :=
  match x with
  | PInt z => XFin z 0
  | PFloat (S754_zero _) => XFin 0 0
  | PFloat (S754_infinity s) => if s then XNegInf else XPosInf
  | PFloat S754_nan => XNaN
  | PFloat (S754_finite s m e) => XFin (if s then Z.neg m else Z.pos m) e
  end.

(** [m1 * 2^e1 < m2 * 2^e2] and [m1 * 2^e1 = m2 * 2^e2], on a common
    exponent. *)
Definition fin_ltb (m1 e1 m2 e2 : Z) : bool :=
  m1 * 2 ^ (e1 - Z.min e1 e2) <? m2 * 2 ^ (e2 - Z.min e1 e2).

Definition fin_eqb (m1 e1 m2 e2 : Z) : bool :=
  m1 * 2 ^ (e1 - Z.min e1 e2) =? m2 * 2 ^ (e2 - Z.min e1 e2).

(** [a < b]; [a > b] is [b < a]. A NaN is neither below nor above
    anything. *)
Definition py_lt (a b : pynum) : bool :=
  match value a, value b with
  | XFin m1 e1, XFin m2 e2 => fin_ltb m1 e1 m2 e2
  | XNaN, _ | _, XNaN => false
  | XPosInf, _ | _, XNegInf => false
  | XNegInf, _ | _, XPosInf => true
  end.

(** [a == b] *)
Definition py_eq (a b : pynum) : bool :=
  match value a, value b with
  | XFin m1 e1, XFin m2 e2 => fin_eqb m1 e1 m2 e2
  | XPosInf, XPosInf | XNegInf, XNegInf => true
  | _, _ => false
  end.

(** [math.inf] *)
Definition math_inf : pynum := PFloat (S754_infinity false).

(** Python's [min(a, b)]: [b] when [b < a], else [a]. *)
Definition py_min (a b : pynum) : pynum := if py_lt b a then b else a.

(** An int, or a float that is neither an infinity nor a NaN. *)
Definition is_finite (x : pynum) : bool :=
  match value x with
  | XFin _ _ => true
  | _ => false
  end.

(** A heuristic with integer values, as a heuristic with numbers for
    values. *)
Definition int_valued (h : Coord → Coord → Z) : Coord → Coord → pynum :=
  λ a b, PInt (h a b).

(** [euclidean] of [example_custom_heuristic] in [examples/basic_usage.py]:
    [math.sqrt((a[0] - b[0])**2 + (a[1] - b[1])**2)]. The int is converted,
    and the square root is rounded to the nearest float. For coordinates
    so far apart that no float holds the int (2^512 and more) Python raises
    [OverflowError]; the estimate is [math.inf] here. *)
Definition euclidean (a b : Coord) : pynum :=
  PFloat (SFsqrt prec emax
            (float_of_int ((a.1 - b.1) ^ 2 + (a.2 - b.2) ^ 2))).

Module Numeric.

(** The value [dfs_search] returns: the string ["FOUND"] or a number. *)
Inductive result := FOUND | Num (n : pynum).

Section ida_star.
Context (start goal : Coord) (grid : Grid) (heuristic : Coord → Coord → pynum).

Abbreviation outcome := (completion (result * gset Coord)).

(** The [for dr, dc in ...] loop of [dfs_search], from the direction list
    [dirs] on, with the current [min_exceed] and [visited]; [rec] is the
    recursive call. *)
Fixpoint explore (rec : Coord → Z → pynum → gset Coord → option outcome)
    (node : Coord) (g_cost : Z) (current_threshold : pynum)
    (dirs : list (Z * Z)) (min_exceed : pynum) (visited : gset Coord)
    : option outcome :=
  match dirs with
  | [] => Some (Returns (Num min_exceed, visited))
  | d :: dirs' =>
    let neighbor := move node d in
    if negb (in_bounds grid neighbor) then
      explore rec node g_cost current_threshold dirs' min_exceed visited
    else
      match cell grid neighbor with
      | None => Some (Raises IndexError)
      | Some x =>
        if x =? 1 then
          explore rec node g_cost current_threshold dirs' min_exceed visited
        else if decide (neighbor ∈ visited) then
          explore rec node g_cost current_threshold dirs' min_exceed visited
        else
          match rec neighbor (g_cost + 1) current_threshold
                    (visited ∪ {[neighbor]}) with
          | None => None
          | Some (Raises e) => Some (Raises e)
          | Some (Returns (FOUND, visited')) => Some (Returns (FOUND, visited'))
          | Some (Returns (Num r, visited')) =>
            if decide (neighbor ∈ visited') then
              explore rec node g_cost current_threshold dirs'
                      (py_min min_exceed r) (visited' ∖ {[neighbor]})
            else Some (Raises KeyError)
          end
      end
  end.

(** [g_cost] is an int: 0 at the top, and one more at each call. The test
    [f_cost > current_threshold] is [current_threshold < f_cost]. *)
Fixpoint dfs_search (fuel : nat) (node : Coord) (g_cost : Z)
    (current_threshold : pynum) (visited : gset Coord) : option outcome :=
  match fuel with
  | O => None
  | S fuel' =>
    let f_cost := py_add (PInt g_cost) (heuristic node goal) in
    if py_lt current_threshold f_cost then
      Some (Returns (Num f_cost, visited))
    else if decide (node = goal) then
      Some (Returns (FOUND, visited))
    else
      explore (dfs_search fuel') node g_cost current_threshold
              directions math_inf visited
  end.

(** The main loop: [iters] bounds the iterations of [while True], [depth]
    the recursion of each top-level [dfs_search]. *)
Fixpoint ida_loop (iters depth : nat) (threshold : pynum)
    : option (completion bool) :=
  match iters with
  | O => None
  | S iters' =>
    match dfs_search depth start 0 threshold {[start]} with
    | None => None
    | Some (Raises e) => Some (Raises e)
    | Some (Returns (FOUND, _)) => Some (Returns true)
    | Some (Returns (Num r, _)) =>
      if py_eq r math_inf then Some (Returns false)
      else ida_loop iters' depth r
    end
  end.

Definition ida_star (fuel : nat) : option (completion bool) :=
  ida_loop fuel fuel (heuristic start goal).
End ida_star.

Module AStar.
(** An [AStar] object: its heuristic and its counter of expanded nodes. *)
Record t := {
  heuristic : Coord → Coord → pynum;
  nodes_expanded : Z
}.

(** [AStar(heuristic)] *)
Definition init (heuristic : Coord → Coord → pynum) : t :=
  {| heuristic := heuristic; nodes_expanded := 0 |}.

(** An entry of the open set: the tuple [(f, g, node)]. *)
Abbreviation item := (pynum * Z * Coord)%type.

(** Python's [<] on such tuples: the first components that are not [==]
    decide, the node being compared as a tuple in its turn. *)
Definition item_ltb (a b : item) : bool :=
  let '(fa, ga, (ra, ca)) := a in
  let '(fb, gb, (rb, cb)) := b in
  if py_eq fa fb then
    (ga <? gb) || ((ga =? gb) &&
      ((ra <? rb) || ((ra =? rb) && (ca <? cb))))
  else py_lt fa fb.

(** [heapq] by its contract, as above: the heap is kept as a list in
    order, [heappush] inserts in order and [heappop] takes the head. The
    order of the tuples is total as long as no f-score is a NaN; the
    answer of [search] does not depend on the order in which the nodes are
    popped. *)
Fixpoint heappush (heap : list item) (x : item) : list item :=
  match heap with
  | [] => [x]
  | y :: heap' =>
    if item_ltb x y then x :: heap else y :: heappush heap' x
  end.

Definition heappop (heap : list item) : option (item * list item) :=
  match heap with
  | [] => None
  | x :: heap' => Some (x, heap')
  end.

(** The local variables of [search], and [self.nodes_expanded]. *)
Record state := {
  open_set : list item;
  came_from : gmap Coord Coord;
  g_score : gmap Coord Z;
  f_score : gmap Coord pynum;
  visited : gset Coord;
  expanded : Z
}.

Section search.
Context (self : t) (start goal : Coord) (grid : Grid).

(** The body of the [for dx, dy in ...] loop of [search] for the node
    [current] and the direction [d]; [continue] returns the state as it
    is. *)
Definition relax_neighbor (current : Coord) (d : Z * Z) (st : state)
    : completion state :=
  let neighbor := move current d in
  if negb (in_bounds grid neighbor) then Returns st
  else
    match cell grid neighbor with
    | None => Raises IndexError
    | Some x =>
      if x =? 1 then Returns st
      else
        match g_score st !! current with
        | None => Raises KeyError
        | Some g_current =>
          let tentative_g := g_current + 1 in
          if match g_score st !! neighbor with
             | None => true
             | Some g_neighbor => tentative_g <? g_neighbor
             end
          then
            let f_neighbor :=
              py_add (PInt tentative_g) (heuristic self neighbor goal) in
            Returns
              {| open_set :=
                   if decide (neighbor ∈ visited st) then open_set st
                   else heappush (open_set st)
                                 (f_neighbor, tentative_g, neighbor);
                 came_from := <[neighbor := current]> (came_from st);
                 g_score := <[neighbor := tentative_g]> (g_score st);
                 f_score := <[neighbor := f_neighbor]> (f_score st);
                 visited := visited st;
                 expanded := expanded st |}
          else Returns st
        end
    end.

(** The [for] loop, from the direction list [dirs] on. *)
Fixpoint relax (current : Coord) (dirs : list (Z * Z)) (st : state)
    : completion state :=
  match dirs with
  | [] => Returns st
  | d :: dirs' =>
    match relax_neighbor current d st with
    | Raises e => Raises e
    | Returns st' => relax current dirs' st'
    end
  end.

(** The [while open_set] loop; the result comes with the final value
    of [self.nodes_expanded]. *)
Fixpoint search_loop (fuel : nat) (st : state)
    : option (completion bool * Z) :=
  match fuel with
  | O => None
  | S fuel' =>
    match heappop (open_set st) with
    | None => Some (Returns false, expanded st)
    | Some ((current_f, current_g, current), open_set') =>
      let expanded' := expanded st + 1 in
      if decide (current = goal) then Some (Returns true, expanded')
      else
        match relax current directions
                {| open_set := open_set';
                   came_from := came_from st;
                   g_score := g_score st;
                   f_score := f_score st;
                   visited := visited st ∪ {[current]};
                   expanded := expanded' |} with
        | Raises e => Some (Raises e, expanded')
        | Returns st' => search_loop fuel' st'
        end
    end
  end.

Definition initial : state :=
  {| open_set :=
       heappush [] (py_add (PInt 0) (heuristic self start goal), 0, start);
     came_from := ∅;
     g_score := {[start := 0]};
     f_score := {[start := heuristic self start goal]};
     visited := ∅;
     expanded := nodes_expanded self |}.

Definition search (fuel : nat) : option (completion bool * Z) :=
  search_loop fuel initial.
End search.
End AStar.
End Numeric.

(** ** The f-costs of a search and the fuel that suffices *)

(** The f-costs that the calls of a search from [start] to [goal] can
    compute: a path cost from 0 to the number of cells, plus the estimate
    of the start or of a cell. *)
Definition costs (start goal : Coord) (grid : Grid)
    (heuristic : Coord → Coord → pynum) : list pynum :=
  g ← seqZ 0 (Z.of_nat (size (cells grid)) + 1);
  n ← start :: elements (cells grid);
  [py_add (PInt g) (heuristic n goal)].

(** All of them are finite numbers. *)
Definition finite_costs (start goal : Coord) (grid : Grid)
    (heuristic : Coord → Coord → pynum) : Prop :=
  ∀ c, c ∈ costs start goal grid heuristic → is_finite c = true.

(** Fuel that is enough for [Numeric.ida_star], whatever the heuristic:
    the recursion is at most one deeper than the number of cells, and the
    threshold takes each f-cost at most once. *)
Definition numeric_fuel_bound (grid : Grid) : nat :=
  (depth_bound grid + S (S (size (cells grid)) * S (size (cells grid))))%nat.

(** A number that [dfs_search] may return at the threshold [t] in a
    search from [start]: [math.inf], or an f-cost above [t]. *)
Definition bound_above (start goal : Coord) (grid : Grid)
    (heuristic : Coord → Coord → pynum) (t c : pynum) : Prop :=
  py_eq c math_inf = true
  ∨ (py_lt t c = true ∧ c ∈ costs start goal grid heuristic).

(** The integer searches inside the searches on numbers. *)
Definition num_of_int (n : num) : pynum :=
  match n with
  | Fin z => PInt z
  | Inf => math_inf
  end.

Definition result_of_int (r : result) : Numeric.result :=
  match r with
  | FOUND => Numeric.FOUND
  | Num n => Numeric.Num (num_of_int n)
  end.

(** What the loop of [Numeric.dfs_search] relies on in a recursive call: a
    return other than FOUND leaves the visited set as the call found it. *)
Definition numeric_restores
    (rec : Coord → Z → pynum → gset Coord
           → option (completion (Numeric.result * gset Coord))) : Prop :=
  ∀ n g t v c v', rec n g t v = Some (Returns (Numeric.Num c, v')) → v' = v.

(** [math.inf], or a number above [t] that is not [math.inf]. *)
Definition proper_bound (t c : pynum) : Prop :=
  py_eq c math_inf = true ∨ (py_eq c math_inf = false ∧ py_lt t c = true).

Definition outcome_of_int (o : completion (result * gset Coord))
    : completion (Numeric.result * gset Coord) :=
  match o with
  | Returns (r, v) => Returns (result_of_int r, v)
  | Raises e => Raises e
  end.

Definition astar_of_int (self : AStar.t) : Numeric.AStar.t :=
  {| Numeric.AStar.heuristic := int_valued (AStar.heuristic self);
     Numeric.AStar.nodes_expanded := AStar.nodes_expanded self |}.

Definition item_of_int (x : AStar.item) : Numeric.AStar.item :=
  (PInt x.1.1, x.1.2, x.2).

Definition state_of_int (st : AStar.state) : Numeric.AStar.state :=
  {| Numeric.AStar.open_set := item_of_int <$> AStar.open_set st;
     Numeric.AStar.came_from := AStar.came_from st;
     Numeric.AStar.g_score := AStar.g_score st;
     Numeric.AStar.f_score := PInt <$> AStar.f_score st;
     Numeric.AStar.visited := AStar.visited st;
     Numeric.AStar.expanded := AStar.expanded st |}.

(** ** Invariant and measure of the loop of [Numeric.AStar.search] *)

Record numeric_astar_inv (start goal : Coord) (grid : Grid) (open : gset Coord)
    (st : Numeric.AStar.state) : Prop := {
  ninv_start : start ∈ dom (Numeric.AStar.g_score st);
  ninv_open : ∀ f g n, (f, g, n) ∈ Numeric.AStar.open_set st →
                       n ∈ dom (Numeric.AStar.g_score st);
  ninv_reach : ∀ n, n ∈ dom (Numeric.AStar.g_score st) →
                    reachable grid start n;
  ninv_visited : Numeric.AStar.visited st ⊆ dom (Numeric.AStar.g_score st);
  ninv_closed : ∀ n m, n ∈ Numeric.AStar.visited st → n ∉ open →
                       step grid n m → m ∈ dom (Numeric.AStar.g_score st);
  ninv_pending : ∀ n, n ∈ dom (Numeric.AStar.g_score st) →
                      n ∈ Numeric.AStar.visited st
                      ∨ ∃ f g, (f, g, n) ∈ Numeric.AStar.open_set st;
  ninv_goal : goal ∉ Numeric.AStar.visited st;
  ninv_range : ∀ n g, Numeric.AStar.g_score st !! n = Some g →
                      0 ≤ g < Z.of_nat (size (dom (Numeric.AStar.g_score st)))
}.
Arguments ninv_start {_ _ _ _ _} _.
Arguments ninv_open {_ _ _ _ _} _ _ _ _ _.
Arguments ninv_reach {_ _ _ _ _} _ _ _.
Arguments ninv_visited {_ _ _ _ _} _.
Arguments ninv_closed {_ _ _ _ _} _ _ _ _ _ _.
Arguments ninv_pending {_ _ _ _ _} _ _ _.
Arguments ninv_goal {_ _ _ _ _} _.
Arguments ninv_range {_ _ _ _ _} _ _ _ _.

Definition numeric_astar_weight (start : Coord) (grid : Grid)
    (st : Numeric.AStar.state) (n : Coord) : nat :=
  match Numeric.AStar.g_score st !! n with
  | None => size (astar_cells start grid)
  | Some g => Z.to_nat g
  end.

Definition numeric_astar_measure (start : Coord) (grid : Grid)
    (st : Numeric.AStar.state) : nat :=
  (length (Numeric.AStar.open_set st)
   + 2 * sum_list_with (numeric_astar_weight start grid st)
                       (elements (astar_cells start grid)))%nat.

(** The heuristic that gives [math.inf] for the cell (0,1) as seen from
    (0,2), and the Manhattan distance otherwise: an estimate that is not
    admissible, the goal (0,2) being one move from (0,1). *)
Definition infinite_estimate (a b : Coord) : pynum :=
  if bool_decide (a = (0, 1) ∧ b = (0, 2)) then math_inf
  else PInt (manhattan a b).

(** ** The grids of the examples *)

(** [test_grid] and [custom_grid] of the demonstration in [ida_star.py]. *)
Definition test_grid : Grid :=
  [ [0; 0; 0; 0; 0];
    [1; 1; 0; 1; 0];
    [0; 0; 0; 1; 0];
    [0; 1; 1; 1; 0];
    [0; 0; 0; 0; 0] ].

Definition custom_grid : Grid :=
  [ [0; 0; 0];
    [0; 1; 0];
    [0; 0; 0] ].

(** * Properties *)

Global Arguments in_bounds : simpl never.
Global Arguments cell : simpl never.
Global Arguments move : simpl never.

(** ** Grids and walks *)

Lemma in_bounds_spec grid n :
  in_bounds grid n = true ↔
  0 ≤ n.1 < len grid ∧ 0 ≤ n.2 < row0_len grid.
Proof. unfold in_bounds. rewrite !andb_true_iff. lia. Qed.

Lemma elem_of_cells grid n : n ∈ cells grid ↔ in_bounds grid n = true.
Proof.
  rewrite in_bounds_spec. unfold cells. rewrite elem_of_list_to_set.
  rewrite list_elem_of_bind. split.
  - intros (r & Hc & Hr). apply list_elem_of_bind in Hc as (c & Hn & Hc).
    apply elem_of_seqZ in Hr, Hc. apply list_elem_of_singleton in Hn.
    subst. simpl. lia.
  - intros [Hr Hc]. exists n.1. split; [|apply elem_of_seqZ; lia].
    apply list_elem_of_bind. exists n.2. split; [|apply elem_of_seqZ; lia].
    destruct n. apply list_elem_of_singleton. done.
Qed.

Lemma cell_nonneg grid n :
  0 ≤ n.1 → 0 ≤ n.2 →
  cell grid n = (row ← grid !! Z.to_nat n.1; row !! Z.to_nat n.2).
Proof.
  intros H1 H2. unfold cell, index.
  destruct (Z.leb_spec 0 n.1); [|lia].
  destruct (grid !! _); [|done]. simpl.
  destruct (Z.leb_spec 0 n.2); [done|lia].
Qed.

Lemma cell_in_bounds grid n :
  rectangular grid → in_bounds grid n = true → is_Some (cell grid n).
Proof.
  intros Hrect [Hr Hc]%in_bounds_spec. rewrite cell_nonneg by lia.
  unfold len in *.
  destruct (lookup_lt_is_Some_2 grid (Z.to_nat n.1)) as [row Hrow]; [lia|].
  rewrite Hrow. simpl. apply lookup_lt_is_Some_2.
  apply list_elem_of_lookup_2 in Hrow.
  apply (proj1 (Forall_forall _ _) Hrect) in Hrow. unfold len in Hrow. lia.
Qed.

Lemma free_in_bounds grid n : free grid n → n ∈ cells grid.
Proof. intros [? _]. by apply elem_of_cells. Qed.

Lemma endpoint_app a p q : endpoint a (p ++ q) = endpoint (endpoint a p) q.
Proof. revert a. induction p; intros; simpl; eauto. Qed.

Lemma trail_app grid a p q :
  trail grid a (p ++ q) ↔ trail grid a p ∧ trail grid (endpoint a p) q.
Proof. revert a. induction p as [|b p IH]; intros a; simpl; [|rewrite IH]; tauto. Qed.

(** A walk can be cut after its last visit of a cell. *)
Lemma trail_cut grid a p x :
  trail grid a p → x ∈ a :: p →
  ∃ q, trail grid x q ∧ endpoint x q = endpoint a p ∧ (x ∉ q) ∧ (q ⊆ p).
Proof.
  intros Ht Hx. apply list_elem_of_split_r in Hx as (l1 & l2 & Heq & Hnot).
  exists l2. destruct l1 as [|a' l1]; simplify_eq/=.
  - repeat split; [done..|set_solver].
  - apply trail_app in Ht as [_ Ht]. rewrite endpoint_app. simpl in *.
    destruct Ht as [_ Ht]. repeat split; [done..|set_solver].
Qed.

Lemma reachable_trail grid a b :
  reachable grid a b ↔ ∃ p, trail grid a p ∧ endpoint a p = b.
Proof.
  split.
  - induction 1 as [a|a c b Hs _ (p & Hp & He)].
    + by exists [].
    + exists (c :: p). by simpl.
  - intros (p & Hp & <-). revert a Hp.
    induction p as [|c p IH]; intros a Hp; simpl in *.
    + apply rtc_refl.
    + destruct Hp. eapply rtc_l; [done|]. by apply IH.
Qed.

(** ** Numbers *)

Lemma bool_same_iff (P : Prop) (b b' : bool) :
  (b = true ↔ P) → (b' = true ↔ P) → b' = b.
Proof. destruct b, b'; intros Hb Hb'; try done; [|symmetry]; tauto. Qed.

Lemma num_min_cases a b : num_min a b = a ∨ num_min a b = b.
Proof. unfold num_min. destruct (num_ltb b a); auto. Qed.

Lemma num_min_Inf a b : num_min a b = Inf ↔ a = Inf ∧ b = Inf.
Proof. destruct a, b; unfold num_min; simpl; try case_match; naive_solver. Qed.

Lemma foldr_max_init x l : x ≤ foldr Z.max x l.
Proof. induction l; simpl; lia. Qed.

Lemma foldr_max_elem x l y : y ∈ l → y ≤ foldr Z.max x l.
Proof.
  induction l as [|z l IH]; [by intros ?%elem_of_nil|].
  intros [->|Hy%IH]%elem_of_cons; simpl; lia.
Qed.

(** ** The loop over the neighbors *)

Section explore_facts.
Context (grid : Grid).

Abbreviation expl := (explore grid).

Lemma explore_restores rec node g t dirs m v c v' :
  restores rec →
  expl rec node g t dirs m v = Some (Returns (Num c, v')) → v' = v.
Proof.
  intros Hrec. revert m v.
  induction dirs as [|d dirs IH]; intros m v H; cbn [explore] in H.
  - by simplify_eq.
  - repeat case_match; simplify_eq; eauto.
    match goal with
    | Hr : rec _ _ _ _ = Some _, He : expl _ _ _ _ _ _ _ = Some _ |- _ =>
        apply Hrec in Hr; apply IH in He; set_solver
    end.
Qed.

Lemma explore_exceeds rec node g t dirs m v r v' :
  exceeds rec →
  (∀ x, m = Fin x → t < x) →
  expl rec node g t dirs m v = Some (Returns (Num (Fin r), v')) → t < r.
Proof.
  intros Hrec. revert m v.
  induction dirs as [|d dirs IH]; intros m v Hm H; cbn [explore] in H.
  - simplify_eq. by apply Hm.
  - repeat case_match; simplify_eq; eauto.
    match goal with
    | Hr : rec _ _ _ _ = Some (Returns (Num ?c, _)),
      He : expl _ _ _ _ _ _ _ = Some _ |- _ =>
        apply IH in He; [done|]; intros x Hx;
        destruct (num_min_cases m c) as [E|E]; rewrite E in Hx; subst; eauto
    end.
Qed.

Lemma move_step node d :
  d ∈ directions → free grid (move node d) → step grid node (move node d).
Proof. intros ??. split; eauto. Qed.

Lemma explore_sound goal rec node g t dirs m v v' :
  dirs ⊆ directions →
  (∀ n g t v v', rec n g t v = Some (Returns (FOUND, v')) →
                 reachable grid n goal) →
  expl rec node g t dirs m v = Some (Returns (FOUND, v')) →
  reachable grid node goal.
Proof.
  intros Hdirs Hrec. revert m v.
  induction dirs as [|d dirs IH]; intros m v H; cbn [explore] in H.
  - done.
  - assert (dirs ⊆ directions) by set_solver.
    repeat case_match; simplify_eq; eauto.
    match goal with
    | Hr : rec _ _ _ _ = Some (Returns (FOUND, _)) |- _ => apply Hrec in Hr
    end.
    eapply rtc_l; [|done]. apply move_step; [set_solver|].
    split; [by destruct (in_bounds _ _)|]. eexists; split; [done|lia].
Qed.

Lemma explore_mono (rec rec' : Coord → Z → Z → gset Coord → option (completion (result * gset Coord))) node g t dirs m v o :
  (∀ n g t v o, rec n g t v = Some o → rec' n g t v = Some o) →
  expl rec node g t dirs m v = Some o →
  expl rec' node g t dirs m v = Some o.
Proof.
  intros Hrec. revert m v.
  induction dirs as [|d dirs IH]; intros m v H; cbn [explore] in *.
  - done.
  - destruct (negb _); [eauto|].
    destruct (cell _ _); [|done].
    destruct (_ =? 1); [eauto|].
    destruct (decide _); [eauto|].
    destruct (rec _ _ _ _) as [o'|] eqn:Hr; [|done].
    rewrite (Hrec _ _ _ _ _ Hr).
    destruct o' as [[[|c] v'']|]; [done| |done].
    destruct (decide _); eauto.
Qed.

Lemma explore_Inf_acc rec node g t dirs m v v' :
  expl rec node g t dirs m v = Some (Returns (Num Inf, v')) → m = Inf.
Proof.
  revert m v.
  induction dirs as [|d dirs IH]; intros m v H; cbn [explore] in H.
  - by simplify_eq.
  - repeat case_match; simplify_eq; eauto.
    apply IH in H. by apply num_min_Inf in H as [? _].
Qed.

Lemma explore_complete rec node g t dirs m v v' d :
  restores rec →
  expl rec node g t dirs m v = Some (Returns (Num Inf, v')) →
  d ∈ dirs → free grid (move node d) → move node d ∉ v →
  ∃ v'', rec (move node d) (g + 1) t (v ∪ {[move node d]})
         = Some (Returns (Num Inf, v'')).
Proof.
  intros Hrec. revert m v.
  induction dirs as [|d0 dirs IH]; intros m v H Hd Hfree Hv;
    cbn [explore] in H; [by apply elem_of_nil in Hd|].
  destruct Hfree as (Hin & x & Hx & Hx1).
  apply elem_of_cons in Hd as [->|Hd].
  - rewrite Hin, Hx in H. cbn [negb] in H.
    destruct (Z.eqb_spec x 1); [done|].
    destruct (decide _); [done|].
    repeat case_match; simplify_eq.
    apply explore_Inf_acc in H. apply num_min_Inf in H as [_ ->]. eauto.
  - assert (free grid (move node d)) by (split; eauto).
    repeat case_match; simplify_eq; eauto.
    match goal with
    | Hr : rec _ _ _ _ = Some (Returns (Num ?c, _)) |- _ =>
        pose proof (Hrec _ _ _ _ _ _ Hr); subst
    end.
    eapply IH; [|done..].
    match goal with
    | He : expl _ _ _ _ _ ?m' ?w = _ |- expl _ _ _ _ _ _ ?w' = _ =>
        replace w' with w by set_solver; exact He
    end.
Qed.

Lemma explore_terminates rec node g t dirs m v :
  restores rec →
  (∀ nb, nb ∈ cells grid → nb ∉ v →
         is_Some (rec nb (g + 1) t (v ∪ {[nb]}))) →
  is_Some (expl rec node g t dirs m v).
Proof.
  intros Hrec Hterm. revert m.
  induction dirs as [|d dirs IH]; intros m; cbn [explore]; [done|].
  destruct (in_bounds _ _) eqn:Hin; cbn [negb]; [|done].
  destruct (cell _ _); [|done].
  destruct (_ =? 1); [done|].
  destruct (decide _) as [|Hv]; [done|].
  destruct (Hterm (move node d)) as [o Ho]; [by apply elem_of_cells|done|].
  rewrite Ho. destruct o as [[[|c] v'']|]; [done| |done].
  apply Hrec in Ho as ->.
  destruct (decide _); [|done].
  replace ((v ∪ {[move node d]}) ∖ {[move node d]}) with v by set_solver.
  done.
Qed.

Lemma explore_no_raise rec node g t dirs m v e :
  rectangular grid → restores rec →
  (∀ n g t v, rec n g t v ≠ Some (Raises e)) →
  expl rec node g t dirs m v ≠ Some (Raises e).
Proof.
  intros Hrect Hrec Hno. revert m v.
  induction dirs as [|d dirs IH]; intros m v H; cbn [explore] in H; [done|].
  destruct (in_bounds _ _) eqn:Hin; cbn [negb] in H; [|by eapply IH].
  destruct (cell_in_bounds grid _ Hrect Hin) as [x Hx]. rewrite Hx in H.
  repeat case_match; simplify_eq; try (by eapply IH); try (by eapply Hno).
  match goal with
  | Hr : rec _ _ _ _ = Some (Returns (Num ?c, _)), Hn : _ ∉ _ |- _ =>
      apply Hrec in Hr; apply Hn; rewrite Hr; set_solver
  end.
Qed.

Lemma explore_bound rec node g t dirs m v r v' B :
  restores rec →
  (∀ nb r v', nb ∈ cells grid → nb ∉ v →
     rec nb (g + 1) t (v ∪ {[nb]}) = Some (Returns (Num (Fin r), v')) →
     r ≤ B) →
  (∀ x, m = Fin x → x ≤ B) →
  expl rec node g t dirs m v = Some (Returns (Num (Fin r), v')) → r ≤ B.
Proof.
  intros Hrec Hb. revert m.
  induction dirs as [|d dirs IH]; intros m Hm H; cbn [explore] in H.
  - simplify_eq. by apply Hm.
  - destruct (in_bounds _ _) eqn:Hin; cbn [negb] in H; [|eauto].
    repeat case_match; simplify_eq; eauto.
    match goal with
    | Hr : rec _ _ _ _ = Some (Returns (Num ?c, _)) |- _ =>
        pose proof (Hrec _ _ _ _ _ _ Hr); subst;
        replace ((v ∪ {[move node d]}) ∖ {[move node d]}) with v in H
          by set_solver;
        apply IH in H; [done|]; intros x Hx;
        destruct (num_min_cases m c) as [E|E]; rewrite E in Hx; subst;
        [eauto|eapply Hb; [by apply elem_of_cells|done|exact Hr]]
    end.
Qed.
End explore_facts.

(** ** The bounded depth-first search *)

Section dfs_facts.
Context (goal : Coord) (grid : Grid) (heuristic : Coord → Coord → Z).

Abbreviation dfs := (dfs_search goal grid heuristic).

Lemma dfs_restores fuel : restores (dfs fuel).
Proof.
  induction fuel as [|fuel IH]; intros n g t v c v' H; cbn [dfs_search] in H.
  - done.
  - repeat case_match; simplify_eq; eauto using explore_restores.
Qed.

Lemma dfs_exceeds fuel : exceeds (dfs fuel).
Proof.
  induction fuel as [|fuel IH]; intros n g t v r v' H; cbn [dfs_search] in H.
  - done.
  - repeat case_match; simplify_eq.
    + lia.
    + eapply explore_exceeds; [exact IH| |exact H]. done.
Qed.

Lemma dfs_sound fuel node g t v v' :
  dfs fuel node g t v = Some (Returns (FOUND, v')) → reachable grid node goal.
Proof.
  revert node g t v v'.
  induction fuel as [|fuel IH]; intros n g t v v' H; cbn [dfs_search] in H.
  - done.
  - repeat case_match; simplify_eq.
    + apply rtc_refl.
    + eapply explore_sound; [done|exact IH|exact H].
Qed.

Lemma dfs_mono_S fuel node g t v o :
  dfs fuel node g t v = Some o → dfs (S fuel) node g t v = Some o.
Proof.
  revert node g t v o.
  induction fuel as [|fuel IH]; intros n g t v o H; [done|].
  cbn [dfs_search] in *.
  destruct (_ >? _); [done|]. destruct (decide _); [done|].
  eapply explore_mono; [|exact H]. exact IH.
Qed.

Lemma dfs_mono fuel fuel' node g t v o :
  (fuel ≤ fuel')%nat →
  dfs fuel node g t v = Some o → dfs fuel' node g t v = Some o.
Proof. induction 1; eauto using dfs_mono_S. Qed.

Lemma dfs_complete fuel node g t v v' p :
  dfs fuel node g t v = Some (Returns (Num Inf, v')) →
  trail grid node p → (∀ x, x ∈ p → x ∉ v) → endpoint node p ≠ goal.
Proof.
  revert node g t v v' p.
  induction fuel as [|fuel IH]; intros n g t v v' p H Hp Hv;
    cbn [dfs_search] in H; [done|].
  repeat case_match; simplify_eq.
  destruct p as [|b p]; [done|]. simpl in Hp. destruct Hp as [Hs Hp].
  destruct Hs as [(d & Hd & ->) Hfree].
  eapply explore_complete in H as [v'' H];
    [|apply dfs_restores|exact Hd|exact Hfree|apply Hv; set_solver].
  destruct (trail_cut grid (move n d) p (move n d) Hp) as (q & Hq & He & Hnq & Hsub);
    [set_solver|].
  simpl. rewrite <- He. eapply IH; [exact H|exact Hq|].
  intros x Hxq. set_solver.
Qed.

Lemma dfs_terminates fuel node g t v :
  (size (cells grid ∖ v) < fuel)%nat → is_Some (dfs fuel node g t v).
Proof.
  revert node g t v.
  induction fuel as [|fuel IH]; intros n g t v Hsz; [lia|].
  cbn [dfs_search].
  destruct (_ >? _); [done|]. destruct (decide _); [done|].
  apply explore_terminates; [apply dfs_restores|].
  intros nb Hnb Hv. apply IH.
  assert (cells grid ∖ (v ∪ {[nb]}) ⊂ cells grid ∖ v) as Hsub by set_solver.
  apply subset_size in Hsub. lia.
Qed.

Lemma dfs_no_raise fuel node g t v e :
  rectangular grid → dfs fuel node g t v ≠ Some (Raises e).
Proof.
  intros Hrect. revert node g t v.
  induction fuel as [|fuel IH]; intros n g t v H; cbn [dfs_search] in H;
    [done|].
  repeat case_match; simplify_eq.
  eapply explore_no_raise; [done|apply dfs_restores|exact IH|exact H].
Qed.

Lemma dfs_bound H fuel node g t v r v' :
  (∀ n, n ∈ cells grid → heuristic n goal ≤ H) →
  heuristic node goal ≤ H →
  dfs fuel node g t v = Some (Returns (Num (Fin r), v')) →
  r ≤ g + Z.of_nat (size (cells grid ∖ v)) + H.
Proof.
  intros HH. revert node g t v r v'.
  induction fuel as [|fuel IH]; intros n g t v r v' Hn Hr;
    cbn [dfs_search] in Hr; [done|].
  repeat case_match; simplify_eq; [lia|].
  revert Hr. apply explore_bound; [apply dfs_restores| |done].
  intros nb r' v'' Hnb Hv Hrec. apply IH in Hrec; [|by apply HH].
  assert (cells grid ∖ (v ∪ {[nb]}) ⊂ cells grid ∖ v) as Hsub by set_solver.
  apply subset_size in Hsub. lia.
Qed.
End dfs_facts.

(** ** The threshold loop *)

Section ida_star_facts.
Context (start goal : Coord) (grid : Grid) (heuristic : Coord → Coord → Z).

Abbreviation dfs := (dfs_search goal grid heuristic).
Abbreviation loop := (ida_loop start goal grid heuristic).

Lemma h_bound_start :
  heuristic start goal ≤ h_bound start goal grid heuristic.
Proof. apply foldr_max_init. Qed.

Lemma h_bound_cell n :
  n ∈ cells grid → heuristic n goal ≤ h_bound start goal grid heuristic.
Proof.
  intros Hn. apply foldr_max_elem.
  apply (list_elem_of_fmap_2 (λ n, heuristic n goal)). by apply elem_of_elements.
Qed.

Lemma top_bound depth t r v' :
  dfs depth start 0 t {[start]} = Some (Returns (Num (Fin r), v')) →
  t < r ≤ Z.of_nat (size (cells grid)) + h_bound start goal grid heuristic.
Proof.
  intros Hr. split; [by eapply dfs_exceeds|].
  apply (dfs_bound _ _ _ (h_bound start goal grid heuristic)) in Hr;
    [|apply h_bound_cell|apply h_bound_start].
  assert (size (cells grid ∖ {[start]}) ≤ size (cells grid))%nat
    by (apply subseteq_size; set_solver).
  lia.
Qed.

Lemma top_terminates depth t :
  (depth_bound grid ≤ depth)%nat → is_Some (dfs depth start 0 t {[start]}).
Proof.
  intros Hd. apply dfs_terminates.
  assert (size (cells grid ∖ {[start]}) ≤ size (cells grid))%nat
    by (apply subseteq_size; set_solver).
  unfold depth_bound in Hd. lia.
Qed.

Lemma ida_loop_terminates iters depth t :
  (depth_bound grid ≤ depth)%nat →
  (Z.to_nat (Z.of_nat (size (cells grid))
             + h_bound start goal grid heuristic - t) < iters)%nat →
  is_Some (loop iters depth t).
Proof.
  intros Hd. revert t.
  induction iters as [|iters IH]; intros t Ht; [lia|].
  cbn [ida_loop].
  destruct (top_terminates depth t Hd) as [o Ho]. rewrite Ho.
  destruct o as [[[|[r|]] v']|]; [done| |done|done].
  apply top_bound in Ho. apply IH. lia.
Qed.

Lemma ida_loop_spec iters depth t a :
  rectangular grid → loop iters depth t = Some a →
  (a = Returns true ∧ reachable grid start goal)
  ∨ (a = Returns false ∧ ¬ reachable grid start goal).
Proof.
  intros Hrect. revert t.
  induction iters as [|iters IH]; intros t H; cbn [ida_loop] in H; [done|].
  destruct (dfs _ _ _ _ _) as [[[[|[r|]] v']|e]|] eqn:Ho; simplify_eq; eauto.
  - left. split; [done|]. by eapply dfs_sound.
  - right. split; [done|].
    intros (p & Hp & He)%reachable_trail.
    destruct (trail_cut grid start p start Hp) as (q & Hq & Heq & Hnq & _);
      [set_solver|].
    eapply dfs_complete; [exact Ho|exact Hq| |congruence].
    intros x Hx. set_solver.
  - by apply dfs_no_raise in Ho.
Qed.

Lemma ida_star_terminates fuel :
  (fuel_bound start goal grid heuristic ≤ fuel)%nat →
  is_Some (ida_star start goal grid heuristic fuel).
Proof.
  unfold fuel_bound, iter_bound, ida_star. intros Hf.
  apply ida_loop_terminates; lia.
Qed.

(** On a rectangular grid, enough fuel gives the answer, and the answer
    is whether the goal is in reach. *)
Lemma ida_star_decides :
  rectangular grid →
  ∃ b, (b = true ↔ reachable grid start goal)
     ∧ (∀ fuel, (fuel_bound start goal grid heuristic ≤ fuel)%nat →
                ida_star start goal grid heuristic fuel = Some (Returns b))
     ∧ (∀ fuel a, ida_star start goal grid heuristic fuel = Some a →
                  a = Returns b).
Proof.
  intros Hrect.
  destruct (ida_star_terminates _ (le_n _)) as [a Ha].
  assert (∀ fuel a' b, ida_star start goal grid heuristic fuel = Some a' →
            (b = true ↔ reachable grid start goal) → a' = Returns b) as Huniq.
  { intros fuel a' b H Hb. apply ida_loop_spec in H as [[-> Hr]|[-> Hr]]; [| |done].
    - f_equal. symmetry. by apply Hb.
    - f_equal. destruct b; [|done]. exfalso. by apply Hr, Hb. }
  pose proof Ha as Ha'.
  apply ida_loop_spec in Ha' as [[-> Hr]|[-> Hr]]; [| |done].
  - exists true. split; [done|]. split.
    + intros fuel [a' Ha']%ida_star_terminates. rewrite Ha'. f_equal.
      by eapply Huniq.
    + intros fuel a' Ha'. by eapply Huniq.
  - exists false. split; [split; [done|by intros ?%Hr]|]. split.
    + intros fuel [a' Ha']%ida_star_terminates. rewrite Ha'. f_equal.
      eapply Huniq; [done|]. split; [done|by intros ?%Hr].
    + intros fuel a' Ha'. eapply Huniq; [done|]. split; [done|by intros ?%Hr].
Qed.
End ida_star_facts.

(** ** Paths of the output contract and moves of the search *)

Lemma adjacent_move a b : adjacent a b ↔ ∃ d, d ∈ directions ∧ b = move a d.
Proof.
  unfold adjacent, move, directions. destruct a as [r c], b as [r' c']. simpl.
  split.
  - intros H.
    assert ((r' = r ∧ c' = c + 1) ∨ (r' = r + 1 ∧ c' = c)
            ∨ (r' = r ∧ c' = c - 1) ∨ (r' = r - 1 ∧ c' = c))
      as [[-> ->]|[[-> ->]|[[-> ->]|[-> ->]]]] by lia.
    + exists (0, 1). split; [set_solver|]. simpl. f_equal; lia.
    + exists (1, 0). split; [set_solver|]. simpl. f_equal; lia.
    + exists (0, -1). split; [set_solver|]. simpl. f_equal; lia.
    + exists (-1, 0). split; [set_solver|]. simpl. f_equal; lia.
  - intros (d & Hd & Heq).
    rewrite !elem_of_cons, elem_of_nil in Hd.
    destruct Hd as [->|[->|[->|[->|[]]]]]; simpl in Heq; simplify_eq; lia.
Qed.

Lemma free_path_trail grid s p :
  Forall (free grid) (s :: p) → connected_cells (s :: p) →
  trail grid s p ∧ last (s :: p) = Some (endpoint s p).
Proof.
  revert s. induction p as [|b p IH]; intros s Hf Hc; [done|].
  apply Forall_cons in Hf as [Hs Hf]. destruct Hc as [Hadj Hc].
  destruct (IH b Hf Hc) as [Ht Hl]. split.
  - simpl. split; [|done]. split; [by apply adjacent_move|].
    by apply Forall_cons in Hf as [? _].
  - by rewrite last_cons, Hl.
Qed.

Lemma trail_free_path grid s p :
  free grid s → trail grid s p →
  Forall (free grid) (s :: p) ∧ connected_cells (s :: p)
  ∧ last (s :: p) = Some (endpoint s p).
Proof.
  revert s. induction p as [|b p IH]; intros s Hs Ht.
  - repeat split. by apply Forall_singleton.
  - destruct Ht as [[Hm Hb] Ht]. destruct (IH b Hb Ht) as (Hf & Hc & Hl).
    split; [by apply Forall_cons|]. split.
    + split; [by apply adjacent_move|done].
    + by rewrite last_cons, Hl.
Qed.

(** From a free start, the paths of the contract are the walks of the
    search. *)
Lemma path_exists_reachable grid s g :
  free grid s → path_exists grid s g ↔ reachable grid s g.
Proof.
  intros Hs. rewrite reachable_trail. split.
  - intros (p & Hh & Hl & Hf & Hc). destruct p as [|s' p]; simplify_eq/=.
    destruct (free_path_trail grid s p Hf Hc) as [Ht Hl'].
    exists p. split; [done|]. rewrite Hl in Hl'. by simplify_eq.
  - intros (p & Ht & <-).
    destruct (trail_free_path grid s p Hs Ht) as (Hf & Hc & Hl).
    by exists (s :: p).
Qed.

(** ** The occupancy of the start cell is never looked at *)

Section start_cell.
Context (start goal : Coord) (grid grid' : Grid) (heuristic : Coord → Coord → Z).
Hypothesis Hdiff : differ_only_at start grid grid'.

Lemma differ_in_bounds n : in_bounds grid n = in_bounds grid' n.
Proof.
  destruct Hdiff as [Hshape _]. unfold in_bounds, len.
  assert (length grid = length grid') as ->.
  { by rewrite <- (length_fmap length grid), Hshape, length_fmap. }
  assert (row0_len grid = row0_len grid') as ->; [|done].
  destruct grid, grid'; simplify_eq/=; [done|]. unfold len. congruence.
Qed.

Lemma differ_cell_start :
  in_bounds grid start = true →
  is_Some (cell grid start) ↔ is_Some (cell grid' start).
Proof.
  intros [? ?]%in_bounds_spec.
  destruct Hdiff as [Hshape _]. rewrite !cell_nonneg by lia.
  pose proof (f_equal (λ l, l !! Z.to_nat start.1) Hshape) as Hrow.
  simpl in Hrow. rewrite !list_lookup_fmap in Hrow.
  destruct (grid !! _) as [row|], (grid' !! _) as [row'|]; simplify_eq/=;
    [|by split; intros [? ?]].
  rewrite !lookup_lt_is_Some. lia.
Qed.

Lemma explore_start_cell rec rec' node g t dirs m v :
  restores rec →
  (∀ n g t v, start ∈ v → rec n g t v = rec' n g t v) →
  start ∈ v →
  explore grid rec node g t dirs m v = explore grid' rec' node g t dirs m v.
Proof.
  intros Hrec Heq Hv. revert m.
  induction dirs as [|d dirs IH]; intros m; cbn [explore]; [done|].
  rewrite <- differ_in_bounds.
  destruct (in_bounds grid _) eqn:Hin; cbn [negb]; [|done].
  destruct (decide (move node d = start)) as [Hst|Hne].
  - rewrite Hst in *. pose proof (differ_cell_start Hin) as Hs.
    destruct (cell grid start) as [x|], (cell grid' start) as [x'|];
      try done.
    + destruct (x =? 1), (x' =? 1); by rewrite ?decide_True.
    + by destruct Hs as [[? ?] _].
    + by destruct Hs as [_ [? ?]].
  - destruct Hdiff as [_ <-]; [|done..].
    destruct (cell _ _); [|done]. destruct (_ =? 1); [done|].
    destruct (decide _); [done|].
    rewrite <- Heq by set_solver.
    destruct (rec _ _ _ _) as [[[[|c] v']|]|] eqn:Hr; try done.
    apply Hrec in Hr as ->. destruct (decide _); [|done].
    replace ((v ∪ {[move node d]}) ∖ {[move node d]}) with v by set_solver.
    apply IH.
Qed.

Lemma dfs_start_cell fuel node g t v :
  start ∈ v →
  dfs_search goal grid heuristic fuel node g t v
  = dfs_search goal grid' heuristic fuel node g t v.
Proof.
  revert node g t v.
  induction fuel as [|fuel IH]; intros n g t v Hv; [done|].
  cbn [dfs_search]. destruct (_ >? _); [done|]. destruct (decide _); [done|].
  apply explore_start_cell; [apply dfs_restores|exact IH|done].
Qed.

Lemma ida_loop_start_cell iters depth t :
  ida_loop start goal grid heuristic iters depth t
  = ida_loop start goal grid' heuristic iters depth t.
Proof.
  revert t. induction iters as [|iters IH]; intros t; [done|].
  cbn [ida_loop]. rewrite <- dfs_start_cell by set_solver.
  destruct (dfs_search _ _ _ _ _ _ _ _) as [[[[|[r|]] v']|]|]; done.
Qed.
End start_cell.

(** ** Reversing a walk between free cells *)

Lemma directions_opposite d : d ∈ directions → (- d.1, - d.2) ∈ directions.
Proof.
  unfold directions. rewrite !elem_of_cons, elem_of_nil.
  intros [->|[->|[->|[->|[]]]]]; simpl; set_solver.
Qed.

Lemma step_reverse grid a b : free grid a → step grid a b → step grid b a.
Proof.
  intros Ha [(d & Hd & ->) _]. split; [|done].
  exists (- d.1, - d.2). split; [by apply directions_opposite|].
  unfold move. destruct a. simpl. f_equal; lia.
Qed.

Lemma reachable_reverse grid s g :
  free grid s → reachable grid s g → reachable grid g s.
Proof.
  intros Hs Hr. induction Hr as [a|a c b Hstep _ IH]; [apply rtc_refl|].
  eapply rtc_r; [apply IH, Hstep|]. by apply step_reverse.
Qed.

Lemma reachable_blocked grid s g :
  blocked grid g → reachable grid s g → s = g.
Proof.
  intros Hg Hr. apply rtc_inv_r in Hr as [|(c & _ & [_ (_ & x & Hx & Hx1)])];
    [done|].
  unfold blocked in Hg. congruence.
Qed.

(** ** A node without eligible neighbors *)

Lemma explore_ineligible grid rec node g t dirs m v :
  (∀ d, d ∈ dirs → ineligible grid v (move node d)) →
  explore grid rec node g t dirs m v = Some (Returns (Num m, v)).
Proof.
  induction dirs as [|d dirs IH]; intros Hno; cbn [explore]; [done|].
  assert (∀ d, d ∈ dirs → ineligible grid v (move node d)) by set_solver.
  destruct (in_bounds _ _) eqn:Hin; cbn [negb]; [|eauto].
  destruct (Hno d) as [?|[Hx|[[x Hx] Hv]]]; [set_solver|congruence| |];
    rewrite Hx.
  - eauto.
  - destruct (_ =? 1); [eauto|]. rewrite decide_True by done. eauto.
Qed.

Lemma ida_loop_false_inv s goal grid h iters depth t :
  ida_loop s goal grid h iters depth t = Some (Returns false) →
  ∃ t' v', t ≤ t' ∧ dfs_search goal grid h depth s 0 t' {[s]}
                     = Some (Returns (Num Inf, v')).
Proof.
  revert t. induction iters as [|iters IH]; intros t H; [done|].
  cbn [ida_loop] in H.
  destruct (dfs_search _ _ _ _ _ _ _ _) as [[[[|[r|]] v']|]|] eqn:Ho;
    simplify_eq.
  - apply IH in H as (t' & v'' & Ht & H). apply dfs_exceeds in Ho.
    exists t', v''. split; [lia|done].
  - exists t, v'. split; [lia|done].
Qed.

(** ** The visited set and the recursion path *)

(** The loop over [ds ++ ds'] is the loop over [ds], followed, unless it
    returned FOUND or raised, by the loop over [ds'] on the state it left. *)
Lemma explore_app grid rec node g t ds ds' m v :
  explore grid rec node g t (ds ++ ds') m v =
  match explore grid rec node g t ds m v with
  | Some (Returns (Num m', v')) => explore grid rec node g t ds' m' v'
  | o => o
  end.
Proof.
  revert m v. induction ds as [|d ds IH]; intros m v; [done|].
  cbn [app explore].
  destruct (negb _); [done|]. destruct (cell _ _); [|done].
  destruct (_ =? 1); [done|]. destruct (decide _); [done|].
  destruct (rec _ _ _ _) as [[[[|c] v']|]|]; try done.
  destruct (decide _); done.
Qed.

(** An [active] call is a call the code makes: the loop of its caller,
    having reached the direction [d], is at the recursive call. *)
Lemma explore_reaches_call grid rec node g t ds d ds' m v1 v x :
  explore grid rec node g t ds Inf v = Some (Returns (Num m, v1)) →
  in_bounds grid (move node d) = true →
  cell grid (move node d) = Some x → x ≠ 1 → move node d ∉ v1 →
  explore grid rec node g t (ds ++ d :: ds') Inf v =
  match rec (move node d) (g + 1) t (v1 ∪ {[move node d]}) with
  | None => None
  | Some (Raises e) => Some (Raises e)
  | Some (Returns (FOUND, v')) => Some (Returns (FOUND, v'))
  | Some (Returns (Num r, v')) =>
    if decide (move node d ∈ v') then
      explore grid rec node g t ds' (num_min m r) (v' ∖ {[move node d]})
    else Some (Raises KeyError)
  end.
Proof.
  intros Hds Hin Hx Hx1 Hv. rewrite explore_app, Hds. cbn [explore].
  rewrite Hin, Hx. cbn [negb]. destruct (Z.eqb_spec x 1); [done|].
  by rewrite decide_False.
Qed.

Lemma active_visited start goal grid h t path c :
  active start goal grid h t path c →
  call_visited c = list_to_set path ∧ NoDup path
  ∧ head path = Some (call_node c) ∧ last path = Some start
  ∧ call_cost c = len path - 1.
Proof.
  induction 1 as [depth|path c c' _ IH Hsub].
  - repeat split; [set_solver|apply NoDup_singleton].
  - destruct Hsub as [fuel node g v ds d ds' m v1 x Hf Hne Hd He Hin Hx Hx1 Hv].
    simpl in *. destruct IH as (-> & Hnd & Hh & Hl & ->).
    apply explore_restores in He as ->; [|apply dfs_restores].
    repeat split.
    + set_solver.
    + apply NoDup_cons. split; [set_solver|done].
    + destruct path; [done|]. by rewrite last_cons_cons.
    + unfold len. simpl length. lia.
Qed.

Lemma explore_found_keeps grid rec node g t dirs m v v' :
  restores rec →
  (∀ n g t v v', rec n g t v = Some (Returns (FOUND, v')) → v ⊆ v') →
  explore grid rec node g t dirs m v = Some (Returns (FOUND, v')) → v ⊆ v'.
Proof.
  intros Hrec Hsub. revert m.
  induction dirs as [|d dirs IH]; intros m H; cbn [explore] in H; [done|].
  repeat case_match; simplify_eq; eauto.
  - match goal with
    | Hr : rec _ _ _ _ = Some (Returns (FOUND, _)) |- _ => apply Hsub in Hr
    end. set_solver.
  - match goal with
    | Hr : rec _ _ _ _ = Some (Returns (Num ?c, _)) |- _ =>
        apply Hrec in Hr; subst
    end.
    eapply IH.
    match goal with
    | He : explore _ _ _ _ _ _ ?m' ?w = _ |- explore _ _ _ _ _ _ _ ?w' = _ =>
        replace w' with w by set_solver; exact He
    end.
Qed.

Lemma dfs_found_keeps goal grid h fuel node g t v v' :
  dfs_search goal grid h fuel node g t v = Some (Returns (FOUND, v')) → v ⊆ v'.
Proof.
  revert node g t v v'.
  induction fuel as [|fuel IH]; intros n g t v v' H; cbn [dfs_search] in H;
    [done|].
  repeat case_match; simplify_eq; [done|].
  eapply explore_found_keeps; [apply dfs_restores|exact IH|exact H].
Qed.

(** ** The bound a call returns is the least f-cost above the threshold *)

Lemma num_le_refl a : num_le a a.
Proof. destruct a; simpl; [lia|done]. Qed.

Lemma num_le_trans a b c : num_le a b → num_le b c → num_le a c.
Proof. destruct a, b, c; simpl; try done; lia. Qed.

Lemma num_min_le_l a b : num_le (num_min a b) a.
Proof.
  unfold num_min. destruct a as [x|], b as [y|]; simpl; try done;
    try destruct (Z.ltb_spec y x); simpl; lia.
Qed.

Lemma num_min_le_r a b : num_le (num_min a b) b.
Proof.
  unfold num_min. destruct a as [x|], b as [y|]; simpl; try done;
    try destruct (Z.ltb_spec y x); simpl; lia.
Qed.

Lemma explore_le_acc grid rec node g t dirs m v c v' :
  explore grid rec node g t dirs m v = Some (Returns (Num c, v')) →
  num_le c m.
Proof.
  revert m v. induction dirs as [|d dirs IH]; intros m v H; cbn [explore] in H.
  - simplify_eq. apply num_le_refl.
  - repeat case_match; simplify_eq; eauto.
    apply IH in H. eapply num_le_trans; [exact H|apply num_min_le_l].
Qed.

(** A call reached by the loop returned a number, and the loop returns no
    more than that number. *)
Lemma explore_call_le grid rec node g t ds d ds' m1 v1 v x c v' :
  explore grid rec node g t (ds ++ d :: ds') Inf v
    = Some (Returns (Num c, v')) →
  explore grid rec node g t ds Inf v = Some (Returns (Num m1, v1)) →
  in_bounds grid (move node d) = true →
  cell grid (move node d) = Some x → x ≠ 1 → move node d ∉ v1 →
  ∃ r1 v2, rec (move node d) (g + 1) t (v1 ∪ {[move node d]})
             = Some (Returns (Num r1, v2))
           ∧ num_le c r1.
Proof.
  intros H Hds Hin Hx Hx1 Hv.
  rewrite (explore_reaches_call _ _ _ _ _ _ _ _ _ _ _ _ Hds Hin Hx Hx1 Hv) in H.
  destruct (rec _ _ _ _) as [[[[|r1] v2]|]|]; try done.
  destruct (decide _); [|done]. exists r1, v2. split; [done|].
  apply explore_le_acc in H. eapply num_le_trans; [exact H|apply num_min_le_r].
Qed.

(** The number the loop returns is its initial [min_exceed] or the number
    returned by one of the calls it made. *)
Lemma explore_result_origin grid rec node g t dirs m v c v' :
  explore grid rec node g t dirs m v = Some (Returns (Num c, v')) →
  c = m
  ∨ ∃ ds d ds' m1 v1 x v2,
      dirs = ds ++ d :: ds'
      ∧ explore grid rec node g t ds m v = Some (Returns (Num m1, v1))
      ∧ in_bounds grid (move node d) = true
      ∧ cell grid (move node d) = Some x ∧ x ≠ 1 ∧ (move node d ∉ v1)
      ∧ rec (move node d) (g + 1) t (v1 ∪ {[move node d]})
        = Some (Returns (Num c, v2)).
Proof.
  revert m v. induction dirs as [|d0 dirs IH]; intros m v H.
  { cbn [explore] in H. simplify_eq. by left. }
  assert (∀ m0 v0,
    (∀ ds, explore grid rec node g t (d0 :: ds) m v
           = explore grid rec node g t ds m0 v0) →
    explore grid rec node g t dirs m0 v0 = Some (Returns (Num c, v')) →
    c = m0
    ∨ ∃ ds d ds' m1 v1 x v2,
        d0 :: dirs = ds ++ d :: ds'
        ∧ explore grid rec node g t ds m v = Some (Returns (Num m1, v1))
        ∧ in_bounds grid (move node d) = true
        ∧ cell grid (move node d) = Some x ∧ x ≠ 1 ∧ (move node d ∉ v1)
        ∧ rec (move node d) (g + 1) t (v1 ∪ {[move node d]})
          = Some (Returns (Num c, v2))) as Hnext.
  { intros m0 v0 Hpre H0.
    destruct (IH _ _ H0) as [->|(ds & d & ds' & m1 & v1 & x & v2 & -> & Hds & ?)];
      [by left|].
    right. exists (d0 :: ds), d, ds', m1, v1, x, v2.
    split; [done|]. by rewrite Hpre. }
  cbn [explore] in H.
  destruct (in_bounds grid (move node d0)) eqn:Hin; cbn [negb] in H.
  2: { apply (Hnext m v); [|done].
       intros ds. cbn [explore]. by rewrite Hin. }
  destruct (cell grid (move node d0)) as [x|] eqn:Hx; [|done].
  destruct (Z.eqb_spec x 1) as [->|Hx1].
  { apply (Hnext m v); [|done].
    intros ds. cbn [explore]. by rewrite Hin, Hx. }
  destruct (decide (move node d0 ∈ v)) as [Hv|Hv].
  { apply (Hnext m v); [|done].
    intros ds. cbn [explore]. rewrite Hin, Hx. cbn [negb].
    destruct (Z.eqb_spec x 1); [done|]. by rewrite decide_True. }
  destruct (rec _ _ _ _) as [[[[|r] v2]|]|] eqn:Hr; try done.
  destruct (decide (move node d0 ∈ v2)) as [Hv2|]; [|done].
  destruct (Hnext (num_min m r) (v2 ∖ {[move node d0]})) as [->|Hright];
    [|done| |by right].
  - intros ds. cbn [explore]. rewrite Hin, Hx. cbn [negb].
    destruct (Z.eqb_spec x 1); [done|]. rewrite decide_False by done.
    rewrite Hr. by rewrite decide_True.
  - destruct (num_min_cases m r) as [->| ->]; [by left|]. right.
    exists [], d0, dirs, m, v, x, v2. by split_and!.
Qed.

Lemma dfs_min_lower goal grid h t fuel node g v c v' c' :
  dfs_search goal grid h fuel node g t v = Some (Returns (Num c, v')) →
  rtc (subcall goal grid h t) (Call fuel node g v) c' →
  t < f_cost goal h c' →
  num_le c (Fin (f_cost goal h c')).
Proof.
  revert node g v c v'.
  induction fuel as [|fuel IH]; intros node g v c v' H Hrtc Hf; [done|].
  apply rtc_inv in Hrtc as [<-|(c1 & Hsub & Hrtc)].
  - unfold f_cost in *. cbn [dfs_search call_cost call_node] in *.
    destruct (Z.gtb_spec (g + h node goal) t); [|lia].
    simplify_eq. simpl. lia.
  - inversion Hsub as [? ? ? ? ds d ds' m1 v1 x Hle Hne Hd Hds Hin Hx Hx1 Hv];
      subst.
    cbn [dfs_search] in H. rewrite Hle, decide_False in H by done.
    rewrite Hd in H.
    destruct (explore_call_le _ _ _ _ _ _ _ _ _ _ _ _ _ _ H Hds Hin Hx Hx1 Hv)
      as (r1 & v2 & Hr1 & Hcr1).
    eapply num_le_trans; [exact Hcr1|]. by eapply IH.
Qed.

Lemma dfs_min_attained goal grid h t fuel node g v r v' :
  dfs_search goal grid h fuel node g t v = Some (Returns (Num (Fin r), v')) →
  ∃ c', rtc (subcall goal grid h t) (Call fuel node g v) c'
        ∧ f_cost goal h c' = r.
Proof.
  revert node g v v'.
  induction fuel as [|fuel IH]; intros node g v v' H; [done|].
  cbn [dfs_search] in H.
  destruct (g + h node goal >? t) eqn:Hf.
  { simplify_eq. eexists. split; [apply rtc_refl|done]. }
  destruct (decide (node = goal)) as [|Hne]; [done|].
  apply explore_result_origin in H
    as [?|(ds & d & ds' & m1 & v1 & x & v2 & Hd & Hds & Hin & Hx & Hx1 & Hv & Hr)];
    [done|].
  destruct (IH _ _ _ _ Hr) as (c' & Hrtc & Hc').
  exists c'. split; [|done]. eapply rtc_l; [|exact Hrtc].
  by eapply subcall_neighbor.
Qed.

(** ** The reference search *)

Lemma elem_of_heappush heap x y :
  y ∈ AStar.heappush heap x ↔ y = x ∨ y ∈ heap.
Proof.
  induction heap as [|z heap IH]; simpl; [set_solver|].
  destruct (AStar.item_ltb x z); set_solver.
Qed.

Lemma length_heappush heap x :
  length (AStar.heappush heap x) = S (length heap).
Proof.
  induction heap as [|z heap IH]; simpl; [done|].
  destruct (AStar.item_ltb x z); simpl; lia.
Qed.

Lemma item_ltb_spec (a b : AStar.item) :
  AStar.item_ltb a b = true ↔
  a.1.1 < b.1.1
  ∨ (a.1.1 = b.1.1
     ∧ (a.1.2 < b.1.2
        ∨ (a.1.2 = b.1.2
           ∧ (a.2.1 < b.2.1 ∨ (a.2.1 = b.2.1 ∧ a.2.2 < b.2.2))))).
Proof.
  destruct a as [[fa ga] [ra ca]], b as [[fb gb] [rb cb]]. simpl.
  rewrite !orb_true_iff, !andb_true_iff, !orb_true_iff, !andb_true_iff.
  rewrite !orb_true_iff, !andb_true_iff, !Z.ltb_lt, !Z.eqb_eq. tauto.
Qed.

Lemma item_ltb_le a b : AStar.item_ltb a b = true → item_le a b.
Proof.
  unfold item_le. intros H%item_ltb_spec.
  destruct (AStar.item_ltb b a) eqn:Hba; [|done].
  apply item_ltb_spec in Hba. lia.
Qed.

Lemma item_le_trans a b c : item_le a b → item_le b c → item_le a c.
Proof.
  unfold item_le. intros Hab Hbc.
  destruct (AStar.item_ltb c a) eqn:Hca; [|done].
  apply item_ltb_spec in Hca.
  assert (¬ (AStar.item_ltb b a = true)) as Hab' by (rewrite Hab; done).
  assert (¬ (AStar.item_ltb c b = true)) as Hbc' by (rewrite Hbc; done).
  rewrite item_ltb_spec in Hab', Hbc'. lia.
Qed.

(** [heappush] keeps the heap in order, so that [heappop] returns a least
    item. *)
Lemma heappush_sorted heap x :
  StronglySorted item_le heap → StronglySorted item_le (AStar.heappush heap x).
Proof.
  induction 1 as [|y heap Hs IH Hy]; simpl.
  - by repeat constructor.
  - destruct (AStar.item_ltb x y) eqn:Hxy.
    + constructor; [by constructor|].
      constructor; [by apply item_ltb_le|].
      eapply Forall_impl; [exact Hy|]. intros z Hz.
      eapply item_le_trans; [by apply item_ltb_le|done].
    + constructor; [done|]. apply Forall_forall.
      intros z [->|Hz]%elem_of_heappush; [done|].
      by apply (proj1 (Forall_forall _ _) Hy).
Qed.

Lemma heappop_least heap x rest y :
  StronglySorted item_le heap → AStar.heappop heap = Some (x, rest) →
  y ∈ heap → item_le x y.
Proof.
  intros Hs Hpop Hy. destruct heap as [|z heap]; simplify_eq/=.
  apply StronglySorted_inv in Hs as [_ Hall].
  apply elem_of_cons in Hy as [->|Hy].
  - unfold item_le. destruct (AStar.item_ltb x x) eqn:Hxx; [|done].
    apply item_ltb_spec in Hxx. lia.
  - by apply (proj1 (Forall_forall _ _) Hall).
Qed.

Lemma sum_list_with_le (w w' : Coord → nat) l :
  (∀ n, n ∈ l → (w' n ≤ w n)%nat) →
  (sum_list_with w' l ≤ sum_list_with w l)%nat.
Proof.
  induction l as [|a l IH]; intros Hle; simpl; [done|].
  assert (w' a ≤ w a)%nat by (apply Hle; set_solver).
  assert (sum_list_with w' l ≤ sum_list_with w l)%nat
    by (apply IH; intros; apply Hle; set_solver).
  lia.
Qed.

Lemma sum_list_with_lower (w w' : Coord → nat) l n0 :
  n0 ∈ l → (w' n0 < w n0)%nat → (∀ n, n ≠ n0 → w' n = w n) →
  (sum_list_with w' l < sum_list_with w l)%nat.
Proof.
  intros Hin Hlt Heq.
  assert (∀ n, (w' n ≤ w n)%nat) as Hle.
  { intros n. destruct (decide (n = n0)) as [->|Hne]; [lia|].
    rewrite Heq by done. lia. }
  induction l as [|a l IH]; [by apply elem_of_nil in Hin|]. simpl.
  destruct (decide (a = n0)) as [->|Hne].
  - pose proof (sum_list_with_le w w' l (λ n _, Hle n)). lia.
  - apply elem_of_cons in Hin as [->|Hin]; [done|].
    specialize (IH Hin). rewrite (Heq a) by done. lia.
Qed.

Lemma sum_list_with_bound (w : Coord → nat) l K :
  (∀ n, n ∈ l → (w n ≤ K)%nat) → (sum_list_with w l ≤ length l * K)%nat.
Proof.
  induction l as [|a l IH]; intros Hle; simpl; [done|].
  assert (w a ≤ K)%nat by (apply Hle; set_solver).
  assert (sum_list_with w l ≤ length l * K)%nat
    by (apply IH; intros; apply Hle; set_solver).
  lia.
Qed.

Section astar_facts.
Context (self : AStar.t) (start goal : Coord) (grid : Grid).
Hypothesis Hrect : rectangular grid.

Abbreviation inv := (astar_inv start goal grid).
Abbreviation measure := (astar_measure start grid).
Abbreviation scored st := (dom (AStar.g_score st)).

Lemma reachable_astar_cells n :
  reachable grid start n → n ∈ astar_cells start grid.
Proof.
  unfold astar_cells. intros [->|(c & _ & [_ Hf])]%rtc_inv_r; [set_solver|].
  apply free_in_bounds in Hf. set_solver.
Qed.

(** The two ways the body of the [for] loop ends: it leaves the state as
    it is, the neighbor being scored already if it is free; or the
    neighbor is free and gets the score of [current] plus one, which it
    did not have or which is smaller than its score. *)
Lemma relax_neighbor_cases current d st :
  current ∈ scored st →
  let nb := move current d in
  (AStar.relax_neighbor self goal grid current d st = Returns st
   ∧ (free grid nb → nb ∈ scored st))
  ∨ (∃ gc st',
       AStar.g_score st !! current = Some gc
       ∧ free grid nb
       ∧ (AStar.g_score st !! nb = None
          ∨ ∃ gn, AStar.g_score st !! nb = Some gn ∧ gc + 1 < gn)
       ∧ AStar.relax_neighbor self goal grid current d st = Returns st'
       ∧ AStar.g_score st' = <[nb := gc + 1]> (AStar.g_score st)
       ∧ AStar.visited st' = AStar.visited st
       ∧ AStar.open_set st' =
           if decide (nb ∈ AStar.visited st) then AStar.open_set st
           else AStar.heappush (AStar.open_set st)
                  (gc + 1 + AStar.heuristic self nb goal, gc + 1, nb)).
Proof.
  intros [gc Hgc]%elem_of_dom nb. unfold AStar.relax_neighbor. fold nb.
  destruct (in_bounds grid nb) eqn:Hin; cbn [negb];
    [|left; split; [done|]; intros [? _]; congruence].
  destruct (cell_in_bounds grid nb Hrect Hin) as [x Hx]. rewrite Hx.
  destruct (Z.eqb_spec x 1) as [->|Hx1];
    [left; split; [done|]; intros (_ & y & ? & ?); congruence|].
  rewrite Hgc.
  assert (free grid nb) as Hfree by (split; eauto).
  destruct (AStar.g_score st !! nb) as [gn|] eqn:Hnb.
  - destruct (Z.ltb_spec (gc + 1) gn).
    + right. eexists gc, _. repeat split; eauto.
    + left. split; [done|]. intros _. apply elem_of_dom. eauto.
  - right. eexists gc, _. repeat split; eauto.
Qed.

Lemma relax_neighbor_inv open current d st :
  inv open st → current ∈ scored st → d ∈ directions →
  ∃ st', AStar.relax_neighbor self goal grid current d st = Returns st'
         ∧ inv open st'
         ∧ scored st ⊆ scored st'
         ∧ AStar.visited st' = AStar.visited st
         ∧ (free grid (move current d) → move current d ∈ scored st')
         ∧ (measure st' ≤ measure st)%nat.
Proof.
  intros Hinv Hcur Hd.
  destruct (relax_neighbor_cases current d st Hcur)
    as [[Heq Hfree]|(gc & st' & Hgc & Hfree & Hnb & Heq & Hg & Hv & Ho)].
  { exists st. by split_and!. }
  set (nb := move current d) in *.
  assert (scored st' = {[nb]} ∪ scored st) as Hdom
    by (rewrite Hg; apply dom_insert_L).
  assert (reachable grid start nb) as Hreach.
  { eapply rtc_r; [by apply (inv_reach Hinv)|]. by apply move_step. }
  pose proof (inv_range Hinv _ _ Hgc) as Hgcr.
  assert (inv open st') as Hinv'.
  { split.
    - rewrite Hdom. apply elem_of_union_r, (inv_start Hinv).
    - intros f g n. rewrite Ho, Hdom. destruct (decide _).
      + intros ?%(inv_open Hinv). set_solver.
      + intros [?|?%(inv_open Hinv)]%elem_of_heappush; [simplify_eq|];
          set_solver.
    - intros n. rewrite Hdom.
      intros [->%elem_of_singleton|?]%elem_of_union;
        [done|by apply (inv_reach Hinv)].
    - rewrite Hv, Hdom. pose proof (inv_visited Hinv). set_solver.
    - intros n m. rewrite Hv, Hdom. intros Hn Hno Hs.
      apply elem_of_union_r. by eapply (inv_closed Hinv).
    - intros n. rewrite Hdom, Hv, Ho.
      intros [->%elem_of_singleton|Hn]%elem_of_union.
      + destruct (decide _); [by left|]. right.
        eexists _, _. apply elem_of_heappush. by left.
      + apply (inv_pending Hinv) in Hn as [?|(f & g & ?)]; [by left|]. right.
        exists f, g. destruct (decide _); [done|].
        apply elem_of_heappush. by right.
    - rewrite Hv. apply (inv_goal Hinv).
    - intros n g. rewrite Hdom, Hg.
      destruct (decide (n = nb)) as [->|Hne].
      + rewrite lookup_insert_eq. intros [= <-].
        destruct Hnb as [Hnone|(gn & Hgn & Hlt)].
        * rewrite size_union by (apply not_elem_of_dom in Hnone; set_solver).
          rewrite size_singleton. lia.
        * pose proof (inv_range Hinv _ _ Hgn).
          replace ({[nb]} ∪ scored st) with (scored st); [lia|].
          assert (nb ∈ scored st) by (apply elem_of_dom; eauto). set_solver.
      + rewrite lookup_insert_ne by done. intros Hn.
        pose proof (inv_range Hinv _ _ Hn).
        assert (size (scored st) ≤ size ({[nb]} ∪ scored st))%nat
          by (apply subseteq_size; set_solver).
        lia.
    - rewrite Ho. destruct (decide _); [apply (inv_sorted Hinv)|].
      apply heappush_sorted, (inv_sorted Hinv). }
  exists st'. split_and!; try done.
  - rewrite Hdom. set_solver.
  - intros _. rewrite Hdom. set_solver.
  - unfold astar_measure.
    assert (length (AStar.open_set st') ≤ S (length (AStar.open_set st)))%nat.
    { rewrite Ho. destruct (decide _); [lia|]. by rewrite length_heappush. }
    assert (sum_list_with (astar_weight start grid st')
              (elements (astar_cells start grid))
            < sum_list_with (astar_weight start grid st)
                (elements (astar_cells start grid)))%nat; [|lia].
    apply (sum_list_with_lower _ _ _ nb).
    + by apply elem_of_elements, reachable_astar_cells.
    + unfold astar_weight. rewrite Hg, lookup_insert_eq.
      destruct Hnb as [->|(gn & -> & Hlt)]; [|lia].
      assert (AStar.g_score st' !! nb = Some (gc + 1)) as Hlk
        by (rewrite Hg; apply lookup_insert_eq).
      pose proof (inv_range Hinv' _ _ Hlk) as Hr.
      assert (size (scored st') ≤ size (astar_cells start grid))%nat.
      { apply subseteq_size. intros n Hn.
        by apply reachable_astar_cells, (inv_reach Hinv'). }
      lia.
    + intros n Hne. unfold astar_weight.
      by rewrite Hg, lookup_insert_ne.
Qed.
Lemma relax_inv open current dirs st :
  inv open st → current ∈ scored st → dirs ⊆ directions →
  ∃ st', AStar.relax self goal grid current dirs st = Returns st'
         ∧ inv open st'
         ∧ scored st ⊆ scored st'
         ∧ AStar.visited st' = AStar.visited st
         ∧ (∀ d, d ∈ dirs → free grid (move current d) →
                 move current d ∈ scored st')
         ∧ (measure st' ≤ measure st)%nat.
Proof.
  revert st. induction dirs as [|d dirs IH]; intros st Hinv Hcur Hdirs.
  { exists st. split_and!; try done. by intros d ?%elem_of_nil. }
  destruct (relax_neighbor_inv open current d st Hinv Hcur)
    as (st1 & Heq1 & Hinv1 & Hdom1 & Hv1 & Hd1 & Hm1); [set_solver|].
  destruct (IH st1 Hinv1) as (st' & Heq & Hinv' & Hdom & Hv & Hds & Hm);
    [set_solver..|].
  exists st'. cbn [AStar.relax]. rewrite Heq1. split_and!; try done.
  - set_solver.
  - congruence.
  - intros d' [->|Hd']%elem_of_cons Hfree; [|by apply Hds].
    by apply Hdom, Hd1.
  - lia.
Qed.

(** When the open set is empty, every cell in reach has been visited. *)
Lemma inv_exhausted st n :
  inv ∅ st → AStar.open_set st = [] → reachable grid start n →
  n ∈ AStar.visited st.
Proof.
  intros Hinv Hopen Hr.
  assert (∀ m, m ∈ scored st → m ∈ AStar.visited st) as Hall.
  { intros m [?|(f & g & Hin)]%(inv_pending Hinv); [done|].
    rewrite Hopen in Hin. by apply elem_of_nil in Hin. }
  apply Hall. revert n Hr. apply (rtc_ind_r (λ n, n ∈ scored st)).
  - apply (inv_start Hinv).
  - intros b c _ Hs IH.
    eapply (inv_closed Hinv); [apply Hall, IH|set_solver|done].
Qed.

(** One iteration of the [while] loop that pops a node other than the
    goal: the [for] loop ends normally, the invariant holds again and the
    measure has decreased. *)
Lemma search_step st f g current rest :
  inv ∅ st → AStar.open_set st = (f, g, current) :: rest → current ≠ goal →
  ∃ st', AStar.relax self goal grid current directions
           {| AStar.open_set := rest;
              AStar.came_from := AStar.came_from st;
              AStar.g_score := AStar.g_score st;
              AStar.f_score := AStar.f_score st;
              AStar.visited := AStar.visited st ∪ {[current]};
              AStar.expanded := AStar.expanded st + 1 |}
         = Returns st'
         ∧ inv ∅ st' ∧ (measure st' < measure st)%nat.
Proof.
  intros Hinv Hopen Hne.
  assert (current ∈ scored st) as Hcur.
  { apply (inv_open Hinv f g). rewrite Hopen. set_solver. }
  set (st1 := AStar.Build_state _ _ _ _ _ _).
  assert (inv {[current]} st1) as Hinv1.
  { split; try apply Hinv; simpl.
    - intros f' g' n Hin. apply (inv_open Hinv f' g'). rewrite Hopen.
      set_solver.
    - pose proof (inv_visited Hinv). set_solver.
    - intros n m Hn Hno. apply (inv_closed Hinv); set_solver.
    - intros n [Hn|(f' & g' & Hin)]%(inv_pending Hinv); [set_solver|].
      rewrite Hopen in Hin.
      apply elem_of_cons in Hin as [?|?]; [simplify_eq; set_solver|eauto].
    - pose proof (inv_goal Hinv). set_solver.
    - pose proof (inv_sorted Hinv) as Hs. rewrite Hopen in Hs.
      by apply StronglySorted_inv in Hs as [? _]. }
  destruct (relax_inv {[current]} current directions st1 Hinv1)
    as (st' & Heq & Hinv' & Hdom & Hv & Hds & Hm); [done..|].
  exists st'. split_and!; [done| |].
  - split; try apply Hinv'.
    intros n m Hn _ Hs. destruct (decide (n = current)) as [->|Hnc].
    + destruct Hs as [(d & Hd & ->) Hfree]. by apply Hds.
    + apply (inv_closed Hinv' n); [done|set_solver|done].
  - assert (measure st1 < measure st)%nat; [|lia].
    unfold astar_measure, astar_weight. rewrite Hopen. simpl. lia.
Qed.

(** Whatever the fuel, an answer of the loop is a boolean, and it is
    whether the goal is in reach. *)
Lemma search_loop_sound fuel st a n :
  inv ∅ st → AStar.search_loop self goal grid fuel st = Some (a, n) →
  ∃ b, a = Returns b ∧ (b = true ↔ reachable grid start goal).
Proof.
  revert st. induction fuel as [|fuel IH]; intros st Hinv H; [done|].
  cbn [AStar.search_loop] in H.
  destruct (AStar.open_set st) as [|[[f g] current] rest] eqn:Hopen;
    cbn [AStar.heappop] in H.
  { simplify_eq. exists false. split; [done|]. split; [done|].
    intros Hr%(inv_exhausted st); [|done..]. by apply (inv_goal Hinv) in Hr. }
  destruct (decide (current = goal)) as [->|Hne].
  { simplify_eq. exists true. split; [done|]. split; [|done].
    intros _. apply (inv_reach Hinv), (inv_open Hinv f g).
    rewrite Hopen. set_solver. }
  destruct (search_step st f g current rest Hinv Hopen Hne)
    as (st' & Heq & Hinv' & _).
  rewrite Heq in H. by eapply IH.
Qed.

Lemma search_loop_terminates fuel st :
  inv ∅ st → (measure st < fuel)%nat →
  is_Some (AStar.search_loop self goal grid fuel st).
Proof.
  revert st. induction fuel as [|fuel IH]; intros st Hinv Hfuel; [lia|].
  cbn [AStar.search_loop].
  destruct (AStar.open_set st) as [|[[f g] current] rest] eqn:Hopen;
    cbn [AStar.heappop]; [done|].
  destruct (decide (current = goal)) as [->|Hne]; [done|].
  destruct (search_step st f g current rest Hinv Hopen Hne)
    as (st' & Heq & Hinv' & Hm).
  rewrite Heq. apply IH; [done|lia].
Qed.

Lemma initial_inv : inv ∅ (AStar.initial self start goal).
Proof.
  split; simpl.
  - set_solver.
  - intros f g n ?%list_elem_of_singleton. simplify_eq. set_solver.
  - intros n Hn. rewrite dom_singleton_L in Hn.
    apply elem_of_singleton in Hn as ->. apply rtc_refl.
  - set_solver.
  - set_solver.
  - intros n Hn. rewrite dom_singleton_L in Hn.
    apply elem_of_singleton in Hn as ->. right. eexists _, _. by left.
  - set_solver.
  - intros n g [-> <-]%lookup_singleton_Some.
    rewrite dom_singleton_L, size_singleton. lia.
  - by repeat constructor.
Qed.

Lemma initial_measure :
  (measure (AStar.initial self start goal) < astar_fuel_bound start grid)%nat.
Proof.
  unfold astar_measure, astar_fuel_bound.
  pose proof (sum_list_with_bound
    (astar_weight start grid (AStar.initial self start goal))
    (elements (astar_cells start grid)) (size (astar_cells start grid))) as Hb.
  assert (length (elements (astar_cells start grid))
          = size (astar_cells start grid)) as Hlen by done.
  rewrite Hlen in Hb. simpl length.
  assert (sum_list_with
            (astar_weight start grid (AStar.initial self start goal))
            (elements (astar_cells start grid))
          ≤ size (astar_cells start grid) * size (astar_cells start grid))%nat;
    [|lia].
  apply Hb. intros n Hn. unfold astar_weight. simpl.
  destruct (decide (n = start)) as [->|Hne].
  - rewrite lookup_singleton_eq. simpl. lia.
  - rewrite lookup_singleton_ne by done. done.
Qed.

(** On a rectangular grid [search] returns, and it returns whether the
    goal is in reach. *)
Lemma astar_search_decides :
  ∃ b, (b = true ↔ reachable grid start goal)
     ∧ (∀ fuel, (astar_fuel_bound start grid ≤ fuel)%nat →
          ∃ n, AStar.search self start goal grid fuel = Some (Returns b, n))
     ∧ (∀ fuel a n, AStar.search self start goal grid fuel = Some (a, n) →
                    a = Returns b).
Proof.
  assert (∀ fuel a n b,
            AStar.search self start goal grid fuel = Some (a, n) →
            (b = true ↔ reachable grid start goal) → a = Returns b) as Huniq.
  { intros fuel a n b H Hb.
    apply search_loop_sound in H as (b' & -> & Hb'); [|apply initial_inv].
    by rewrite (bool_same_iff _ _ _ Hb Hb'). }
  destruct (search_loop_terminates (astar_fuel_bound start grid)
              (AStar.initial self start goal) initial_inv initial_measure)
    as [[a n] Ha].
  pose proof Ha as Ha'.
  apply search_loop_sound in Ha' as (b & -> & Hb); [|apply initial_inv].
  exists b. split_and!; [done| |].
  - intros fuel Hfuel.
    destruct (search_loop_terminates fuel (AStar.initial self start goal))
      as [[a' n'] Ha']; [apply initial_inv|pose proof initial_measure; lia|].
    exists n'. unfold AStar.search. rewrite Ha'.
    by rewrite (Huniq fuel a' n' b Ha' Hb).
  - intros fuel a' n' Ha'. by eapply Huniq.
Qed.
End astar_facts.

(** ** What a call that returns FOUND has added to the visited set *)

Lemma explore_found_origin grid rec node g t dirs m v v' :
  restores rec →
  explore grid rec node g t dirs m v = Some (Returns (FOUND, v')) →
  ∃ d, d ∈ dirs ∧ free grid (move node d) ∧ (move node d ∉ v)
       ∧ rec (move node d) (g + 1) t (v ∪ {[move node d]})
         = Some (Returns (FOUND, v')).
Proof.
  intros Hrec. revert m.
  induction dirs as [|d dirs IH]; intros m H; cbn [explore] in H; [done|].
  assert (∀ m, explore grid rec node g t dirs m v = Some (Returns (FOUND, v')) →
    ∃ d0, d0 ∈ d :: dirs ∧ free grid (move node d0) ∧ (move node d0 ∉ v)
          ∧ rec (move node d0) (g + 1) t (v ∪ {[move node d0]})
            = Some (Returns (FOUND, v'))) as Hnext.
  { intros m' (d0 & Hd0 & ?)%IH. exists d0. split; [set_solver|done]. }
  destruct (in_bounds grid (move node d)) eqn:Hin; cbn [negb] in H; [|eauto].
  destruct (cell grid (move node d)) as [x|] eqn:Hx; [|done].
  destruct (Z.eqb_spec x 1); [eauto|].
  destruct (decide (move node d ∈ v)); [eauto|].
  destruct (rec _ _ _ _) as [[[[|c] v2]|]|] eqn:Hr; try done.
  - simplify_eq. exists d. split_and!; [set_solver| |done..].
    split; [done|]. eauto.
  - apply Hrec in Hr as ->. destruct (decide _); [|done].
    replace ((v ∪ {[move node d]}) ∖ {[move node d]}) with v in H
      by set_solver.
    eauto.
Qed.

Lemma dfs_found_path goal grid h fuel node g t v v' :
  dfs_search goal grid h fuel node g t v = Some (Returns (FOUND, v')) →
  ∃ p, trail grid node p ∧ endpoint node p = goal ∧ NoDup p
       ∧ (∀ x, x ∈ p → x ∉ v)
       ∧ v' = v ∪ list_to_set p
       ∧ g + Z.of_nat (length p) + h goal goal ≤ t.
Proof.
  revert node g v v'.
  induction fuel as [|fuel IH]; intros node g v v' H; [done|].
  cbn [dfs_search] in H.
  destruct (Z.gtb_spec (g + h node goal) t); [done|].
  destruct (decide (node = goal)) as [->|Hne].
  { simplify_eq. exists []. split_and!; try done.
    - constructor.
    - by intros x ?%elem_of_nil.
    - set_solver.
    - simpl. lia. }
  apply explore_found_origin in H as (d & Hd & Hfree & Hv & H);
    [|apply dfs_restores].
  apply IH in H as (p & Hp & He & Hnd & Hav & -> & Hlen).
  exists (move node d :: p). split_and!.
  - simpl. split; [by apply move_step|done].
  - done.
  - apply NoDup_cons. split; [|done]. intros Hin%Hav. set_solver.
  - intros x [->|Hx%Hav]%elem_of_cons; set_solver.
  - set_solver.
  - simpl length. lia.
Qed.

(** ** The order of Python's numbers *)

Lemma fin_ltb_scale E m1 e1 m2 e2 :
  E ≤ e1 → E ≤ e2 →
  fin_ltb m1 e1 m2 e2 = (m1 * 2 ^ (e1 - E) <? m2 * 2 ^ (e2 - E)).
Proof.
  intros H1 H2. unfold fin_ltb.
  replace (e1 - E) with ((e1 - Z.min e1 e2) + (Z.min e1 e2 - E)) by lia.
  replace (e2 - E) with ((e2 - Z.min e1 e2) + (Z.min e1 e2 - E)) by lia.
  rewrite !Z.pow_add_r by lia.
  assert (0 < 2 ^ (Z.min e1 e2 - E)) by (apply Z.pow_pos_nonneg; lia).
  set (K := 2 ^ (Z.min e1 e2 - E)) in *.
  set (x := m1 * 2 ^ (e1 - Z.min e1 e2)). set (y := m2 * 2 ^ (e2 - Z.min e1 e2)).
  replace (m1 * (2 ^ (e1 - Z.min e1 e2) * K)) with (x * K) by (unfold x; ring).
  replace (m2 * (2 ^ (e2 - Z.min e1 e2) * K)) with (y * K) by (unfold y; ring).
  destruct (Z.ltb_spec x y), (Z.ltb_spec (x * K) (y * K)); try done; nia.
Qed.

Lemma value_inf c : py_eq c math_inf = true ↔ value c = XPosInf.
Proof. unfold py_eq. simpl. destruct (value c); split; congruence. Qed.

Lemma py_eq_inf_inf : py_eq math_inf math_inf = true.
Proof. done. Qed.

Lemma py_lt_irrefl a : py_lt a a = false.
Proof.
  unfold py_lt. destruct (value a); try done.
  unfold fin_ltb. apply Z.ltb_irrefl.
Qed.

Lemma py_lt_trans a b c :
  py_lt a b = true → py_lt b c = true → py_lt a c = true.
Proof.
  unfold py_lt.
  destruct (value a) as [| | |m1 e1], (value b) as [| | |m2 e2],
    (value c) as [| | |m3 e3]; try done.
  rewrite (fin_ltb_scale (Z.min e1 (Z.min e2 e3)) m1 e1 m2 e2) by lia.
  rewrite (fin_ltb_scale (Z.min e1 (Z.min e2 e3)) m2 e2 m3 e3) by lia.
  rewrite (fin_ltb_scale (Z.min e1 (Z.min e2 e3)) m1 e1 m3 e3) by lia.
  rewrite !Z.ltb_lt. lia.
Qed.

(** [math.inf] is below nothing, and every number that is above something
    is [math.inf] or below it. *)
Lemma py_lt_inf_l r m : py_eq r math_inf = true → py_lt r m = false.
Proof. intros Hr%value_inf. unfold py_lt. rewrite Hr. by destruct (value m). Qed.

Lemma py_lt_inf_r t r m :
  py_lt t r = true → py_eq r math_inf = false → py_eq m math_inf = true →
  py_lt r m = true.
Proof.
  intros Htr Hr Hm%value_inf. revert Htr Hr. unfold py_lt, py_eq.
  rewrite Hm. simpl. by destruct (value t), (value r).
Qed.

Lemma is_finite_not_inf c : is_finite c = true → py_eq c math_inf = false.
Proof. unfold is_finite, py_eq. simpl. by destruct (value c). Qed.

Lemma py_min_cases a b : py_min a b = a ∨ py_min a b = b.
Proof. unfold py_min. destruct (py_lt b a); auto. Qed.

(** On ints the order is the order of the integers. *)
Lemma py_lt_int a b : py_lt (PInt a) (PInt b) = (a <? b).
Proof.
  unfold py_lt. simpl. unfold fin_ltb. rewrite Z.min_id, Z.sub_diag. simpl.
  by rewrite !Z.mul_1_r.
Qed.

Lemma py_eq_int a b : py_eq (PInt a) (PInt b) = (a =? b).
Proof.
  unfold py_eq. simpl. unfold fin_eqb. rewrite Z.min_id, Z.sub_diag. simpl.
  by rewrite !Z.mul_1_r.
Qed.

Lemma py_lt_num a b : py_lt (num_of_int a) (num_of_int b) = num_ltb a b.
Proof. destruct a, b; try done. apply py_lt_int. Qed.

Lemma py_min_num a b :
  py_min (num_of_int a) (num_of_int b) = num_of_int (num_min a b).
Proof. unfold py_min, num_min. rewrite py_lt_num. by destruct (num_ltb b a). Qed.


Lemma proper_bound_min t m r :
  proper_bound t m → proper_bound t r → proper_bound t (py_min m r).
Proof. intros. by destruct (py_min_cases m r) as [->| ->]. Qed.

Lemma py_min_inf t m r :
  proper_bound t m → proper_bound t r →
  py_eq (py_min m r) math_inf = true →
  py_eq m math_inf = true ∧ py_eq r math_inf = true.
Proof.
  unfold py_min. intros Hm Hr H. destruct (py_lt r m) eqn:Hlt.
  - by rewrite (py_lt_inf_l r m H) in Hlt.
  - split; [done|]. destruct Hr as [?|[Hr Htr]]; [done|].
    by rewrite (py_lt_inf_r t r m Htr Hr H) in Hlt.
Qed.

(** ** The loop over the neighbors, on numbers *)

Section numeric_explore_facts.
Context (grid : Grid).

Abbreviation nexpl := (Numeric.explore grid).

Lemma numeric_explore_restores rec node g t dirs m v c v' :
  numeric_restores rec →
  nexpl rec node g t dirs m v = Some (Returns (Numeric.Num c, v')) → v' = v.
Proof.
  intros Hrec. revert m v.
  induction dirs as [|d dirs IH]; intros m v H; cbn [Numeric.explore] in H.
  - by simplify_eq.
  - repeat case_match; simplify_eq; eauto.
    match goal with
    | Hr : rec _ _ _ _ = Some _, He : nexpl _ _ _ _ _ _ _ = Some _ |- _ =>
        apply Hrec in Hr; apply IH in He; set_solver
    end.
Qed.

Lemma numeric_explore_sound goal rec node g t dirs m v v' :
  dirs ⊆ directions →
  (∀ n g t v v', rec n g t v = Some (Returns (Numeric.FOUND, v')) →
                 reachable grid n goal) →
  nexpl rec node g t dirs m v = Some (Returns (Numeric.FOUND, v')) →
  reachable grid node goal.
Proof.
  intros Hdirs Hrec. revert m v.
  induction dirs as [|d dirs IH]; intros m v H; cbn [Numeric.explore] in H.
  - done.
  - assert (dirs ⊆ directions) by set_solver.
    repeat case_match; simplify_eq; eauto.
    match goal with
    | Hr : rec _ _ _ _ = Some (Returns (Numeric.FOUND, _)) |- _ =>
        apply Hrec in Hr
    end.
    eapply rtc_l; [|done]. apply move_step; [set_solver|].
    split; [by destruct (in_bounds _ _)|]. eexists; split; [done|lia].
Qed.

Lemma numeric_explore_terminates rec node g t dirs m v :
  numeric_restores rec →
  (∀ nb, nb ∈ cells grid → nb ∉ v →
         is_Some (rec nb (g + 1) t (v ∪ {[nb]}))) →
  is_Some (nexpl rec node g t dirs m v).
Proof.
  intros Hrec Hterm. revert m.
  induction dirs as [|d dirs IH]; intros m; cbn [Numeric.explore]; [done|].
  destruct (in_bounds _ _) eqn:Hin; cbn [negb]; [|done].
  destruct (cell _ _); [|done].
  destruct (_ =? 1); [done|].
  destruct (decide _) as [|Hv]; [done|].
  destruct (Hterm (move node d)) as [o Ho]; [by apply elem_of_cells|done|].
  rewrite Ho. destruct o as [[[|c] v'']|]; [done| |done].
  apply Hrec in Ho as ->.
  destruct (decide _); [|done].
  replace ((v ∪ {[move node d]}) ∖ {[move node d]}) with v by set_solver.
  done.
Qed.

Lemma numeric_explore_no_raise rec node g t dirs m v e :
  rectangular grid → numeric_restores rec →
  (∀ n g t v, rec n g t v ≠ Some (Raises e)) →
  nexpl rec node g t dirs m v ≠ Some (Raises e).
Proof.
  intros Hrect Hrec Hno. revert m v.
  induction dirs as [|d dirs IH]; intros m v H; cbn [Numeric.explore] in H;
    [done|].
  destruct (in_bounds _ _) eqn:Hin; cbn [negb] in H; [|by eapply IH].
  destruct (cell_in_bounds grid _ Hrect Hin) as [x Hx]. rewrite Hx in H.
  repeat case_match; simplify_eq; try (by eapply IH); try (by eapply Hno).
  match goal with
  | Hr : rec _ _ _ _ = Some (Returns (Numeric.Num ?c, _)), Hn : _ ∉ _ |- _ =>
      apply Hrec in Hr; apply Hn; rewrite Hr; set_solver
  end.
Qed.

(** What holds of [min_exceed] at the start and of every number that a
    recursive call returns holds of the number that the loop returns. *)
Lemma numeric_explore_bound (P : pynum → Prop) rec node g t dirs m v c v' :
  numeric_restores rec →
  (∀ nb r v', nb ∈ cells grid → nb ∉ v →
     rec nb (g + 1) t (v ∪ {[nb]}) = Some (Returns (Numeric.Num r, v')) →
     P r) →
  P m →
  nexpl rec node g t dirs m v = Some (Returns (Numeric.Num c, v')) → P c.
Proof.
  intros Hrec Hb. revert m.
  induction dirs as [|d dirs IH]; intros m Hm H; cbn [Numeric.explore] in H.
  - by simplify_eq.
  - destruct (in_bounds _ _) eqn:Hin; cbn [negb] in H; [|eauto].
    repeat case_match; simplify_eq; eauto.
    match goal with
    | Hr : rec _ _ _ _ = Some (Returns (Numeric.Num ?r, _)) |- _ =>
        pose proof (Hrec _ _ _ _ _ _ Hr); subst;
        replace ((v ∪ {[move node d]}) ∖ {[move node d]}) with v in H
          by set_solver;
        apply IH in H; [done|];
        destruct (py_min_cases m r) as [-> | ->];
        [done|eapply Hb; [by apply elem_of_cells|done|exact Hr]]
    end.
Qed.

(** When the loop returns [math.inf], no call has returned anything else:
    each free neighbor outside the visited set was searched in vain. *)
Lemma numeric_explore_inf rec node g t dirs m v c v' :
  numeric_restores rec →
  (∀ nb r v', nb ∈ cells grid → nb ∉ v →
     rec nb (g + 1) t (v ∪ {[nb]}) = Some (Returns (Numeric.Num r, v')) →
     proper_bound t r) →
  proper_bound t m →
  nexpl rec node g t dirs m v = Some (Returns (Numeric.Num c, v')) →
  py_eq c math_inf = true →
  py_eq m math_inf = true
  ∧ ∀ d, d ∈ dirs → free grid (move node d) → move node d ∉ v →
      ∃ r v'', rec (move node d) (g + 1) t (v ∪ {[move node d]})
               = Some (Returns (Numeric.Num r, v''))
             ∧ py_eq r math_inf = true.
Proof.
  intros Hrec Hb. revert m.
  induction dirs as [|d0 dirs IH]; intros m Hm H Hc;
    cbn [Numeric.explore] in H.
  { simplify_eq. split; [done|]. by intros d ?%elem_of_nil. }
  destruct (in_bounds grid (move node d0)) eqn:Hin; cbn [negb] in H.
  2:{ destruct (IH m Hm H Hc) as [Hmi Hall]. split; [done|].
      intros d [->|Hd]%elem_of_cons Hfree Hv; [|eauto].
      destruct Hfree as [? _]. congruence. }
  destruct (cell grid (move node d0)) as [x|] eqn:Hx; [|done].
  destruct (Z.eqb_spec x 1) as [->|Hx1].
  { destruct (IH m Hm H Hc) as [Hmi Hall]. split; [done|].
    intros d [->|Hd]%elem_of_cons Hfree Hv; [|eauto].
    destruct Hfree as (_ & y & ? & ?). congruence. }
  destruct (decide (move node d0 ∈ v)) as [Hv0|Hv0].
  { destruct (IH m Hm H Hc) as [Hmi Hall]. split; [done|].
    intros d [->|Hd]%elem_of_cons Hfree Hv; [done|eauto]. }
  destruct (rec (move node d0) (g + 1) t (v ∪ {[move node d0]}))
    as [[[[|r] v1]|e]|] eqn:Hr; simplify_eq.
  pose proof (Hrec _ _ _ _ _ _ Hr); subst v1.
  destruct (decide _); [|done].
  replace ((v ∪ {[move node d0]}) ∖ {[move node d0]}) with v in H
    by set_solver.
  assert (proper_bound t r) as Hpr
    by (eapply Hb; [by apply elem_of_cells|done|exact Hr]).
  destruct (IH _ (proper_bound_min t m r Hm Hpr) H Hc) as [Hmin Hall].
  apply (py_min_inf t) in Hmin as [Hmi Hri]; [|done..].
  split; [done|].
  intros d [->|Hd]%elem_of_cons Hfree Hv; eauto.
Qed.
Lemma numeric_explore_mono
    (rec rec' : Coord → Z → pynum → gset Coord
                → option (completion (Numeric.result * gset Coord)))
    node g t dirs m v o :
  (∀ n g t v o, rec n g t v = Some o → rec' n g t v = Some o) →
  nexpl rec node g t dirs m v = Some o →
  nexpl rec' node g t dirs m v = Some o.
Proof.
  intros Hrec. revert m v.
  induction dirs as [|d dirs IH]; intros m v H; cbn [Numeric.explore] in *.
  - done.
  - destruct (negb _); [eauto|].
    destruct (cell _ _); [|done].
    destruct (_ =? 1); [eauto|].
    destruct (decide _); [eauto|].
    destruct (rec _ _ _ _) as [o'|] eqn:Hr; [|done].
    rewrite (Hrec _ _ _ _ _ Hr).
    destruct o' as [[[|c] v'']|]; [done| |done].
    destruct (decide _); eauto.
Qed.
End numeric_explore_facts.

(** ** The bounded depth-first search, on numbers *)

Lemma elem_of_costs start goal grid heuristic g n :
  0 ≤ g ≤ Z.of_nat (size (cells grid)) →
  n ∈ start :: elements (cells grid) →
  py_add (PInt g) (heuristic n goal) ∈ costs start goal grid heuristic.
Proof.
  intros Hg Hn. unfold costs. apply list_elem_of_bind. exists g. split.
  - apply list_elem_of_bind. exists n. split; [apply list_elem_of_singleton; done|done].
  - apply elem_of_seqZ. lia.
Qed.

Lemma length_costs start goal grid heuristic :
  length (costs start goal grid heuristic)
  = (S (size (cells grid)) * S (size (cells grid)))%nat.
Proof.
  unfold costs.
  assert (∀ l : list Z,
    length (g ← l; n ← start :: elements (cells grid);
            [py_add (PInt g) (heuristic n goal)])
    = (length l * S (size (cells grid)))%nat) as Hlen.
  { induction l as [|g l IH]; [done|].
    rewrite bind_cons, length_app, IH.
    assert (∀ l' : list Coord,
      length (n ← l'; [py_add (PInt g) (heuristic n goal)]) = length l')
      as Hrow.
    { induction l' as [|? ? IH']; [done|].
      rewrite bind_cons, length_app, IH'. done. }
    rewrite Hrow. simpl. unfold size, set_size. simpl. lia. }
  rewrite Hlen, length_seqZ. f_equal. lia.
Qed.

Section numeric_dfs_facts.
Context (start goal : Coord) (grid : Grid) (heuristic : Coord → Coord → pynum).

Abbreviation ndfs := (Numeric.dfs_search goal grid heuristic).

Lemma numeric_dfs_restores fuel : numeric_restores (ndfs fuel).
Proof.
  induction fuel as [|fuel IH]; intros n g t v c v' H;
    cbn [Numeric.dfs_search] in H.
  - done.
  - repeat case_match; simplify_eq; eauto using numeric_explore_restores.
Qed.

Lemma numeric_dfs_sound fuel node g t v v' :
  ndfs fuel node g t v = Some (Returns (Numeric.FOUND, v')) →
  reachable grid node goal.
Proof.
  revert node g t v v'.
  induction fuel as [|fuel IH]; intros n g t v v' H;
    cbn [Numeric.dfs_search] in H.
  - done.
  - repeat case_match; simplify_eq.
    + apply rtc_refl.
    + eapply numeric_explore_sound; [done|exact IH|exact H].
Qed.

Lemma numeric_dfs_terminates fuel node g t v :
  (size (cells grid ∖ v) < fuel)%nat → is_Some (ndfs fuel node g t v).
Proof.
  revert node g t v.
  induction fuel as [|fuel IH]; intros n g t v Hsz; [lia|].
  cbn [Numeric.dfs_search].
  destruct (py_lt _ _); [done|]. destruct (decide _); [done|].
  apply numeric_explore_terminates; [apply numeric_dfs_restores|].
  intros nb Hnb Hv. apply IH.
  assert (cells grid ∖ (v ∪ {[nb]}) ⊂ cells grid ∖ v) as Hsub by set_solver.
  apply subset_size in Hsub. lia.
Qed.

Lemma numeric_dfs_no_raise fuel node g t v e :
  rectangular grid → ndfs fuel node g t v ≠ Some (Raises e).
Proof.
  intros Hrect. revert node g t v.
  induction fuel as [|fuel IH]; intros n g t v H;
    cbn [Numeric.dfs_search] in H; [done|].
  repeat case_match; simplify_eq.
  eapply numeric_explore_no_raise;
    [done|apply numeric_dfs_restores|exact IH|exact H].
Qed.

(** The path cost of a call is at most the number of cells: each call
    into a neighbor adds one to the cost and one cell to the visited set.
    Hence every number a call returns is [math.inf] or one of the f-costs
    of the search, above the threshold. *)
Lemma numeric_dfs_bound fuel node g t v c v' :
  node ∈ start :: elements (cells grid) →
  0 ≤ g →
  g + Z.of_nat (size (cells grid ∖ v)) ≤ Z.of_nat (size (cells grid)) →
  ndfs fuel node g t v = Some (Returns (Numeric.Num c, v')) →
  bound_above start goal grid heuristic t c.
Proof.
  revert node g v c v'.
  induction fuel as [|fuel IH]; intros n g v c v' Hn Hg Hsz H;
    cbn [Numeric.dfs_search] in H; [done|].
  destruct (py_lt t _) eqn:Hlt.
  { simplify_eq. right. split; [done|]. apply elem_of_costs; [lia|done]. }
  destruct (decide _); [done|].
  revert H. apply numeric_explore_bound;
    [apply numeric_dfs_restores| |by left].
  intros nb r v'' Hnb Hv Hr.
  assert (cells grid ∖ (v ∪ {[nb]}) ⊂ cells grid ∖ v) as Hsub by set_solver.
  apply subset_size in Hsub.
  apply (IH nb (g + 1) (v ∪ {[nb]}) r v''); [|lia|lia|exact Hr].
  apply elem_of_cons. right. by apply elem_of_elements.
Qed.

Lemma bound_above_proper t c :
  finite_costs start goal grid heuristic →
  bound_above start goal grid heuristic t c → proper_bound t c.
Proof.
  intros Hfin [?|[Hlt Hc]]; [by left|]. right. split; [|done].
  by apply is_finite_not_inf, Hfin.
Qed.

(** With finite f-costs a call returns [math.inf] only when its search
    was exhaustive: no walk that avoids the visited set leads from its
    node to the goal. *)
Lemma numeric_dfs_complete fuel node g t v c v' p :
  finite_costs start goal grid heuristic →
  node ∈ start :: elements (cells grid) →
  0 ≤ g →
  g + Z.of_nat (size (cells grid ∖ v)) ≤ Z.of_nat (size (cells grid)) →
  ndfs fuel node g t v = Some (Returns (Numeric.Num c, v')) →
  py_eq c math_inf = true →
  trail grid node p → (∀ x, x ∈ p → x ∉ v) → endpoint node p ≠ goal.
Proof.
  intros Hfin. revert node g v c v' p.
  induction fuel as [|fuel IH]; intros n g v c v' p Hn Hg Hsz H Hc Hp Hv;
    cbn [Numeric.dfs_search] in H; [done|].
  destruct (py_lt t _) eqn:Hlt.
  { simplify_eq.
    assert (is_finite (py_add (PInt g) (heuristic n goal)) = true) as Hf
      by (apply Hfin, elem_of_costs; [lia|done]).
    apply is_finite_not_inf in Hf.
    change (py_eq (py_add (PInt g) (heuristic n goal)) math_inf = true) in Hc.
    rewrite Hf in Hc. done. }
  destruct (decide _) as [|Hng]; [done|].
  assert (∀ nb, nb ∈ cells grid → nb ∉ v →
            nb ∈ start :: elements (cells grid)
            ∧ 0 ≤ g + 1
            ∧ g + 1 + Z.of_nat (size (cells grid ∖ (v ∪ {[nb]})))
              ≤ Z.of_nat (size (cells grid))) as Hinv.
  { intros nb Hnb Hnv.
    assert (cells grid ∖ (v ∪ {[nb]}) ⊂ cells grid ∖ v) as Hsub by set_solver.
    apply subset_size in Hsub.
    split_and!; [|lia..]. apply elem_of_cons. right. by apply elem_of_elements. }
  eapply numeric_explore_inf in H as [_ Hall];
    [|apply numeric_dfs_restores| |by left|done].
  2:{ intros nb r v'' Hnb Hnv Hr. apply bound_above_proper; [done|].
      destruct (Hinv nb Hnb Hnv) as (? & ? & ?).
      by eapply numeric_dfs_bound. }
  destruct p as [|b p]; [done|]. simpl in Hp. destruct Hp as [Hs Hp].
  destruct Hs as [(d & Hd & ->) Hfree].
  assert (move n d ∉ v) as Hnv by (apply Hv; set_solver).
  destruct (Hall d Hd Hfree Hnv) as (r & v'' & Hr & Hri).
  destruct (trail_cut grid (move n d) p (move n d) Hp)
    as (q & Hq & He & Hnq & Hsub); [set_solver|].
  destruct (Hinv (move n d) (free_in_bounds _ _ Hfree) Hnv) as (? & ? & ?).
  simpl. rewrite <- He. eapply IH; [done|done|done|exact Hr|exact Hri|exact Hq|].
  intros x Hxq. set_solver.
Qed.
Lemma numeric_dfs_mono_S fuel node g t v o :
  ndfs fuel node g t v = Some o → ndfs (S fuel) node g t v = Some o.
Proof.
  revert node g t v o.
  induction fuel as [|fuel IH]; intros n g t v o H; [done|].
  cbn [Numeric.dfs_search] in *.
  destruct (py_lt _ _); [done|]. destruct (decide _); [done|].
  eapply numeric_explore_mono; [|exact H]. exact IH.
Qed.

Lemma numeric_dfs_mono fuel fuel' node g t v o :
  (fuel ≤ fuel')%nat →
  ndfs fuel node g t v = Some o → ndfs fuel' node g t v = Some o.
Proof. induction 1; eauto using numeric_dfs_mono_S. Qed.
End numeric_dfs_facts.

(** ** The threshold loop, on numbers *)

Lemma filter_length_le {A} (P Q : A → Prop)
    `{∀ x, Decision (P x)} `{∀ x, Decision (Q x)} (l : list A) :
  (∀ x, Q x → P x) → (length (filter Q l) ≤ length (filter P l))%nat.
Proof.
  intros HQP. induction l as [|a l IH]; [done|].
  rewrite !filter_cons. destruct (decide (Q a)) as [HQ|HQ].
  - rewrite decide_True by auto. simpl. lia.
  - destruct (decide (P a)); simpl; lia.
Qed.

Lemma filter_length_lt {A} (P Q : A → Prop)
    `{∀ x, Decision (P x)} `{∀ x, Decision (Q x)} (l : list A) r :
  (∀ x, Q x → P x) → r ∈ l → P r → ¬ Q r →
  (length (filter Q l) < length (filter P l))%nat.
Proof.
  intros HQP Hr HP HQ. induction l as [|a l IH]; [by apply elem_of_nil in Hr|].
  pose proof (filter_length_le P Q l HQP).
  rewrite !filter_cons. apply elem_of_cons in Hr as [<-|Hr].
  - rewrite decide_False, decide_True by done. simpl. lia.
  - specialize (IH Hr). destruct (decide (Q a)) as [HQa|HQa].
    + rewrite decide_True by auto. simpl. lia.
    + destruct (decide (P a)); simpl; lia.
Qed.

Section numeric_ida_star_facts.
Context (start goal : Coord) (grid : Grid) (heuristic : Coord → Coord → pynum).

Abbreviation ndfs := (Numeric.dfs_search goal grid heuristic).
Abbreviation nloop := (Numeric.ida_loop start goal grid heuristic).
Abbreviation above t :=
  (filter (λ c, py_lt t c = true) (costs start goal grid heuristic)).

Lemma numeric_top_bound depth t r v' :
  ndfs depth start 0 t {[start]} = Some (Returns (Numeric.Num r, v')) →
  bound_above start goal grid heuristic t r.
Proof.
  apply numeric_dfs_bound; [set_solver|done|].
  assert (size (cells grid ∖ {[start]}) ≤ size (cells grid))%nat
    by (apply subseteq_size; set_solver).
  lia.
Qed.

Lemma numeric_top_terminates depth t :
  (depth_bound grid ≤ depth)%nat → is_Some (ndfs depth start 0 t {[start]}).
Proof.
  intros Hd. apply numeric_dfs_terminates.
  assert (size (cells grid ∖ {[start]}) ≤ size (cells grid))%nat
    by (apply subseteq_size; set_solver).
  unfold depth_bound in Hd. lia.
Qed.

(** The threshold goes up through the f-costs of the search: those above
    it get fewer at each iteration. *)
Lemma numeric_ida_loop_terminates iters depth t :
  (depth_bound grid ≤ depth)%nat →
  (length (above t) < iters)%nat →
  is_Some (nloop iters depth t).
Proof.
  intros Hd. revert t.
  induction iters as [|iters IH]; intros t Ht; [lia|].
  cbn [Numeric.ida_loop].
  destruct (numeric_top_terminates depth t Hd) as [o Ho]. rewrite Ho.
  destruct o as [[[|r] v']|]; [done| |done].
  destruct (py_eq r math_inf) eqn:Hr; [done|].
  apply numeric_top_bound in Ho as [Hinf|[Hlt Hc]]; [congruence|].
  apply IH.
  assert (length (above r) < length (above t))%nat; [|lia].
  apply (filter_length_lt _ _ _ r); [|done|done|].
  - intros x Hx. by eapply py_lt_trans.
  - by rewrite py_lt_irrefl.
Qed.

(** Whatever the heuristic, an answer is a boolean, and true only if the
    goal is in reach. *)
Lemma numeric_ida_loop_sound iters depth t a :
  rectangular grid → nloop iters depth t = Some a →
  ∃ b, a = Returns b ∧ (b = true → reachable grid start goal).
Proof.
  intros Hrect. revert t.
  induction iters as [|iters IH]; intros t H; cbn [Numeric.ida_loop] in H;
    [done|].
  destruct (ndfs _ _ _ _ _) as [[[[|r] v']|e]|] eqn:Ho; simplify_eq; eauto.
  - exists true. split; [done|]. intros _. by eapply numeric_dfs_sound.
  - destruct (py_eq r math_inf); simplify_eq; eauto.
    by exists false.
  - by apply numeric_dfs_no_raise in Ho.
Qed.

(** With finite f-costs the answer is whether the goal is in reach. *)
Lemma numeric_ida_loop_spec iters depth t a :
  rectangular grid → finite_costs start goal grid heuristic →
  nloop iters depth t = Some a →
  (a = Returns true ∧ reachable grid start goal)
  ∨ (a = Returns false ∧ ¬ reachable grid start goal).
Proof.
  intros Hrect Hfin. revert t.
  induction iters as [|iters IH]; intros t H; cbn [Numeric.ida_loop] in H;
    [done|].
  destruct (ndfs _ _ _ _ _) as [[[[|r] v']|e]|] eqn:Ho; simplify_eq; eauto.
  - left. split; [done|]. by eapply numeric_dfs_sound.
  - destruct (py_eq r math_inf) eqn:Hr; simplify_eq; eauto.
    right. split; [done|].
    intros (p & Hp & He)%reachable_trail.
    destruct (trail_cut grid start p start Hp) as (q & Hq & Heq & Hnq & _);
      [set_solver|].
    assert (size (cells grid ∖ {[start]}) ≤ size (cells grid))%nat
      by (apply subseteq_size; set_solver).
    eapply (numeric_dfs_complete start goal grid heuristic);
      [exact Hfin| | | |exact Ho|exact Hr|exact Hq| |congruence].
    + set_solver.
    + done.
    + lia.
    + intros x Hx. set_solver.
  - by apply numeric_dfs_no_raise in Ho.
Qed.

Lemma numeric_ida_star_terminates fuel :
  (numeric_fuel_bound grid ≤ fuel)%nat →
  is_Some (Numeric.ida_star start goal grid heuristic fuel).
Proof.
  unfold numeric_fuel_bound, Numeric.ida_star. intros Hf.
  apply numeric_ida_loop_terminates; [lia|].
  pose proof (length_filter (λ c, py_lt (heuristic start goal) c = true)
                (costs start goal grid heuristic)) as Hle.
  rewrite length_costs in Hle. lia.
Qed.

Lemma numeric_ida_loop_mono iters iters' depth depth' t a :
  (iters ≤ iters')%nat → (depth ≤ depth')%nat →
  nloop iters depth t = Some a → nloop iters' depth' t = Some a.
Proof.
  intros Hi Hd. revert iters' t Hi.
  induction iters as [|iters IH]; intros iters' t Hi H; [done|].
  destruct iters' as [|iters']; [lia|].
  cbn [Numeric.ida_loop] in *.
  destruct (ndfs depth _ _ _ _) as [o|] eqn:Ho; [|done].
  rewrite (numeric_dfs_mono goal grid heuristic _ _ _ _ _ _ _ Hd Ho).
  destruct o as [[[|r] v']|e]; [done| |done].
  destruct (py_eq r math_inf); [done|]. apply IH; [lia|done].
Qed.

(** On a rectangular grid, whatever the heuristic, enough fuel gives a
    boolean, which is true only if the goal is in reach. *)
Lemma numeric_ida_star_answers :
  rectangular grid →
  ∃ b, (b = true → reachable grid start goal)
     ∧ (∀ fuel, (numeric_fuel_bound grid ≤ fuel)%nat →
                Numeric.ida_star start goal grid heuristic fuel
                = Some (Returns b))
     ∧ (∀ fuel a, Numeric.ida_star start goal grid heuristic fuel = Some a →
                  a = Returns b).
Proof.
  intros Hrect.
  destruct (numeric_ida_star_terminates _ (le_n _)) as [a Ha].
  pose proof Ha as Ha'.
  apply numeric_ida_loop_sound in Ha' as (b & -> & Hb); [|done].
  assert (∀ fuel a', Numeric.ida_star start goal grid heuristic fuel = Some a' →
                     a' = Returns b) as Hany.
  { intros fuel a' Ha'. unfold Numeric.ida_star in *.
    apply (numeric_ida_loop_mono _ (fuel `max` numeric_fuel_bound grid)
             _ (fuel `max` numeric_fuel_bound grid)) in Ha'; [|lia..].
    apply (numeric_ida_loop_mono _ (fuel `max` numeric_fuel_bound grid)
             _ (fuel `max` numeric_fuel_bound grid)) in Ha; [|lia..].
    congruence. }
  exists b. split_and!; [done| |done].
  intros fuel [a' Ha']%numeric_ida_star_terminates.
  rewrite Ha'. f_equal. by eapply Hany.
Qed.

(** With finite f-costs the boolean is whether the goal is in reach. *)
Lemma numeric_ida_star_decides :
  rectangular grid → finite_costs start goal grid heuristic →
  ∃ b, (b = true ↔ reachable grid start goal)
     ∧ (∀ fuel, (numeric_fuel_bound grid ≤ fuel)%nat →
                Numeric.ida_star start goal grid heuristic fuel
                = Some (Returns b))
     ∧ (∀ fuel a, Numeric.ida_star start goal grid heuristic fuel = Some a →
                  a = Returns b).
Proof.
  intros Hrect Hfin.
  destruct (numeric_ida_star_answers Hrect) as (b & Hb & Hfuel & Hany).
  exists b. split_and!; [|done..].
  split; [done|]. intros Hreach.
  specialize (Hfuel _ (le_n _)).
  apply numeric_ida_loop_spec in Hfuel as [[? _]|[_ ?]]; [congruence|done..].
Qed.
End numeric_ida_star_facts.

(** ** The reference search, on numbers *)

Lemma numeric_elem_of_heappush heap x y :
  y ∈ Numeric.AStar.heappush heap x ↔ y = x ∨ y ∈ heap.
Proof.
  induction heap as [|z heap IH]; simpl; [set_solver|].
  destruct (Numeric.AStar.item_ltb x z); set_solver.
Qed.

Lemma numeric_length_heappush heap x :
  length (Numeric.AStar.heappush heap x) = S (length heap).
Proof.
  induction heap as [|z heap IH]; simpl; [done|].
  destruct (Numeric.AStar.item_ltb x z); simpl; lia.
Qed.

Section numeric_astar_facts.
Context (self : Numeric.AStar.t) (start goal : Coord) (grid : Grid).
Hypothesis Hrect : rectangular grid.

Abbreviation inv := (numeric_astar_inv start goal grid).
Abbreviation measure := (numeric_astar_measure start grid).
Abbreviation scored st := (dom (Numeric.AStar.g_score st)).

Lemma numeric_reachable_astar_cells n :
  reachable grid start n → n ∈ astar_cells start grid.
Proof.
  unfold astar_cells. intros [->|(c & _ & [_ Hf])]%rtc_inv_r; [set_solver|].
  apply free_in_bounds in Hf. set_solver.
Qed.

(** The two ways the body of the [for] loop ends: it leaves the state as
    it is, the neighbor being scored already if it is free; or the
    neighbor is free and gets the score of [current] plus one, which it
    did not have or which is smaller than its score. *)
Lemma numeric_relax_neighbor_cases current d st :
  current ∈ scored st →
  let nb := move current d in
  (Numeric.AStar.relax_neighbor self goal grid current d st = Returns st
   ∧ (free grid nb → nb ∈ scored st))
  ∨ (∃ gc st',
       Numeric.AStar.g_score st !! current = Some gc
       ∧ free grid nb
       ∧ (Numeric.AStar.g_score st !! nb = None
          ∨ ∃ gn, Numeric.AStar.g_score st !! nb = Some gn ∧ gc + 1 < gn)
       ∧ Numeric.AStar.relax_neighbor self goal grid current d st = Returns st'
       ∧ Numeric.AStar.g_score st' = <[nb := gc + 1]> (Numeric.AStar.g_score st)
       ∧ Numeric.AStar.visited st' = Numeric.AStar.visited st
       ∧ Numeric.AStar.open_set st' =
           if decide (nb ∈ Numeric.AStar.visited st) then Numeric.AStar.open_set st
           else Numeric.AStar.heappush (Numeric.AStar.open_set st)
                  (py_add (PInt (gc + 1)) (Numeric.AStar.heuristic self nb goal),
                   gc + 1, nb)).
Proof.
  intros [gc Hgc]%elem_of_dom nb. unfold Numeric.AStar.relax_neighbor. fold nb.
  destruct (in_bounds grid nb) eqn:Hin; cbn [negb];
    [|left; split; [done|]; intros [? _]; congruence].
  destruct (cell_in_bounds grid nb Hrect Hin) as [x Hx]. rewrite Hx.
  destruct (Z.eqb_spec x 1) as [->|Hx1];
    [left; split; [done|]; intros (_ & y & ? & ?); congruence|].
  rewrite Hgc.
  assert (free grid nb) as Hfree by (split; eauto).
  destruct (Numeric.AStar.g_score st !! nb) as [gn|] eqn:Hnb.
  - destruct (Z.ltb_spec (gc + 1) gn).
    + right. eexists gc, _. repeat split; eauto.
    + left. split; [done|]. intros _. apply elem_of_dom. eauto.
  - right. eexists gc, _. repeat split; eauto.
Qed.

Lemma numeric_relax_neighbor_inv open current d st :
  inv open st → current ∈ scored st → d ∈ directions →
  ∃ st', Numeric.AStar.relax_neighbor self goal grid current d st = Returns st'
         ∧ inv open st'
         ∧ scored st ⊆ scored st'
         ∧ Numeric.AStar.visited st' = Numeric.AStar.visited st
         ∧ (free grid (move current d) → move current d ∈ scored st')
         ∧ (measure st' ≤ measure st)%nat.
Proof.
  intros Hinv Hcur Hd.
  destruct (numeric_relax_neighbor_cases current d st Hcur)
    as [[Heq Hfree]|(gc & st' & Hgc & Hfree & Hnb & Heq & Hg & Hv & Ho)].
  { exists st. by split_and!. }
  set (nb := move current d) in *.
  assert (scored st' = {[nb]} ∪ scored st) as Hdom
    by (rewrite Hg; apply dom_insert_L).
  assert (reachable grid start nb) as Hreach.
  { eapply rtc_r; [by apply (ninv_reach Hinv)|]. by apply move_step. }
  pose proof (ninv_range Hinv _ _ Hgc) as Hgcr.
  assert (inv open st') as Hinv'.
  { split.
    - rewrite Hdom. apply elem_of_union_r, (ninv_start Hinv).
    - intros f g n. rewrite Ho, Hdom. destruct (decide _).
      + intros ?%(ninv_open Hinv). set_solver.
      + intros [?|?%(ninv_open Hinv)]%numeric_elem_of_heappush; [simplify_eq|];
          set_solver.
    - intros n. rewrite Hdom.
      intros [->%elem_of_singleton|?]%elem_of_union;
        [done|by apply (ninv_reach Hinv)].
    - rewrite Hv, Hdom. pose proof (ninv_visited Hinv). set_solver.
    - intros n m. rewrite Hv, Hdom. intros Hn Hno Hs.
      apply elem_of_union_r. by eapply (ninv_closed Hinv).
    - intros n. rewrite Hdom, Hv, Ho.
      intros [->%elem_of_singleton|Hn]%elem_of_union.
      + destruct (decide _); [by left|]. right.
        eexists _, _. apply numeric_elem_of_heappush. by left.
      + apply (ninv_pending Hinv) in Hn as [?|(f & g & ?)]; [by left|]. right.
        exists f, g. destruct (decide _); [done|].
        apply numeric_elem_of_heappush. by right.
    - rewrite Hv. apply (ninv_goal Hinv).
    - intros n g. rewrite Hdom, Hg.
      destruct (decide (n = nb)) as [->|Hne].
      + rewrite lookup_insert_eq. intros [= <-].
        destruct Hnb as [Hnone|(gn & Hgn & Hlt)].
        * rewrite size_union by (apply not_elem_of_dom in Hnone; set_solver).
          rewrite size_singleton. lia.
        * pose proof (ninv_range Hinv _ _ Hgn).
          replace ({[nb]} ∪ scored st) with (scored st); [lia|].
          assert (nb ∈ scored st) by (apply elem_of_dom; eauto). set_solver.
      + rewrite lookup_insert_ne by done. intros Hn.
        pose proof (ninv_range Hinv _ _ Hn).
        assert (size (scored st) ≤ size ({[nb]} ∪ scored st))%nat
          by (apply subseteq_size; set_solver).
        lia. }
  exists st'. split_and!; try done.
  - rewrite Hdom. set_solver.
  - intros _. rewrite Hdom. set_solver.
  - unfold numeric_astar_measure.
    assert (length (Numeric.AStar.open_set st') ≤ S (length (Numeric.AStar.open_set st)))%nat.
    { rewrite Ho. destruct (decide _); [lia|]. by rewrite numeric_length_heappush. }
    assert (sum_list_with (numeric_astar_weight start grid st')
              (elements (astar_cells start grid))
            < sum_list_with (numeric_astar_weight start grid st)
                (elements (astar_cells start grid)))%nat; [|lia].
    apply (sum_list_with_lower _ _ _ nb).
    + by apply elem_of_elements, numeric_reachable_astar_cells.
    + unfold numeric_astar_weight. rewrite Hg, lookup_insert_eq.
      destruct Hnb as [->|(gn & -> & Hlt)]; [|lia].
      assert (Numeric.AStar.g_score st' !! nb = Some (gc + 1)) as Hlk
        by (rewrite Hg; apply lookup_insert_eq).
      pose proof (ninv_range Hinv' _ _ Hlk) as Hr.
      assert (size (scored st') ≤ size (astar_cells start grid))%nat.
      { apply subseteq_size. intros n Hn.
        by apply numeric_reachable_astar_cells, (ninv_reach Hinv'). }
      lia.
    + intros n Hne. unfold numeric_astar_weight.
      by rewrite Hg, lookup_insert_ne.
Qed.
Lemma numeric_relax_inv open current dirs st :
  inv open st → current ∈ scored st → dirs ⊆ directions →
  ∃ st', Numeric.AStar.relax self goal grid current dirs st = Returns st'
         ∧ inv open st'
         ∧ scored st ⊆ scored st'
         ∧ Numeric.AStar.visited st' = Numeric.AStar.visited st
         ∧ (∀ d, d ∈ dirs → free grid (move current d) →
                 move current d ∈ scored st')
         ∧ (measure st' ≤ measure st)%nat.
Proof.
  revert st. induction dirs as [|d dirs IH]; intros st Hinv Hcur Hdirs.
  { exists st. split_and!; try done. by intros d ?%elem_of_nil. }
  destruct (numeric_relax_neighbor_inv open current d st Hinv Hcur)
    as (st1 & Heq1 & Hinv1 & Hdom1 & Hv1 & Hd1 & Hm1); [set_solver|].
  destruct (IH st1 Hinv1) as (st' & Heq & Hinv' & Hdom & Hv & Hds & Hm);
    [set_solver..|].
  exists st'. cbn [Numeric.AStar.relax]. rewrite Heq1. split_and!; try done.
  - set_solver.
  - congruence.
  - intros d' [->|Hd']%elem_of_cons Hfree; [|by apply Hds].
    by apply Hdom, Hd1.
  - lia.
Qed.

(** When the open set is empty, every cell in reach has been visited. *)
Lemma numeric_inv_exhausted st n :
  inv ∅ st → Numeric.AStar.open_set st = [] → reachable grid start n →
  n ∈ Numeric.AStar.visited st.
Proof.
  intros Hinv Hopen Hr.
  assert (∀ m, m ∈ scored st → m ∈ Numeric.AStar.visited st) as Hall.
  { intros m [?|(f & g & Hin)]%(ninv_pending Hinv); [done|].
    rewrite Hopen in Hin. by apply elem_of_nil in Hin. }
  apply Hall. revert n Hr. apply (rtc_ind_r (λ n, n ∈ scored st)).
  - apply (ninv_start Hinv).
  - intros b c _ Hs IH.
    eapply (ninv_closed Hinv); [apply Hall, IH|set_solver|done].
Qed.

(** One iteration of the [while] loop that pops a node other than the
    goal: the [for] loop ends normally, the invariant holds again and the
    measure has decreased. *)
Lemma numeric_search_step st f g current rest :
  inv ∅ st → Numeric.AStar.open_set st = (f, g, current) :: rest → current ≠ goal →
  ∃ st', Numeric.AStar.relax self goal grid current directions
           {| Numeric.AStar.open_set := rest;
              Numeric.AStar.came_from := Numeric.AStar.came_from st;
              Numeric.AStar.g_score := Numeric.AStar.g_score st;
              Numeric.AStar.f_score := Numeric.AStar.f_score st;
              Numeric.AStar.visited := Numeric.AStar.visited st ∪ {[current]};
              Numeric.AStar.expanded := Numeric.AStar.expanded st + 1 |}
         = Returns st'
         ∧ inv ∅ st' ∧ (measure st' < measure st)%nat.
Proof.
  intros Hinv Hopen Hne.
  assert (current ∈ scored st) as Hcur.
  { apply (ninv_open Hinv f g). rewrite Hopen. set_solver. }
  set (st1 := Numeric.AStar.Build_state _ _ _ _ _ _).
  assert (inv {[current]} st1) as Hinv1.
  { split; try apply Hinv; simpl.
    - intros f' g' n Hin. apply (ninv_open Hinv f' g'). rewrite Hopen.
      set_solver.
    - pose proof (ninv_visited Hinv). set_solver.
    - intros n m Hn Hno. apply (ninv_closed Hinv); set_solver.
    - intros n [Hn|(f' & g' & Hin)]%(ninv_pending Hinv); [set_solver|].
      rewrite Hopen in Hin.
      apply elem_of_cons in Hin as [?|?]; [simplify_eq; set_solver|eauto].
    - pose proof (ninv_goal Hinv). set_solver. }
  destruct (numeric_relax_inv {[current]} current directions st1 Hinv1)
    as (st' & Heq & Hinv' & Hdom & Hv & Hds & Hm); [done..|].
  exists st'. split_and!; [done| |].
  - split; try apply Hinv'.
    intros n m Hn _ Hs. destruct (decide (n = current)) as [->|Hnc].
    + destruct Hs as [(d & Hd & ->) Hfree]. by apply Hds.
    + apply (ninv_closed Hinv' n); [done|set_solver|done].
  - assert (measure st1 < measure st)%nat; [|lia].
    unfold numeric_astar_measure, numeric_astar_weight. rewrite Hopen. simpl. lia.
Qed.

(** Whatever the fuel, an answer of the loop is a boolean, and it is
    whether the goal is in reach. *)
Lemma numeric_search_loop_sound fuel st a n :
  inv ∅ st → Numeric.AStar.search_loop self goal grid fuel st = Some (a, n) →
  ∃ b, a = Returns b ∧ (b = true ↔ reachable grid start goal).
Proof.
  revert st. induction fuel as [|fuel IH]; intros st Hinv H; [done|].
  cbn [Numeric.AStar.search_loop] in H.
  destruct (Numeric.AStar.open_set st) as [|[[f g] current] rest] eqn:Hopen;
    cbn [Numeric.AStar.heappop] in H.
  { simplify_eq. exists false. split; [done|]. split; [done|].
    intros Hr%(numeric_inv_exhausted st); [|done..]. by apply (ninv_goal Hinv) in Hr. }
  destruct (decide (current = goal)) as [->|Hne].
  { simplify_eq. exists true. split; [done|]. split; [|done].
    intros _. apply (ninv_reach Hinv), (ninv_open Hinv f g).
    rewrite Hopen. set_solver. }
  destruct (numeric_search_step st f g current rest Hinv Hopen Hne)
    as (st' & Heq & Hinv' & _).
  rewrite Heq in H. by eapply IH.
Qed.

Lemma numeric_search_loop_terminates fuel st :
  inv ∅ st → (measure st < fuel)%nat →
  is_Some (Numeric.AStar.search_loop self goal grid fuel st).
Proof.
  revert st. induction fuel as [|fuel IH]; intros st Hinv Hfuel; [lia|].
  cbn [Numeric.AStar.search_loop].
  destruct (Numeric.AStar.open_set st) as [|[[f g] current] rest] eqn:Hopen;
    cbn [Numeric.AStar.heappop]; [done|].
  destruct (decide (current = goal)) as [->|Hne]; [done|].
  destruct (numeric_search_step st f g current rest Hinv Hopen Hne)
    as (st' & Heq & Hinv' & Hm).
  rewrite Heq. apply IH; [done|lia].
Qed.

Lemma numeric_initial_inv : inv ∅ (Numeric.AStar.initial self start goal).
Proof.
  split; simpl.
  - set_solver.
  - intros f g n ?%list_elem_of_singleton. simplify_eq. set_solver.
  - intros n Hn. rewrite dom_singleton_L in Hn.
    apply elem_of_singleton in Hn as ->. apply rtc_refl.
  - set_solver.
  - set_solver.
  - intros n Hn. rewrite dom_singleton_L in Hn.
    apply elem_of_singleton in Hn as ->. right. eexists _, _. by left.
  - set_solver.
  - intros n g [-> <-]%lookup_singleton_Some.
    rewrite dom_singleton_L, size_singleton. lia.
Qed.

Lemma numeric_initial_measure :
  (measure (Numeric.AStar.initial self start goal) < astar_fuel_bound start grid)%nat.
Proof.
  unfold numeric_astar_measure, astar_fuel_bound.
  pose proof (sum_list_with_bound
    (numeric_astar_weight start grid (Numeric.AStar.initial self start goal))
    (elements (astar_cells start grid)) (size (astar_cells start grid))) as Hb.
  assert (length (elements (astar_cells start grid))
          = size (astar_cells start grid)) as Hlen by done.
  rewrite Hlen in Hb. simpl length.
  assert (sum_list_with
            (numeric_astar_weight start grid (Numeric.AStar.initial self start goal))
            (elements (astar_cells start grid))
          ≤ size (astar_cells start grid) * size (astar_cells start grid))%nat;
    [|lia].
  apply Hb. intros n Hn. unfold numeric_astar_weight. simpl.
  destruct (decide (n = start)) as [->|Hne].
  - rewrite lookup_singleton_eq. simpl. lia.
  - rewrite lookup_singleton_ne by done. done.
Qed.

(** On a rectangular grid [search] returns, and it returns whether the
    goal is in reach. *)
Lemma numeric_astar_search_decides :
  ∃ b, (b = true ↔ reachable grid start goal)
     ∧ (∀ fuel, (astar_fuel_bound start grid ≤ fuel)%nat →
          ∃ n, Numeric.AStar.search self start goal grid fuel = Some (Returns b, n))
     ∧ (∀ fuel a n, Numeric.AStar.search self start goal grid fuel = Some (a, n) →
                    a = Returns b).
Proof.
  assert (∀ fuel a n b,
            Numeric.AStar.search self start goal grid fuel = Some (a, n) →
            (b = true ↔ reachable grid start goal) → a = Returns b) as Huniq.
  { intros fuel a n b H Hb.
    apply numeric_search_loop_sound in H as (b' & -> & Hb'); [|apply numeric_initial_inv].
    by rewrite (bool_same_iff _ _ _ Hb Hb'). }
  destruct (numeric_search_loop_terminates (astar_fuel_bound start grid)
              (Numeric.AStar.initial self start goal) numeric_initial_inv numeric_initial_measure)
    as [[a n] Ha].
  pose proof Ha as Ha'.
  apply numeric_search_loop_sound in Ha' as (b & -> & Hb); [|apply numeric_initial_inv].
  exists b. split_and!; [done| |].
  - intros fuel Hfuel.
    destruct (numeric_search_loop_terminates fuel (Numeric.AStar.initial self start goal))
      as [[a' n'] Ha']; [apply numeric_initial_inv|pose proof numeric_initial_measure; lia|].
    exists n'. unfold Numeric.AStar.search. rewrite Ha'.
    by rewrite (Huniq fuel a' n' b Ha' Hb).
  - intros fuel a' n' Ha'. by eapply Huniq.
Qed.
End numeric_astar_facts.

(** ** The searches with integer values inside the searches on numbers *)

Lemma numeric_explore_int_valued grid rec rec' node g t dirs m v :
  (∀ n g v, rec' n g (PInt t) v = outcome_of_int <$> rec n g t v) →
  Numeric.explore grid rec' node g (PInt t) dirs (num_of_int m) v
  = outcome_of_int <$> explore grid rec node g t dirs m v.
Proof.
  intros Hrec. revert m v.
  induction dirs as [|d dirs IH]; intros m v;
    cbn [Numeric.explore explore]; [by destruct m as [z|]|].
  destruct (negb _); [done|].
  destruct (cell _ _); [|done].
  destruct (_ =? 1); [done|].
  destruct (decide _); [done|].
  rewrite Hrec.
  destruct (rec _ _ _ _) as [[[[|r] v']|e]|]; simpl; try done.
  destruct (decide _); [|done]. by rewrite py_min_num.
Qed.

Lemma numeric_dfs_search_int_valued goal grid h fuel node g t v :
  Numeric.dfs_search goal grid (int_valued h) fuel node g (PInt t) v
  = outcome_of_int <$> dfs_search goal grid h fuel node g t v.
Proof.
  revert node g v.
  induction fuel as [|fuel IH]; intros node g v; [done|].
  cbn [Numeric.dfs_search dfs_search]. unfold int_valued at 1.
  cbn [py_add]. rewrite py_lt_int, <- Z.gtb_ltb.
  destruct (_ >? _); [done|].
  destruct (decide _); [done|].
  by apply (numeric_explore_int_valued grid _ _ node g t directions Inf).
Qed.

Lemma numeric_ida_loop_int_valued s goal grid h iters depth t :
  Numeric.ida_loop s goal grid (int_valued h) iters depth (PInt t)
  = ida_loop s goal grid h iters depth t.
Proof.
  revert t. induction iters as [|iters IH]; intros t; [done|].
  cbn [Numeric.ida_loop ida_loop]. rewrite numeric_dfs_search_int_valued.
  destruct (dfs_search _ _ _ _ _ _ _ _) as [[[[|[r|]] v']|e]|]; simpl; done.
Qed.

(** For a heuristic with integer values the search on numbers is the
    search on integers. *)
Lemma numeric_ida_star_int_valued s goal grid h fuel :
  Numeric.ida_star s goal grid (int_valued h) fuel
  = ida_star s goal grid h fuel.
Proof. apply numeric_ida_loop_int_valued. Qed.

Lemma numeric_item_ltb_int x y :
  Numeric.AStar.item_ltb (item_of_int x) (item_of_int y) = AStar.item_ltb x y.
Proof.
  destruct x as [[fa ga] [ra ca]], y as [[fb gb] [rb cb]].
  unfold item_of_int. simpl. rewrite py_eq_int, py_lt_int.
  destruct (Z.eqb_spec fa fb) as [->|Hne].
  - by rewrite Z.ltb_irrefl.
  - by rewrite orb_false_r.
Qed.

Lemma numeric_heappush_int heap x :
  Numeric.AStar.heappush (item_of_int <$> heap) (item_of_int x)
  = item_of_int <$> AStar.heappush heap x.
Proof.
  induction heap as [|y heap IH]; [done|].
  cbn [fmap list_fmap Numeric.AStar.heappush AStar.heappush].
  rewrite numeric_item_ltb_int. destruct (AStar.item_ltb x y); [done|].
  cbn [fmap list_fmap] in *. by rewrite IH.
Qed.

Lemma numeric_relax_neighbor_int self goal grid current d st :
  Numeric.AStar.relax_neighbor (astar_of_int self) goal grid current d
    (state_of_int st)
  = match AStar.relax_neighbor self goal grid current d st with
    | Returns st' => Returns (state_of_int st')
    | Raises e => Raises e
    end.
Proof.
  unfold Numeric.AStar.relax_neighbor, AStar.relax_neighbor.
  destruct (negb _); [done|].
  destruct (cell _ _); [|done].
  destruct (_ =? 1); [done|].
  cbn [state_of_int Numeric.AStar.g_score Numeric.AStar.visited
       Numeric.AStar.open_set Numeric.AStar.came_from Numeric.AStar.f_score
       Numeric.AStar.expanded astar_of_int Numeric.AStar.heuristic].
  destruct (AStar.g_score st !! current) as [gc|]; [|done].
  destruct (match AStar.g_score st !! move current d with
            | Some g_neighbor => gc + 1 <? g_neighbor
            | None => true
            end); [|done].
  f_equal. unfold state_of_int. simpl. unfold int_valued. simpl.
  f_equal.
  - destruct (decide _); [done|].
    by rewrite <- numeric_heappush_int.
  - by rewrite fmap_insert.
Qed.

Lemma numeric_relax_int self goal grid current dirs st :
  Numeric.AStar.relax (astar_of_int self) goal grid current dirs
    (state_of_int st)
  = match AStar.relax self goal grid current dirs st with
    | Returns st' => Returns (state_of_int st')
    | Raises e => Raises e
    end.
Proof.
  revert st. induction dirs as [|d dirs IH]; intros st; [done|].
  cbn [Numeric.AStar.relax AStar.relax]. rewrite numeric_relax_neighbor_int.
  destruct (AStar.relax_neighbor _ _ _ _ _ _); [apply IH|done].
Qed.

Lemma numeric_search_loop_int self goal grid fuel st :
  Numeric.AStar.search_loop (astar_of_int self) goal grid fuel
    (state_of_int st)
  = AStar.search_loop self goal grid fuel st.
Proof.
  revert st. induction fuel as [|fuel IH]; intros st; [done|].
  cbn [Numeric.AStar.search_loop AStar.search_loop].
  cbn [state_of_int Numeric.AStar.open_set Numeric.AStar.expanded].
  destruct (AStar.open_set st) as [|[[f g] current] rest]; [done|].
  cbn [fmap list_fmap Numeric.AStar.heappop AStar.heappop item_of_int fst snd].
  destruct (decide _); [done|].
  cbn [Numeric.AStar.came_from Numeric.AStar.g_score Numeric.AStar.f_score
       Numeric.AStar.visited].
  rewrite <- (IH _) || idtac.
  match goal with
  | |- context [Numeric.AStar.relax _ _ _ _ _ ?s] =>
      change s with
        (state_of_int
           {| AStar.open_set := rest;
              AStar.came_from := AStar.came_from st;
              AStar.g_score := AStar.g_score st;
              AStar.f_score := AStar.f_score st;
              AStar.visited := AStar.visited st ∪ {[current]};
              AStar.expanded := AStar.expanded st + 1 |})
  end.
  rewrite numeric_relax_int.
  destruct (AStar.relax _ _ _ _ _ _); [apply IH|done].
Qed.

(** For a heuristic with integer values the reference search on numbers
    is the reference search on integers. *)
Lemma numeric_astar_search_int_valued self s goal grid fuel :
  Numeric.AStar.search (astar_of_int self) s goal grid fuel
  = AStar.search self s goal grid fuel.
Proof.
  unfold Numeric.AStar.search, AStar.search.
  rewrite <- numeric_search_loop_int. f_equal.
  unfold Numeric.AStar.initial, AStar.initial, state_of_int. simpl.
  f_equal. by rewrite map_fmap_singleton.
Qed.

(** ** Finite f-costs *)

Lemma finite_costs_check start goal grid heuristic :
  forallb is_finite (costs start goal grid heuristic) = true →
  finite_costs start goal grid heuristic.
Proof.
  intros H c Hc. rewrite forallb_forall in H. apply H.
  by apply list_elem_of_In.
Qed.

Lemma finite_costs_int_valued start goal grid (h : Coord → Coord → Z) :
  finite_costs start goal grid (int_valued h).
Proof.
  intros c (g & (n & ->%list_elem_of_singleton & _)%list_elem_of_bind & _)
    %list_elem_of_bind.
  done.
Qed.

(** * Main results *)

(** C1. On a rectangular grid, for in-bounds non-blocked [s] and [g],
    [ida_star] returns true if and only if a 4-directionally connected,
    obstacle-free path leads from [s] to [g] ([s = g] being the trivial
    path). The boolean [b] is fixed by the grid alone: every heuristic [h]
    whose f-costs are finite numbers, with integers or with floats for
    values, gives [b] once the fuel reaches [numeric_fuel_bound], and no
    amount of fuel gives anything else. The f-costs of a heuristic with
    integer values are finite. *)
Theorem ida_star_true_iff_path (G : Grid) (s g : Coord) :
  rectangular G → free G s → free G g →
  ∃ b : bool,
    (b = true ↔ path_exists G s g)
    ∧ (∀ h : Coord → Coord → pynum,
         finite_costs s g G h →
         (∀ fuel, (numeric_fuel_bound G ≤ fuel)%nat →
                  Numeric.ida_star s g G h fuel = Some (Returns b))
         ∧ (∀ fuel a, Numeric.ida_star s g G h fuel = Some a →
                      a = Returns b))
    ∧ (∀ h : Coord → Coord → Z, finite_costs s g G (int_valued h)).
Proof.
  intros Hrect Hs Hg.
  destruct (numeric_ida_star_decides s g G (int_valued manhattan) Hrect
              (finite_costs_int_valued s g G manhattan)) as (b & Hb & _).
  exists b. split_and!.
  - by rewrite path_exists_reachable.
  - intros h Hfin.
    destruct (numeric_ida_star_decides s g G h Hrect Hfin)
      as (b' & Hb' & Hfuel & Hany).
    by rewrite <- (bool_same_iff _ _ _ Hb Hb').
  - intros h. apply finite_costs_int_valued.
Qed.

(** C2, as it holds. On a rectangular grid [ida_star] terminates for every
    start and goal and for every heuristic, whatever numbers it returns,
    integers or floats: with [numeric_fuel_bound] iterations and recursion
    depth it has returned a boolean, true (Found) or false (Exhausted). It
    returns false whenever the goal cannot be reached from the start by
    moves into free cells; for a start that is not blocked this is whenever
    no connecting free path exists. *)
Theorem ida_star_terminates_with_answer (G : Grid) (s g : Coord)
    (h : Coord → Coord → pynum) :
  rectangular G →
  ∃ b : bool,
    (∀ fuel, (numeric_fuel_bound G ≤ fuel)%nat →
             Numeric.ida_star s g G h fuel = Some (Returns b))
    ∧ (∀ fuel a, Numeric.ida_star s g G h fuel = Some a → a = Returns b)
    ∧ (¬ reachable G s g → b = false)
    ∧ (free G s → ¬ path_exists G s g → b = false).
Proof.
  intros Hrect.
  destruct (numeric_ida_star_answers s g G h Hrect) as (b & Hb & Hfuel & Hany).
  assert (¬ reachable G s g → b = false) as Hno.
  { intros Hno. destruct b; [|done]. exfalso. by apply Hno, Hb. }
  exists b. split_and!; [done..|].
  intros Hs Hpath. apply Hno. by rewrite <- path_exists_reachable.
Qed.

(** C2 as stated fails for a blocked start: on the grid [[1,0]] no free
    path leads from the blocked cell (0,0) to (0,1), and the search from
    (0,0) to (0,1) returns true. *)
Lemma blocked_start_returns_true_without_free_path :
  rectangular [[1; 0]]
  ∧ in_bounds [[1; 0]] (0, 0) = true ∧ in_bounds [[1; 0]] (0, 1) = true
  ∧ ¬ path_exists [[1; 0]] (0, 0) (0, 1)
  ∧ ida_star (0, 0) (0, 1) [[1; 0]] manhattan 3 = Some (Returns true).
Proof.
  split; [repeat constructor|]. split_and!; [done..| |].
  - intros (p & Hh & _ & Hf & _). destruct p as [|a p]; simplify_eq/=.
    apply Forall_cons in Hf as [(_ & x & Hx & Hx1) _].
    vm_compute in Hx. congruence.
  - vm_compute. reflexivity.
Qed.

(** C3. Every finite value that [dfs_search] returns when run with
    threshold [t] is strictly greater than [t]: it is the least f-cost above
    [t] among the calls made, the call itself included. Hence the assignment
    [threshold = result], by which the loop goes on from such a value,
    strictly increases the threshold. *)
Theorem threshold_strictly_increases (s goal : Coord) (G : Grid)
    (h : Coord → Coord → Z) :
  (∀ fuel node g_cost t visited r visited',
     dfs_search goal G h fuel node g_cost t visited
       = Some (Returns (Num (Fin r), visited')) →
     t < r
     ∧ (∃ c, rtc (subcall goal G h t) (Call fuel node g_cost visited) c
             ∧ f_cost goal h c = r)
     ∧ (∀ c, rtc (subcall goal G h t) (Call fuel node g_cost visited) c →
             t < f_cost goal h c → r ≤ f_cost goal h c))
  ∧ (∀ iters depth t r visited',
       dfs_search goal G h depth s 0 t {[s]}
         = Some (Returns (Num (Fin r), visited')) →
       ida_loop s goal G h (S iters) depth t = ida_loop s goal G h iters depth r
       ∧ t < r).
Proof.
  split.
  - intros fuel node g_cost t visited r visited' H. split_and!.
    + by eapply dfs_exceeds.
    + by eapply dfs_min_attained.
    + intros c Hc Hf. by apply (dfs_min_lower _ _ _ _ _ _ _ _ _ _ _ H Hc Hf).
  - intros iters depth t r visited' H. split.
    + cbn [ida_loop]. by rewrite H.
    + by eapply dfs_exceeds.
Qed.

(** C4, as it holds. A call of [dfs_search] that is not pruned, at a node
    other than the goal all of whose 4-neighbors are out of bounds, blocked
    or in the visited set, returns +infinity and leaves the visited set
    alone. The loop returns false in the iteration whose
    top-level call returns +infinity; on a finite bound it does not return
    but goes on with that bound as threshold; and it returns false only
    after some top-level call returned +infinity. *)
Theorem dead_end_returns_infinity :
  (∀ goal G h fuel node g_cost t visited,
     g_cost + h node goal ≤ t → node ≠ goal →
     (∀ d, d ∈ directions → ineligible G visited (move node d)) →
     dfs_search goal G h (S fuel) node g_cost t visited
     = Some (Returns (Num Inf, visited)))
  ∧ (∀ s goal G h iters depth t visited',
       dfs_search goal G h depth s 0 t {[s]} = Some (Returns (Num Inf, visited')) →
       ida_loop s goal G h (S iters) depth t = Some (Returns false))
  ∧ (∀ s goal G h iters depth t r visited',
       dfs_search goal G h depth s 0 t {[s]}
         = Some (Returns (Num (Fin r), visited')) →
       ida_loop s goal G h (S iters) depth t = ida_loop s goal G h iters depth r)
  ∧ (∀ s goal G h iters depth t,
       ida_loop s goal G h iters depth t = Some (Returns false) →
       ∃ t' visited', t ≤ t' ∧
         dfs_search goal G h depth s 0 t' {[s]}
         = Some (Returns (Num Inf, visited'))).
Proof.
  repeat split.
  - intros goal G h fuel node g_cost t visited Hf Hne Hno.
    cbn [dfs_search]. replace (_ >? _) with false by lia.
    rewrite decide_False by done. by apply explore_ineligible.
  - intros s goal G h iters depth t visited' H. cbn [ida_loop]. by rewrite H.
  - intros s goal G h iters depth t r visited' H. cbn [ida_loop]. by rewrite H.
  - intros s goal G h iters depth t. apply ida_loop_false_inv.
Qed.

(** C4 as stated fails for a call that is pruned: on the grid [[0,0,0]]
    with goal (0,0), the call at (0,2) made from the start (0,1) with cost 1
    and threshold 1 has no eligible neighbor (three are out of bounds and
    (0,1) is in the visited set), and it returns its f-cost 3, not
    +infinity. *)
Lemma pruned_dead_end_returns_f_cost :
  rectangular [[0; 0; 0]]
  ∧ active (0, 1) (0, 0) [[0; 0; 0]] manhattan 1 [(0, 2); (0, 1)]
           (Call 1 (0, 2) 1 {[(0, 1); (0, 2)]})
  ∧ (∀ d, d ∈ directions →
          ineligible [[0; 0; 0]] {[(0, 1); (0, 2)]} (move (0, 2) d))
  ∧ dfs_search (0, 0) [[0; 0; 0]] manhattan 1 (0, 2) 1 1 {[(0, 1); (0, 2)]}
    = Some (Returns (Num (Fin 3), {[(0, 1); (0, 2)]}))
  ∧ dfs_search (0, 0) [[0; 0; 0]] manhattan 1 (0, 2) 1 1 {[(0, 1); (0, 2)]}
    ≠ Some (Returns (Num Inf, {[(0, 1); (0, 2)]})).
Proof.
  split; [repeat constructor|]. split.
  { apply (active_sub (0, 1) (0, 0) [[0; 0; 0]] manhattan 1 [(0, 1)]
             (Call 2 (0, 1) 0 {[(0, 1)]})
             (Call 1 (0, 2) 1 {[(0, 1); (0, 2)]})); [apply active_top|].
    apply (subcall_neighbor (0, 0) [[0; 0; 0]] manhattan 1 1 (0, 1) 0
             {[(0, 1)]} [] (0, 1) [(1, 0); (0, -1); (-1, 0)] Inf
             {[(0, 1)]} 0); try reflexivity; discriminate. }
  split.
  - intros d Hd. unfold directions in Hd.
    rewrite !elem_of_cons, elem_of_nil in Hd.
    destruct Hd as [->|[->|[->|[->|[]]]]]; try (by left).
    right. right. split; [by eexists|set_solver].
  - split; [done|]. by intros [=].
Qed.

(** C5, as it holds. At the entry of every call of [dfs_search] made during
    an outer iteration, the visited set is exactly the set of the nodes on
    the recursion path of that call, which starts at [s], repeats no node
    and ends at the node of the call. The loop of a call adds a neighbor
    before it calls into it and has the visited set back at its entry value
    whenever it goes on to the next neighbor; a call that returns a number
    leaves the visited set as it found it. A call that returns FOUND leaves
    the nodes it added in the set: they are the nodes of a walk from its
    node to the goal, the neighbors through which FOUND came back, none of
    which is removed. *)
Theorem visited_is_recursion_path (s goal : Coord) (G : Grid)
    (h : Coord → Coord → Z) :
  (∀ t path c,
     active s goal G h t path c →
     call_visited c = list_to_set path ∧ NoDup path
     ∧ head path = Some (call_node c) ∧ last path = Some s)
  ∧ (∀ fuel node g_cost t ds min_exceed visited m' v1,
       explore G (dfs_search goal G h fuel) node g_cost t ds min_exceed visited
         = Some (Returns (Num m', v1)) → v1 = visited)
  ∧ (∀ fuel node g_cost t visited c visited',
       dfs_search goal G h fuel node g_cost t visited
         = Some (Returns (Num c, visited')) → visited' = visited)
  ∧ (∀ fuel node g_cost t visited visited',
       dfs_search goal G h fuel node g_cost t visited
         = Some (Returns (FOUND, visited')) →
       ∃ p, trail G node p ∧ endpoint node p = goal ∧ NoDup p
            ∧ (∀ x, x ∈ p → x ∉ visited)
            ∧ visited' = visited ∪ list_to_set p).
Proof.
  repeat split.
  - by eapply active_visited.
  - by eapply active_visited.
  - by eapply active_visited.
  - by eapply active_visited.
  - intros fuel node g_cost t ds min_exceed visited m' v1 H.
    eapply explore_restores; [apply dfs_restores|exact H].
  - intros fuel node g_cost t visited c visited' H. by eapply dfs_restores.
  - intros fuel node g_cost t visited visited' H.
    apply dfs_found_path in H as (p & Hp & He & Hnd & Hav & Hv & _).
    by exists p.
Qed.

(** C5 as stated fails once FOUND is signalled: on the grid [[0,0]] the
    top-level call from (0,0) with goal (0,1) returns FOUND and leaves
    (0,1) in the visited set, although the call into (0,1) has returned and
    the recursion path of the top-level call is (0,0) alone. *)
Lemma found_leaves_neighbor_in_visited :
  active (0, 0) (0, 1) [[0; 0]] manhattan 1 [(0, 0)]
         (Call 2 (0, 0) 0 {[(0, 0)]})
  ∧ dfs_search (0, 1) [[0; 0]] manhattan 2 (0, 0) 0 1 {[(0, 0)]}
    = Some (Returns (FOUND, {[(0, 0); (0, 1)]}))
  ∧ ({[(0, 0); (0, 1)]} : gset Coord) ≠ list_to_set [(0, 0)].
Proof.
  split; [constructor|]. split.
  - vm_compute. reflexivity.
  - intros H. assert ((0, 1) ∈ (list_to_set [(0, 0)] : gset Coord)) as Hin
      by (rewrite <- H; set_solver).
    set_solver.
Qed.

(** C6, as it holds. On a rectangular grid, for every start and goal and
    for every heuristic whose f-costs are finite numbers, [ida_star] and
    [AStar.search] return the same boolean [b]: each returns [b] as soon as
    it has the fuel to finish, and neither returns anything else on any
    fuel. *)
Theorem ida_star_agrees_with_astar (G : Grid) (s g : Coord)
    (h : Coord → Coord → pynum) :
  rectangular G → finite_costs s g G h →
  ∃ b : bool,
    (∀ fuel, (numeric_fuel_bound G ≤ fuel)%nat →
             Numeric.ida_star s g G h fuel = Some (Returns b))
    ∧ (∀ fuel a, Numeric.ida_star s g G h fuel = Some a → a = Returns b)
    ∧ (∀ fuel expanded, (astar_fuel_bound s G ≤ fuel)%nat →
         ∃ n, Numeric.AStar.search
                {| Numeric.AStar.heuristic := h;
                   Numeric.AStar.nodes_expanded := expanded |}
                s g G fuel
              = Some (Returns b, n))
    ∧ (∀ fuel expanded a n,
         Numeric.AStar.search
           {| Numeric.AStar.heuristic := h;
              Numeric.AStar.nodes_expanded := expanded |}
           s g G fuel
         = Some (a, n) →
         a = Returns b).
Proof.
  intros Hrect Hfin.
  destruct (numeric_ida_star_decides s g G h Hrect Hfin)
    as (b & Hb & Hfuel & Hany).
  exists b. split_and!; [done..| |].
  - intros fuel expanded Hf.
    destruct (numeric_astar_search_decides
                {| Numeric.AStar.heuristic := h;
                   Numeric.AStar.nodes_expanded := expanded |}
                s g G Hrect) as (b' & Hb' & Hfuel' & _).
    rewrite <- (bool_same_iff _ _ _ Hb Hb'). by apply Hfuel'.
  - intros fuel expanded a n Ha.
    destruct (numeric_astar_search_decides
                {| Numeric.AStar.heuristic := h;
                   Numeric.AStar.nodes_expanded := expanded |}
                s g G Hrect) as (b' & Hb' & _ & Hany').
    rewrite <- (bool_same_iff _ _ _ Hb Hb'). by eapply Hany'.
Qed.

(** C6 as stated fails for a heuristic that returns [math.inf]: on the
    grid [[0,0,0]], from (0,0) to (0,2), the estimate of (0,1) being
    [math.inf], the only call that is pruned returns [math.inf] for its
    f-cost, which the loop of [ida_star] takes for an exhausted search:
    [ida_star] returns false and [AStar.search] returns true. *)
Lemma ida_star_disagrees_with_astar_on_infinite_estimate :
  rectangular [[0; 0; 0]]
  ∧ Numeric.ida_star (0, 0) (0, 2) [[0; 0; 0]] infinite_estimate 5
    = Some (Returns false)
  ∧ Numeric.AStar.search (Numeric.AStar.init infinite_estimate)
      (0, 0) (0, 2) [[0; 0; 0]] 5
    = Some (Returns true, 3).
Proof.
  split; [repeat constructor|]. split; vm_compute; reflexivity.
Qed.

(** C7, as it holds. On a rectangular grid, for in-bounds [s] and [g] that
    are both blocked or both not blocked, and for every heuristic whose
    f-costs are finite numbers in both directions, [ida_star s g] and
    [ida_star g s] return the same boolean. *)
Theorem ida_star_symmetric (G : Grid) (s g : Coord)
    (h : Coord → Coord → pynum) :
  rectangular G → in_bounds G s = true → in_bounds G g = true →
  (blocked G s ↔ blocked G g) →
  finite_costs s g G h → finite_costs g s G h →
  ∃ b : bool,
    (∀ fuel, (numeric_fuel_bound G ≤ fuel)%nat →
             Numeric.ida_star s g G h fuel = Some (Returns b))
    ∧ (∀ fuel, (numeric_fuel_bound G ≤ fuel)%nat →
               Numeric.ida_star g s G h fuel = Some (Returns b)).
Proof.
  intros Hrect Hs Hg Hocc Hfin Hfin'.
  destruct (numeric_ida_star_decides s g G h Hrect Hfin)
    as (b & Hb & Hfuel & _).
  destruct (numeric_ida_star_decides g s G h Hrect Hfin')
    as (b' & Hb' & Hfuel' & _).
  assert (reachable G s g ↔ reachable G g s) as Hsym.
  { destruct (cell_in_bounds G s Hrect Hs) as [x Hx].
    destruct (cell_in_bounds G g Hrect Hg) as [y Hy].
    destruct (decide (x = 1)) as [->|Hx1].
    - assert (blocked G g) as Hbg by by apply Hocc.
      split; intros Hr.
      + apply reachable_blocked in Hr as ->; [apply rtc_refl|done].
      + apply reachable_blocked in Hr as ->; [apply rtc_refl|done].
    - assert (y ≠ 1) as Hy1.
      { intros ->. apply Hx1. assert (blocked G s) as Hbs by by apply Hocc.
        unfold blocked in Hbs. congruence. }
      split; apply reachable_reverse; split; eauto. }
  exists b. split; [done|].
  rewrite <- (bool_same_iff (reachable G s g) b b'); [done|done|].
  by rewrite Hsym.
Qed.

(** C7 as stated fails when exactly one of the two cells is blocked: on the
    grid [[1,0]] the search from the blocked cell (0,0) to (0,1) returns
    true, the search from (0,1) to (0,0) returns false. *)
Lemma ida_star_not_symmetric_blocked_start :
  rectangular [[1; 0]]
  ∧ in_bounds [[1; 0]] (0, 0) = true ∧ in_bounds [[1; 0]] (0, 1) = true
  ∧ ida_star (0, 0) (0, 1) [[1; 0]] manhattan 3 = Some (Returns true)
  ∧ ida_star (0, 1) (0, 0) [[1; 0]] manhattan 3 = Some (Returns false)
  ∧ ida_star (0, 0) (0, 1) [[1; 0]] manhattan 3
    ≠ ida_star (0, 1) (0, 0) [[1; 0]] manhattan 3.
Proof.
  split; [repeat constructor|].
  assert (ida_star (0, 0) (0, 1) [[1; 0]] manhattan 3 = Some (Returns true))
    as H1 by (vm_compute; reflexivity).
  assert (ida_star (0, 1) (0, 0) [[1; 0]] manhattan 3 = Some (Returns false))
    as H2 by (vm_compute; reflexivity).
  repeat split; [done..|]. rewrite H1, H2. by intros [=].
Qed.

(** C7 as stated fails when exactly one of the two cells is blocked, and
    it fails for a heuristic that returns [math.inf]. On the grid [[1,0]]
    the search from the blocked cell (0,0) to (0,1) returns true, the
    search from (0,1) to (0,0) returns false. On the grid [[0,0,0]], the
    estimate of (0,1) towards (0,2) being [math.inf], the search from
    (0,0) to (0,2) returns false, the search from (0,2) to (0,0) returns
    true. *)
Lemma search_direction_matters :
  (rectangular [[1; 0]]
   ∧ in_bounds [[1; 0]] (0, 0) = true ∧ in_bounds [[1; 0]] (0, 1) = true
   ∧ Numeric.ida_star (0, 0) (0, 1) [[1; 0]] (int_valued manhattan) 3
     = Some (Returns true)
   ∧ Numeric.ida_star (0, 1) (0, 0) [[1; 0]] (int_valued manhattan) 3
     = Some (Returns false))
  ∧ (rectangular [[0; 0; 0]]
     ∧ in_bounds [[0; 0; 0]] (0, 0) = true
     ∧ in_bounds [[0; 0; 0]] (0, 2) = true
     ∧ ¬ blocked [[0; 0; 0]] (0, 0) ∧ ¬ blocked [[0; 0; 0]] (0, 2)
     ∧ Numeric.ida_star (0, 0) (0, 2) [[0; 0; 0]] infinite_estimate 5
       = Some (Returns false)
     ∧ Numeric.ida_star (0, 2) (0, 0) [[0; 0; 0]] infinite_estimate 5
       = Some (Returns true)).
Proof.
  split.
  - split; [repeat constructor|]. split_and!; vm_compute; reflexivity.
  - split; [repeat constructor|].
    split_and!; try (vm_compute; reflexivity); by intros [=].
Qed.

(** C8. [manhattan a b] is [|a.row - b.row| + |a.col - b.col|], it is
    non-negative and symmetric, and it is admissible: it is at most the
    number of moves of every 4-directional path from [a] to [b], on every
    grid and whatever the obstacles. *)
Theorem manhattan_admissible (a b : Coord) :
  manhattan a b = Z.abs (a.1 - b.1) + Z.abs (a.2 - b.2)
  ∧ 0 ≤ manhattan a b
  ∧ manhattan a b = manhattan b a
  ∧ (∀ p, head p = Some a → last p = Some b → connected_cells p →
          manhattan a b ≤ len p - 1)
  ∧ (∀ G p, free_path G a b p → manhattan a b ≤ len p - 1).
Proof.
  assert (∀ p, head p = Some a → last p = Some b → connected_cells p →
               manhattan a b ≤ len p - 1) as Hadm.
  { intros p. revert a. induction p as [|c p IH]; intros a Hh Hl Hc; [done|].
    simpl in Hh. simplify_eq. destruct p as [|c' p].
    - simpl in Hl. simplify_eq. unfold manhattan, len. simpl. lia.
    - destruct Hc as [Hadj Hc]. rewrite last_cons_cons in Hl.
      specialize (IH c' eq_refl Hl Hc).
      unfold manhattan, adjacent, len in *. simpl length in *. lia. }
  repeat split; [unfold manhattan; lia..|done|].
  intros G p (Hh & Hl & _ & Hc). by apply Hadm.
Qed.

(** C9. [ida_star s s] returns true for every coordinate [s], heuristic and
    grid, as soon as one iteration is allowed: the first top-level call
    returns FOUND at once. It leaves the visited set at [{s}] and does so on
    every grid, the empty one and those whose cell reads would raise
    included, so no grid cell is read; [s] may be blocked or out of
    bounds. *)
Theorem ida_star_start_is_goal (s : Coord) (G : Grid) (h : Coord → Coord → Z)
    (fuel : nat) :
  ida_star s s G h (S fuel) = Some (Returns true)
  ∧ dfs_search s G h (S fuel) s 0 (h s s) {[s]} = Some (Returns (FOUND, {[s]})).
Proof.
  assert (dfs_search s G h (S fuel) s 0 (h s s) {[s]}
          = Some (Returns (FOUND, {[s]}))) as H.
  { cbn [dfs_search]. replace (0 + h s s >? h s s) with false by lia.
    by rewrite decide_True. }
  split; [|done]. unfold ida_star. cbn [ida_loop]. by rewrite H.
Qed.

(** C10. The result of [ida_star] does not depend on the occupancy of the
    start cell: on two grids that differ only in the value of the cell [s],
    the search from [s] gives the same outcome for every goal, heuristic
    and fuel. In particular a blocked start cell can yield true. *)
Theorem start_occupancy_irrelevant :
  (∀ (G G' : Grid) (s g : Coord) (h : Coord → Coord → Z) (fuel : nat),
     differ_only_at s G G' → ida_star s g G h fuel = ida_star s g G' h fuel)
  ∧ blocked [[1; 0]] (0, 0)
  ∧ ida_star (0, 0) (0, 1) [[1; 0]] manhattan 2 = Some (Returns true).
Proof.
  split.
  - intros G G' s g h fuel Hdiff. unfold ida_star.
    by apply ida_loop_start_cell.
  - split; [done|]. vm_compute. reflexivity.
Qed.

(** * The results at concrete inputs *)

(** C1 on [custom_grid], from the top-left to the bottom-right corner,
    with [euclidean] and with [manhattan]. *)
Lemma ida_star_true_iff_path_witness :
  ∃ b : bool,
    (b = true ↔ path_exists custom_grid (0, 0) (2, 2))
    ∧ (∀ fuel, (numeric_fuel_bound custom_grid ≤ fuel)%nat →
               Numeric.ida_star (0, 0) (2, 2) custom_grid euclidean fuel
               = Some (Returns b))
    ∧ (∀ fuel, (numeric_fuel_bound custom_grid ≤ fuel)%nat →
               Numeric.ida_star (0, 0) (2, 2) custom_grid
                 (int_valued manhattan) fuel
               = Some (Returns b)).
Proof.
  destruct (ida_star_true_iff_path custom_grid (0, 0) (2, 2))
    as (b & Hb & Hh & Hint).
  - repeat constructor.
  - split; [reflexivity|]. exists 0. split; [reflexivity|lia].
  - split; [reflexivity|]. exists 0. split; [reflexivity|lia].
  - exists b. split; [exact Hb|]. split.
    + apply (Hh euclidean). apply finite_costs_check.
      vm_compute. reflexivity.
    + apply (Hh (int_valued manhattan)). apply Hint.
Defined.

(** C2 on [test_grid], for the enclosed goal (3,1), with [euclidean]. *)
Lemma ida_star_terminates_with_answer_witness :
  ∃ b : bool,
    (∀ fuel, (numeric_fuel_bound test_grid ≤ fuel)%nat →
             Numeric.ida_star (0, 0) (3, 1) test_grid euclidean fuel
             = Some (Returns b))
    ∧ (∀ fuel a, Numeric.ida_star (0, 0) (3, 1) test_grid euclidean fuel
                 = Some a → a = Returns b)
    ∧ (¬ reachable test_grid (0, 0) (3, 1) → b = false)
    ∧ (free test_grid (0, 0) → ¬ path_exists test_grid (0, 0) (3, 1) →
       b = false).
Proof.
  apply (ida_star_terminates_with_answer test_grid (0, 0) (3, 1)
           euclidean).
  repeat constructor.
Defined.

(** C3 on [test_grid]: from (0,0) towards (2,0) the first threshold is 2 and
    the first top-level call returns 4. *)
Lemma threshold_strictly_increases_witness :
  (2 < 4
   ∧ (∃ c, rtc (subcall (2, 0) test_grid manhattan 2)
               (Call 30 (0, 0) 0 {[(0, 0)]}) c
           ∧ f_cost (2, 0) manhattan c = 4)
   ∧ (∀ c, rtc (subcall (2, 0) test_grid manhattan 2)
               (Call 30 (0, 0) 0 {[(0, 0)]}) c →
           2 < f_cost (2, 0) manhattan c → 4 ≤ f_cost (2, 0) manhattan c))
  ∧ ida_loop (0, 0) (2, 0) test_grid manhattan 3 30 2
    = ida_loop (0, 0) (2, 0) test_grid manhattan 2 30 4.
Proof.
  destruct (threshold_strictly_increases (0, 0) (2, 0) test_grid manhattan)
    as [Hcall Hloop].
  split.
  - apply (Hcall 30%nat (0, 0) 0 2 {[(0, 0)]} 4 {[(0, 0)]}).
    vm_compute. reflexivity.
  - apply (Hloop 2%nat 30%nat 2 4 {[(0, 0)]}). vm_compute. reflexivity.
Defined.

(** C4 on the grid [[0,1,0]]: the start (0,0) is boxed in, the top-level
    call returns +infinity and the loop returns false. *)
Lemma dead_end_returns_infinity_witness :
  dfs_search (0, 2) [[0; 1; 0]] manhattan 1 (0, 0) 0 2 {[(0, 0)]}
  = Some (Returns (Num Inf, {[(0, 0)]}))
  ∧ ida_loop (0, 0) (0, 2) [[0; 1; 0]] manhattan 1 1 2 = Some (Returns false).
Proof.
  destruct dead_end_returns_infinity as (Hdead & Hfalse & _ & _).
  assert (dfs_search (0, 2) [[0; 1; 0]] manhattan 1 (0, 0) 0 2 {[(0, 0)]}
          = Some (Returns (Num Inf, {[(0, 0)]}))) as H.
  { apply Hdead.
    - vm_compute. discriminate.
    - discriminate.
    - intros d Hd. unfold directions in Hd.
      rewrite !elem_of_cons, elem_of_nil in Hd.
      destruct Hd as [->|[->|[->|[->|[]]]]]; try (by left).
      right. by left. }
  split; [exact H|]. by apply (Hfalse _ _ _ _ 0%nat _ _ {[(0, 0)]}).
Defined.

(** C5 on the grid [[0,0,0]]: the call into (0,1) made by the top-level
    call from (0,0). *)
Lemma visited_is_recursion_path_witness :
  ({[(0, 0)]} ∪ {[move (0, 0) (0, 1)]} : gset Coord)
  = list_to_set [move (0, 0) (0, 1); (0, 0)]
  ∧ NoDup [move (0, 0) (0, 1); (0, 0)]
  ∧ head [move (0, 0) (0, 1); (0, 0)] = Some (move (0, 0) (0, 1))
  ∧ last [move (0, 0) (0, 1); (0, 0)] = Some (0, 0).
Proof.
  destruct (visited_is_recursion_path (0, 0) (0, 2) [[0; 0; 0]] manhattan)
    as (Hpath & _).
  assert (active (0, 0) (0, 2) [[0; 0; 0]] manhattan 2
            [move (0, 0) (0, 1); (0, 0)]
            (Call 1 (move (0, 0) (0, 1)) (0 + 1)
                  ({[(0, 0)]} ∪ {[move (0, 0) (0, 1)]}))) as Hactive.
  { apply (active_sub (0, 0) (0, 2) [[0; 0; 0]] manhattan 2 [(0, 0)]
             (Call 2 (0, 0) 0 {[(0, 0)]})
             (Call 1 (move (0, 0) (0, 1)) (0 + 1)
                   ({[(0, 0)]} ∪ {[move (0, 0) (0, 1)]}))).
    - apply active_top.
    - apply (subcall_neighbor (0, 2) [[0; 0; 0]] manhattan 2 1 (0, 0) 0
               {[(0, 0)]} [] (0, 1) [(1, 0); (0, -1); (-1, 0)] Inf
               {[(0, 0)]} 0).
      + reflexivity.
      + discriminate.
      + reflexivity.
      + reflexivity.
      + reflexivity.
      + reflexivity.
      + discriminate.
      + vm_compute. intros H. discriminate H. }
  exact (Hpath _ _ _ Hactive).
Defined.

(** C6 on [test_grid], from corner to corner, with [euclidean]. *)
Lemma ida_star_agrees_with_astar_witness :
  ∃ b : bool,
    (∀ fuel, (numeric_fuel_bound test_grid ≤ fuel)%nat →
             Numeric.ida_star (0, 0) (4, 4) test_grid euclidean fuel
             = Some (Returns b))
    ∧ (∀ fuel a, Numeric.ida_star (0, 0) (4, 4) test_grid euclidean fuel
                 = Some a → a = Returns b)
    ∧ (∀ fuel expanded, (astar_fuel_bound (0, 0)%Z test_grid ≤ fuel)%nat →
         ∃ n, Numeric.AStar.search
                {| Numeric.AStar.heuristic := euclidean;
                   Numeric.AStar.nodes_expanded := expanded |}
                (0, 0) (4, 4) test_grid fuel
              = Some (Returns b, n))
    ∧ (∀ fuel expanded a n,
         Numeric.AStar.search
           {| Numeric.AStar.heuristic := euclidean;
              Numeric.AStar.nodes_expanded := expanded |}
           (0, 0) (4, 4) test_grid fuel
         = Some (a, n) →
         a = Returns b).
Proof.
  apply (ida_star_agrees_with_astar test_grid (0, 0) (4, 4) euclidean).
  - repeat constructor.
  - apply finite_costs_check. vm_compute. reflexivity.
Defined.

(** C7 on [custom_grid], between two free corners, with [euclidean]. *)
Lemma ida_star_symmetric_witness :
  ∃ b : bool,
    (∀ fuel, (numeric_fuel_bound custom_grid ≤ fuel)%nat →
             Numeric.ida_star (0, 0) (2, 2) custom_grid euclidean fuel
             = Some (Returns b))
    ∧ (∀ fuel, (numeric_fuel_bound custom_grid ≤ fuel)%nat →
               Numeric.ida_star (2, 2) (0, 0) custom_grid euclidean fuel
               = Some (Returns b)).
Proof.
  apply (ida_star_symmetric custom_grid (0, 0) (2, 2) euclidean).
  - repeat constructor.
  - reflexivity.
  - reflexivity.
  - split; intros H; vm_compute in H; discriminate H.
  - apply finite_costs_check. vm_compute. reflexivity.
  - apply finite_costs_check. vm_compute. reflexivity.
Defined.

(** C8 on the path (0,0), (0,1), (1,1). *)
Lemma manhattan_admissible_witness :
  manhattan (0, 0) (1, 1) ≤ len [(0, 0); (0, 1); (1, 1)] - 1.
Proof.
  destruct (manhattan_admissible (0, 0) (1, 1)) as (_ & _ & _ & Hadm & _).
  apply Hadm.
  - reflexivity.
  - reflexivity.
  - simpl. unfold adjacent. simpl. lia.
Defined.

(** C10 on the grids [[0,0]] and [[1,0]], which differ in the start cell
    (0,0) only. *)
Lemma start_occupancy_irrelevant_witness :
  ida_star (0, 0) (0, 1) [[0; 0]] manhattan 5
  = ida_star (0, 0) (0, 1) [[1; 0]] manhattan 5.
Proof.
  destruct start_occupancy_irrelevant as [Hsame _].
  apply Hsame. split; [reflexivity|].
  intros [r c] [Hr Hc]%in_bounds_spec Hne. simpl in Hr, Hc.
  change (len [[0; 0]]) with 1 in Hr. change (len [0; 0]) with 2 in Hc.
  assert (r = 0) as -> by lia.
  assert (c = 1) as -> by (destruct (decide (c = 0)) as [->|]; [done|lia]).
  reflexivity.
Defined.

(** * Further properties of the code *)

(** ** The heuristics *)

Lemma move_manhattan node d goal :
  d ∈ directions →
  manhattan (move node d) goal = manhattan node goal + 1
  ∨ manhattan (move node d) goal = manhattan node goal - 1.
Proof.
  unfold directions. rewrite !elem_of_cons, elem_of_nil.
  intros [->|[->|[->|[->|[]]]]]; unfold manhattan, move; simpl; lia.
Qed.

(** X1. [manhattan] is a distance: it is zero exactly between a coordinate
    and itself, and it satisfies the triangle inequality. *)
Theorem manhattan_distance (a b c : Coord) :
  (manhattan a b = 0 ↔ a = b)
  ∧ manhattan a c ≤ manhattan a b + manhattan b c.
Proof.
  unfold manhattan. destruct a as [a1 a2], b as [b1 b2], c as [c1 c2]. simpl.
  split; [|lia]. split.
  - intros H. f_equal; lia.
  - intros [= -> ->]. lia.
Qed.

(** X2. [manhattan] is consistent for the moves of the search: one move
    changes the estimate to a fixed goal by exactly one, up or down, so that
    the f-cost of a neighbor is the f-cost of the node or that plus two. *)
Theorem manhattan_consistent (node goal d : Coord) (g_cost : Z) :
  d ∈ directions →
  Z.abs (manhattan (move node d) goal - manhattan node goal) = 1
  ∧ (g_cost + 1 + manhattan (move node d) goal = g_cost + manhattan node goal
     ∨ g_cost + 1 + manhattan (move node d) goal
       = g_cost + manhattan node goal + 2).
Proof. intros Hd. destruct (move_manhattan node d goal Hd); lia. Qed.

Lemma manhattan_trail grid a p :
  trail grid a p → manhattan a (endpoint a p) ≤ Z.of_nat (length p).
Proof.
  revert a. induction p as [|b p IH]; intros a Hp; simpl in *.
  - unfold manhattan. lia.
  - destruct Hp as [[(d & Hd & ->) _] Hp]. specialize (IH _ Hp).
    destruct (move_manhattan a d (endpoint (move a d) p) Hd); lia.
Qed.

(** X3. [chebyshev] is non-negative and symmetric and lies between half of
    [manhattan] and [manhattan]; hence it is admissible for the
    4-directional moves of the search: it is at most the number of moves of
    every walk between the two cells. *)
Theorem chebyshev_admissible (a b : Coord) :
  0 ≤ chebyshev a b
  ∧ chebyshev a b = chebyshev b a
  ∧ chebyshev a b ≤ manhattan a b ≤ 2 * chebyshev a b
  ∧ (∀ G p, trail G a p → endpoint a p = b →
            chebyshev a b ≤ Z.of_nat (length p)).
Proof.
  assert (chebyshev a b ≤ manhattan a b) as Hle
    by (unfold chebyshev, manhattan; lia).
  split_and!; try (unfold chebyshev, manhattan; lia).
  intros G p Hp <-. pose proof (manhattan_trail G a p Hp).
  unfold chebyshev, manhattan in *. lia.
Qed.

(** ** How the threshold grows *)

(** A finite bound returned by the loop of a call was returned by one of the
    calls it made. *)
Lemma explore_finite_origin grid rec node g t v r v' :
  explore grid rec node g t directions Inf v
    = Some (Returns (Num (Fin r), v')) →
  ∃ d v1 v2, d ∈ directions
             ∧ rec (move node d) (g + 1) t v1 = Some (Returns (Num (Fin r), v2)).
Proof.
  intros [?|(ds & d & ds' & m1 & v1 & x & v2 & Hd & _ & _ & _ & _ & _ & Hr)]
    %explore_result_origin; [done|].
  exists d, (v1 ∪ {[move node d]}), v2. split; [|done].
  rewrite Hd. set_solver.
Qed.

Lemma dfs_zero_step goal grid fuel node g t v r v' :
  dfs_search goal grid zero_heuristic fuel node g t v
    = Some (Returns (Num (Fin r), v')) →
  g ≤ t + 1 → r = t + 1.
Proof.
  revert node g v v'.
  induction fuel as [|fuel IH]; intros node g v v' H Hg; [done|].
  cbn [dfs_search] in H. change (zero_heuristic node goal) with 0 in H.
  destruct (Z.gtb_spec (g + 0) t); [simplify_eq; lia|].
  destruct (decide _); [done|].
  apply explore_finite_origin in H as (d & v1 & v2 & _ & H).
  apply IH in H; [done|lia].
Qed.

Lemma dfs_manhattan_step goal grid fuel node g t v r v' :
  dfs_search goal grid manhattan fuel node g t v
    = Some (Returns (Num (Fin r), v')) →
  g + manhattan node goal ≤ t + 2 →
  (∃ k, t + 2 - (g + manhattan node goal) = 2 * k) →
  r = t + 2.
Proof.
  revert node g v v'.
  induction fuel as [|fuel IH]; intros node g v v' H Hf [k Hk]; [done|].
  cbn [dfs_search] in H.
  destruct (Z.gtb_spec (g + manhattan node goal) t); [simplify_eq; lia|].
  destruct (decide _); [done|].
  apply explore_finite_origin in H as (d & v1 & v2 & Hd & H).
  destruct (move_manhattan node d goal Hd) as [Hm|Hm].
  - apply IH in H; [done|lia|]. exists (k - 1). lia.
  - apply IH in H; [done|lia|]. exists k. lia.
Qed.

(** X4. With [zero_heuristic] the search is an iterative deepening by one:
    the thresholds of a run are non-negative and every finite bound that a
    top-level call returns is its threshold plus one, so that the run goes
    through the thresholds 0, 1, 2, ... *)
Theorem zero_heuristic_deepens_by_one (s goal : Coord) (G : Grid)
    (depth : nat) (t : Z) :
  threshold_reached s goal G zero_heuristic depth t →
  0 ≤ t
  ∧ ∀ r visited',
      dfs_search goal G zero_heuristic depth s 0 t {[s]}
        = Some (Returns (Num (Fin r), visited')) →
      r = t + 1.
Proof.
  intros Ht.
  assert (0 ≤ t) as H0.
  { induction Ht as [|t r v' _ IH Hr]; [done|].
    apply dfs_zero_step in Hr; lia. }
  split; [done|]. intros r v' Hr. apply dfs_zero_step in Hr; lia.
Qed.

(** X5. With [manhattan] the threshold grows by exactly two per iteration:
    every threshold of a run is the estimate of the start plus an even
    number, and every finite bound that a top-level call returns is its
    threshold plus two. *)
Theorem manhattan_threshold_grows_by_two (s goal : Coord) (G : Grid)
    (depth : nat) (t : Z) :
  threshold_reached s goal G manhattan depth t →
  (∃ k, 0 ≤ k ∧ t = manhattan s goal + 2 * k)
  ∧ ∀ r visited',
      dfs_search goal G manhattan depth s 0 t {[s]}
        = Some (Returns (Num (Fin r), visited')) →
      r = t + 2.
Proof.
  intros Ht.
  assert (∃ k, 0 ≤ k ∧ t = manhattan s goal + 2 * k) as (k & Hk & ->).
  { induction Ht as [|t r v' _ (k & Hk & ->) Hr]; [exists 0; lia|].
    apply dfs_manhattan_step in Hr; [|lia|exists (k + 1); lia].
    exists (k + 1). lia. }
  split; [exists k; lia|]. intros r v' Hr.
  apply dfs_manhattan_step in Hr; [done|lia|exists (k + 1); lia].
Qed.

(** ** The path that FOUND leaves in the visited set *)

(** X6. When a call of [dfs_search] returns FOUND, what it has added to the
    visited set is a path to the goal: a walk from its node to the goal by
    moves into free cells, which repeats no cell and avoids the cells that
    were in the set, and the cost of which, with the estimate at the goal,
    is within the threshold. *)
Theorem found_leaves_path_in_visited (goal : Coord) (G : Grid)
    (h : Coord → Coord → Z) (fuel : nat) (node : Coord) (g_cost t : Z)
    (visited visited' : gset Coord) :
  dfs_search goal G h fuel node g_cost t visited
    = Some (Returns (FOUND, visited')) →
  ∃ p, trail G node p ∧ endpoint node p = goal ∧ NoDup p
       ∧ (∀ x, x ∈ p → x ∉ visited)
       ∧ visited' = visited ∪ list_to_set p
       ∧ g_cost + Z.of_nat (length p) + h goal goal ≤ t.
Proof. apply dfs_found_path. Qed.

(** ** The search finds a shortest path *)

Lemma trail_cut_length grid a p x :
  trail grid a p → x ∈ a :: p →
  ∃ q, trail grid x q ∧ endpoint x q = endpoint a p ∧ (x ∉ q) ∧ (q ⊆ p)
       ∧ (length q ≤ length p)%nat.
Proof.
  intros Ht Hx. apply list_elem_of_split_r in Hx as (l1 & l2 & Heq & Hnot).
  exists l2. destruct l1 as [|a' l1]; simplify_eq/=.
  - split_and!; [done..|set_solver|lia].
  - apply trail_app in Ht as [_ Ht]. rewrite endpoint_app. simpl in *.
    destruct Ht as [_ Ht]. rewrite length_app. simpl.
    split_and!; [done..|set_solver|lia].
Qed.

(** Every walk contains a walk between the same cells that repeats no
    cell. *)
Lemma trail_simple grid a p :
  trail grid a p →
  ∃ q, trail grid a q ∧ endpoint a q = endpoint a p ∧ NoDup (a :: q)
       ∧ (q ⊆ p) ∧ (length q ≤ length p)%nat.
Proof.
  remember (length p) as n eqn:Hn. revert a p Hn.
  induction n as [n IH] using lt_wf_ind. intros a p -> Hp.
  destruct (trail_cut_length grid a p a Hp)
    as (q0 & Hq0 & He0 & Hna & Hsub & Hlen); [set_solver|].
  destruct q0 as [|b q1].
  - exists []. split_and!; [done|done|apply NoDup_singleton|set_solver|simpl; lia].
  - destruct Hq0 as [Hs Hq1]. simpl in Hlen.
    destruct (IH (length q1) ltac:(lia) b q1 eq_refl Hq1)
      as (q2 & Hq2 & He2 & Hnd & Hsub2 & Hl2).
    exists (b :: q2). split_and!.
    + by split.
    + simpl in *. congruence.
    + apply NoDup_cons. split; [set_solver|done].
    + set_solver.
    + simpl. lia.
Qed.

(** A call that returned a number made the call into each eligible
    neighbor, and returns no more than that call did. *)
Lemma explore_call_result grid rec node g t dirs m v c v' d :
  restores rec →
  explore grid rec node g t dirs m v = Some (Returns (Num c, v')) →
  d ∈ dirs → free grid (move node d) → move node d ∉ v →
  ∃ c1 v2, rec (move node d) (g + 1) t (v ∪ {[move node d]})
             = Some (Returns (Num c1, v2))
           ∧ num_le c c1.
Proof.
  intros Hrec. revert m.
  induction dirs as [|d0 dirs IH]; intros m H Hd Hfree Hv;
    cbn [explore] in H; [by apply elem_of_nil in Hd|].
  destruct Hfree as (Hin & x & Hx & Hx1).
  assert (free grid (move node d)) as Hfree by (split; eauto).
  apply elem_of_cons in Hd as [->|Hd].
  - rewrite Hin, Hx in H. cbn [negb] in H.
    destruct (Z.eqb_spec x 1); [done|].
    destruct (decide _); [done|].
    destruct (rec _ _ _ _) as [[[[|c1] v2]|]|] eqn:Hr; try done.
    destruct (decide _); [|done].
    exists c1, v2. split; [done|]. apply explore_le_acc in H.
    eapply num_le_trans; [exact H|apply num_min_le_r].
  - destruct (in_bounds grid (move node d0)); cbn [negb] in H; [|eauto].
    destruct (cell grid (move node d0)); [|done].
    destruct (_ =? 1); [eauto|].
    destruct (decide (move node d0 ∈ v)); [eauto|].
    destruct (rec (move node d0) (g + 1) t (v ∪ {[move node d0]}))
      as [[[[|c0] v0]|]|] eqn:Hr; try done.
    apply Hrec in Hr as ->. destruct (decide _); [|done].
    replace ((v ∪ {[move node d0]}) ∖ {[move node d0]}) with v in H
      by set_solver.
    eauto.
Qed.

Lemma dfs_bound_by_path goal grid h fuel node g t v c v' p :
  (∀ a b, h a b ≤ manhattan a b) →
  dfs_search goal grid h fuel node g t v = Some (Returns (Num c, v')) →
  trail grid node p → endpoint node p = goal → NoDup p →
  (∀ x, x ∈ p → x ∉ v) →
  num_le c (Fin (g + Z.of_nat (length p))).
Proof.
  intros Hadm. revert node g v c v' p.
  induction fuel as [|fuel IH]; intros node g v c v' p H Hp He Hnd Hav;
    [done|].
  cbn [dfs_search] in H.
  destruct (Z.gtb_spec (g + h node goal) t).
  { simplify_eq. simpl. pose proof (manhattan_trail grid node p Hp).
    pose proof (Hadm node (endpoint node p)). lia. }
  destruct (decide (node = goal)) as [|Hne]; [done|].
  destruct p as [|b p]; [done|]. destruct Hp as [Hs Hp].
  pose proof Hs as [(d & Hd & ->) Hfree].
  apply NoDup_cons in Hnd as [Hnb Hnd].
  eapply explore_call_result in H as (c1 & v2 & H & Hle);
    [|apply dfs_restores|exact Hd|exact Hfree|apply Hav; set_solver].
  eapply num_le_trans; [exact Hle|].
  replace (g + Z.of_nat (length (move node d :: p)))
    with (g + 1 + Z.of_nat (length p)) by (simpl length; lia).
  eapply IH; [exact H|exact Hp|exact He|exact Hnd|].
  intros x Hx. pose proof (Hav x). set_solver.
Qed.

Lemma threshold_le_path s goal grid h depth t q :
  (∀ a b, h a b ≤ manhattan a b) →
  threshold_reached s goal grid h depth t →
  trail grid s q → endpoint s q = goal →
  t ≤ Z.of_nat (length q).
Proof.
  intros Hadm Ht Hq He. induction Ht as [|t r v' _ _ Hr].
  - pose proof (manhattan_trail grid s q Hq). pose proof (Hadm s goal).
    rewrite He in *. lia.
  - destruct (trail_simple grid s q Hq) as (p & Hp & Hep & Hnd & _ & Hlen).
    apply NoDup_cons in Hnd as [Hs Hnd].
    eapply (dfs_bound_by_path _ _ _ _ _ _ _ _ _ _ p) in Hr;
      [|done|done|congruence|done|set_solver].
    simpl in Hr. lia.
Qed.

Lemma ida_loop_true_reached s goal grid h iters depth t :
  threshold_reached s goal grid h depth t →
  ida_loop s goal grid h iters depth t = Some (Returns true) →
  ∃ t' v', threshold_reached s goal grid h depth t'
           ∧ dfs_search goal grid h depth s 0 t' {[s]}
             = Some (Returns (FOUND, v')).
Proof.
  revert t. induction iters as [|iters IH]; intros t Ht H; [done|].
  cbn [ida_loop] in H.
  destruct (dfs_search _ _ _ _ _ _ _ _) as [[[[|[r|]] v']|]|] eqn:Ho;
    simplify_eq.
  - eauto.
  - eapply IH; [|exact H]. by eapply threshold_next.
Qed.

(** X7. With a heuristic between zero and [manhattan] (so with [manhattan],
    [chebyshev] and [zero_heuristic]), [ida_star] returns true from an
    iteration whose threshold is the length of a shortest path: the visited
    set of that iteration holds the start and a walk from it to the goal
    that repeats no cell and is as short as any walk to the goal. *)
Theorem ida_star_finds_shortest_path (s goal : Coord) (G : Grid)
    (h : Coord → Coord → Z) (fuel : nat) :
  (∀ a b, 0 ≤ h a b ≤ manhattan a b) →
  ida_star s goal G h fuel = Some (Returns true) →
  ∃ t visited' p,
    threshold_reached s goal G h fuel t
    ∧ dfs_search goal G h fuel s 0 t {[s]} = Some (Returns (FOUND, visited'))
    ∧ trail G s p ∧ endpoint s p = goal
    ∧ visited' = list_to_set (s :: p) ∧ NoDup (s :: p)
    ∧ t = Z.of_nat (length p)
    ∧ ∀ q, trail G s q → endpoint s q = goal → (length p ≤ length q)%nat.
Proof.
  intros Hh H.
  apply ida_loop_true_reached in H as (t & v' & Ht & Hfound);
    [|apply threshold_initial].
  pose proof Hfound as (p & Hp & He & Hnd & Hav & -> & Hlen)%dfs_found_path.
  assert (∀ q, trail G s q → endpoint s q = goal → t ≤ Z.of_nat (length q))
    as Hmin.
  { intros q Hq Heq. eapply threshold_le_path; [|done..].
    intros a b. apply Hh. }
  pose proof (Hh goal goal) as Hgg.
  assert (manhattan goal goal = 0) by (unfold manhattan; lia).
  pose proof (Hmin p Hp He).
  exists t, ({[s]} ∪ list_to_set p), p. split_and!; try done.
  - apply NoDup_cons. split; [|done]. intros Hin%Hav. set_solver.
  - lia.
  - intros q Hq Heq. pose proof (Hmin q Hq Heq). lia.
Qed.

(** ** The exceptions of [ida_star] *)

Lemma explore_no_key_error grid rec node g t dirs m v :
  restores rec →
  (∀ n g t v, rec n g t v ≠ Some (Raises KeyError)) →
  explore grid rec node g t dirs m v ≠ Some (Raises KeyError).
Proof.
  intros Hrec Hno. revert m v.
  induction dirs as [|d dirs IH]; intros m v H; cbn [explore] in H; [done|].
  destruct (in_bounds grid (move node d)); cbn [negb] in H; [|by eapply IH].
  destruct (cell grid (move node d)); [|done].
  destruct (_ =? 1); [by eapply IH|].
  destruct (decide (move node d ∈ v)); [by eapply IH|].
  destruct (rec (move node d) (g + 1) t (v ∪ {[move node d]}))
    as [[[[|c] v2]|e]|] eqn:Hr; try done.
  - apply Hrec in Hr as ->. destruct (decide _) as [|Hn]; [by eapply IH|].
    apply Hn. set_solver.
  - simplify_eq. by eapply Hno.
Qed.

Lemma dfs_no_key_error goal grid h fuel node g t v :
  dfs_search goal grid h fuel node g t v ≠ Some (Raises KeyError).
Proof.
  revert node g t v.
  induction fuel as [|fuel IH]; intros node g t v H; cbn [dfs_search] in H;
    [done|].
  destruct (_ >? _); [done|]. destruct (decide _); [done|].
  eapply explore_no_key_error; [apply dfs_restores|exact IH|exact H].
Qed.

Lemma ida_loop_raises s goal grid h iters depth t e :
  ida_loop s goal grid h iters depth t = Some (Raises e) →
  ∃ t', dfs_search goal grid h depth s 0 t' {[s]} = Some (Raises e).
Proof.
  revert t. induction iters as [|iters IH]; intros t H; [done|].
  cbn [ida_loop] in H.
  destruct (dfs_search _ _ _ _ _ _ _ _) as [[[[|[r|]] v']|e']|] eqn:Ho;
    simplify_eq; eauto.
Qed.

(** X8. [ida_star] never raises [KeyError], and it raises [IndexError] only
    on a grid whose rows are not all as long as the first:
    [visited.remove] always finds the neighbor it removes, and on a
    rectangular grid every cell that passes the bounds test can be read. *)
Theorem ida_star_raises_only_index_error (s goal : Coord) (G : Grid)
    (h : Coord → Coord → Z) (fuel : nat) (e : exn) :
  ida_star s goal G h fuel = Some (Raises e) →
  e = IndexError ∧ ¬ rectangular G.
Proof.
  intros (t & H)%ida_loop_raises. split.
  - destruct e; [done|]. by apply dfs_no_key_error in H.
  - intros Hrect. by apply dfs_no_raise in H.
Qed.

(** ** Grids without cells *)

Lemma in_bounds_empty grid n : row0_len grid = 0 → in_bounds grid n = false.
Proof.
  intros H. destruct (in_bounds grid n) eqn:Hin; [|done].
  apply in_bounds_spec in Hin. lia.
Qed.

(** X9. On a grid without cells (no row, or an empty first row) the search
    from a start to a different goal returns false in its first iteration,
    whatever the coordinates and the heuristic: every neighbor fails the
    bounds test, nothing is read and nothing is raised. *)
Theorem ida_star_on_empty_grid (s goal : Coord) (G : Grid)
    (h : Coord → Coord → Z) (fuel : nat) :
  row0_len G = 0 → s ≠ goal →
  ida_star s goal G h (S fuel) = Some (Returns false).
Proof.
  intros Hempty Hne. unfold ida_star. cbn [ida_loop dfs_search].
  replace (0 + h s goal >? h s goal) with false by lia.
  rewrite decide_False by done.
  rewrite explore_ineligible; [done|].
  intros d _. left. by apply in_bounds_empty.
Qed.

(** ** The reference search on its own *)

(** X10. On a rectangular grid [AStar.search] terminates and returns whether
    the goal can be reached from the start by moves into free cells, that
    is, for a start that is not blocked, whether a free path exists; the
    heuristic and the counter of the object have no part in the answer. *)
Theorem astar_search_true_iff_reachable (self : AStar.t) (s g : Coord)
    (G : Grid) :
  rectangular G →
  ∃ b : bool,
    (b = true ↔ reachable G s g)
    ∧ (free G s → (b = true ↔ path_exists G s g))
    ∧ (∀ fuel, (astar_fuel_bound s G ≤ fuel)%nat →
         ∃ n, AStar.search self s g G fuel = Some (Returns b, n))
    ∧ (∀ fuel a n, AStar.search self s g G fuel = Some (a, n) →
                   a = Returns b).
Proof.
  intros Hrect.
  destruct (astar_search_decides self s g G Hrect) as (b & Hb & Hfuel & Hany).
  exists b. split_and!; [done| |done..].
  intros Hs. by rewrite path_exists_reachable.
Qed.

(** Items of the open set are scored: [g_score[current]] is always there. *)
Lemma relax_neighbor_scored self goal grid current d st :
  current ∈ dom (AStar.g_score st) →
  (∀ f g n, (f, g, n) ∈ AStar.open_set st → n ∈ dom (AStar.g_score st)) →
  match AStar.relax_neighbor self goal grid current d st with
  | Raises e => e = IndexError
  | Returns st' =>
    current ∈ dom (AStar.g_score st')
    ∧ (∀ f g n, (f, g, n) ∈ AStar.open_set st' →
                n ∈ dom (AStar.g_score st'))
    ∧ AStar.expanded st' = AStar.expanded st
  end.
Proof.
  intros Hcur Hopen. unfold AStar.relax_neighbor.
  destruct (negb _); [done|].
  destruct (cell grid _); [|done].
  destruct (_ =? 1); [done|].
  apply elem_of_dom in Hcur as Hc. destruct Hc as [gc ->].
  destruct (match AStar.g_score st !! move current d with
            | Some g_neighbor => gc + 1 <? g_neighbor
            | None => true
            end); [|done].
  simpl. rewrite dom_insert_L. split_and!; [set_solver| |done].
  intros f g n. destruct (decide _).
  - intros ?%Hopen. set_solver.
  - intros [?|?%Hopen]%elem_of_heappush; [simplify_eq|]; set_solver.
Qed.

Lemma relax_scored self goal grid current dirs st :
  current ∈ dom (AStar.g_score st) →
  (∀ f g n, (f, g, n) ∈ AStar.open_set st → n ∈ dom (AStar.g_score st)) →
  match AStar.relax self goal grid current dirs st with
  | Raises e => e = IndexError
  | Returns st' =>
    (∀ f g n, (f, g, n) ∈ AStar.open_set st' →
              n ∈ dom (AStar.g_score st'))
    ∧ AStar.expanded st' = AStar.expanded st
  end.
Proof.
  revert st. induction dirs as [|d dirs IH]; intros st Hcur Hopen;
    cbn [AStar.relax]; [done|].
  pose proof (relax_neighbor_scored self goal grid current d st Hcur Hopen)
    as H1.
  destruct (AStar.relax_neighbor self goal grid current d st) as [st1|e];
    [|done].
  destruct H1 as (Hcur1 & Hopen1 & He1).
  specialize (IH st1 Hcur1 Hopen1).
  destruct (AStar.relax self goal grid current dirs st1); [|done].
  destruct IH as [? ?]. split; [done|congruence].
Qed.

Lemma search_loop_scored self goal grid fuel st a n :
  (∀ f g n, (f, g, n) ∈ AStar.open_set st → n ∈ dom (AStar.g_score st)) →
  AStar.search_loop self goal grid fuel st = Some (a, n) →
  AStar.expanded st ≤ n ∧ ∀ e, a = Raises e → e = IndexError.
Proof.
  revert st. induction fuel as [|fuel IH]; intros st Hopen H; [done|].
  cbn [AStar.search_loop] in H.
  destruct (AStar.open_set st) as [|[[f g] current] rest] eqn:Ho;
    cbn [AStar.heappop] in H.
  { simplify_eq. split; [lia|done]. }
  destruct (decide (current = goal)); [simplify_eq; split; [lia|done]|].
  assert (current ∈ dom (AStar.g_score st)) as Hcur.
  { apply (Hopen f g). set_solver. }
  assert (∀ f' g' n', (f', g', n') ∈ rest → n' ∈ dom (AStar.g_score st))
    as Hrest.
  { intros f' g' n' Hin. apply (Hopen f' g'). set_solver. }
  match type of H with
  | match AStar.relax _ _ _ _ _ ?st1 with _ => _ end = _ =>
      pose proof (relax_scored self goal grid current directions st1
                    Hcur Hrest) as Hr
  end.
  destruct (AStar.relax _ _ _ _ _ _) as [st'|e].
  - destruct Hr as [Hopen' He]. simpl in He.
    apply IH in H as [? ?]; [|done]. split; [lia|done].
  - simplify_eq. split; [lia|]. by intros e' [= <-].
Qed.

Lemma initial_scored self s goal f g n :
  (f, g, n) ∈ AStar.open_set (AStar.initial self s goal) →
  n ∈ dom (AStar.g_score (AStar.initial self s goal)).
Proof. simpl. intros ?%list_elem_of_singleton. simplify_eq. set_solver. Qed.

(** X11. [AStar.search] never raises [KeyError], and it raises [IndexError]
    only on a grid whose rows are not all as long as the first:
    [g_score[current]] is always there, every node in the open set having
    been scored. *)
Theorem astar_search_raises_only_index_error (self : AStar.t) (s g : Coord)
    (G : Grid) (fuel : nat) (e : exn) (n : Z) :
  AStar.search self s g G fuel = Some (Raises e, n) →
  e = IndexError ∧ ¬ rectangular G.
Proof.
  intros H. split.
  - apply search_loop_scored in H as [_ H]; [by apply H|].
    apply initial_scored.
  - intros Hrect.
    destruct (astar_search_decides self s g G Hrect) as (b & _ & _ & Hany).
    by apply Hany in H.
Qed.

(** ** The counter of expanded nodes *)

Lemma search_loop_expanded_le self s goal grid fuel st a n :
  rectangular grid → astar_inv s goal grid ∅ st →
  AStar.search_loop self goal grid fuel st = Some (a, n) →
  n ≤ AStar.expanded st + Z.of_nat (astar_measure s grid st).
Proof.
  intros Hrect. revert st.
  induction fuel as [|fuel IH]; intros st Hinv H; [done|].
  cbn [AStar.search_loop] in H.
  destruct (AStar.open_set st) as [|[[f g] current] rest] eqn:Ho;
    cbn [AStar.heappop] in H.
  { simplify_eq. lia. }
  assert (1 ≤ astar_measure s grid st)%nat
    by (unfold astar_measure; rewrite Ho; simpl; lia).
  destruct (decide (current = goal)) as [|Hne]; [simplify_eq; lia|].
  destruct (search_step self s goal grid Hrect st f g current rest Hinv Ho Hne)
    as (st' & Heq & Hinv' & Hm).
  rewrite Heq in H.
  match type of Heq with
  | AStar.relax _ _ _ _ _ ?st1 = _ =>
      pose proof (relax_scored self goal grid current directions st1) as Hr
  end.
  rewrite Heq in Hr. simpl in Hr. destruct Hr as [_ He].
  - apply (inv_open Hinv f g). rewrite Ho. set_solver.
  - intros f' g' n' Hin. apply (inv_open Hinv f' g'). rewrite Ho. set_solver.
  - apply IH in H; [|done]. lia.
Qed.

(** X12. Every call of [AStar.search] that returns adds at least one to
    [nodes_expanded], the start being popped first; it adds exactly one and
    returns true when the start is the goal, on every grid; and on a
    rectangular grid it adds less than [astar_fuel_bound], that is at most
    2 (N + 1)^2 + 1 for a grid of N cells. *)
Theorem astar_nodes_expanded (self : AStar.t) (s g : Coord) (G : Grid) :
  (∀ fuel a n, AStar.search self s g G fuel = Some (a, n) →
               AStar.nodes_expanded self + 1 ≤ n)
  ∧ (∀ fuel, AStar.search self s s G (S fuel)
             = Some (Returns true, AStar.nodes_expanded self + 1))
  ∧ (rectangular G →
     ∀ fuel a n, AStar.search self s g G fuel = Some (a, n) →
                 n < AStar.nodes_expanded self + Z.of_nat (astar_fuel_bound s G)).
Proof.
  split_and!.
  - intros [|fuel] a n H; [done|].
    unfold AStar.search in H.
    cbn [AStar.search_loop AStar.initial AStar.open_set AStar.heappush
         AStar.heappop] in H.
    change (AStar.expanded (AStar.initial self s g))
      with (AStar.nodes_expanded self) in H.
    destruct (decide (s = g)); [simplify_eq; lia|].
    match type of H with
    | match AStar.relax _ _ _ _ _ ?st1 with _ => _ end = _ =>
        pose proof (relax_scored self g G s directions st1) as Hr;
        destruct (AStar.relax self g G s directions st1) as [st'|e']
    end; [|simplify_eq; lia].
    destruct Hr as [Hopen He];
      [simpl; set_solver|by intros ? ? ? ?%elem_of_nil|].
    simpl in He.
    apply search_loop_scored in H as [? _]; [lia|done].
  - intros fuel. unfold AStar.search. cbn [AStar.search_loop]. simpl.
    by rewrite decide_True.
  - intros Hrect fuel a n H.
    apply (search_loop_expanded_le self s) in H;
      [|done|by apply initial_inv].
    pose proof (initial_measure self s g G). simpl in H. lia.
Qed.

(** ** The random grids of the comparison *)

Lemma grid_is_ext size grid val val' :
  grid_is size grid val →
  (∀ r c, 0 ≤ r < size → 0 ≤ c < size → val r c = val' r c) →
  grid_is size grid val'.
Proof.
  intros (Hl & Hrows & Hc) Heq. split_and!; [done..|].
  intros r c Hr Hcc. rewrite <- Heq by done. by apply Hc.
Qed.

Lemma grid_is_rectangular size grid val :
  grid_is size grid val → rectangular grid ∧ (0 < size → row0_len grid = size).
Proof.
  intros (Hl & Hrows & _). split.
  - destruct grid as [|row grid]; [constructor|].
    apply Forall_cons in Hrows as Hr. destruct Hr as [Hrow _].
    unfold rectangular. simpl. eapply Forall_impl; [exact Hrows|].
    intros row' Hrow'. simpl in Hrow'. congruence.
  - intros Hpos. destruct grid as [|row grid]; [unfold len in Hl; simpl in Hl; lia|].
    by apply Forall_cons in Hrows as [? _].
Qed.

Lemma set_cell_spec size grid val i j v :
  grid_is size grid val → 0 ≤ i < size → 0 ≤ j < size →
  ∃ grid', set_cell grid i j v = Some grid'
           ∧ grid_is size grid'
               (λ r c, if bool_decide (r = i ∧ c = j) then v else val r c).
Proof.
  intros (Hl & Hrows & Hc) Hi Hj.
  destruct (lookup_lt_is_Some_2 grid (Z.to_nat i)) as [row Hrow];
    [unfold len in Hl; lia|].
  assert (len row = size) as Hlrow.
  { apply list_elem_of_lookup_2 in Hrow.
    by apply (proj1 (Forall_forall _ _) Hrows) in Hrow. }
  exists (<[Z.to_nat i := <[Z.to_nat j := v]> row]> grid). split.
  - unfold set_cell, index, set_item.
    destruct (Z.leb_spec 0 i); [|lia]. rewrite Hrow. simpl.
    destruct (Z.leb_spec 0 j); [|lia].
    destruct (Z.ltb_spec j (len row)); [|lia]. simpl.
    destruct (Z.ltb_spec i (len grid)); [done|lia].
  - split_and!.
    + unfold len in *. by rewrite length_insert.
    + apply Forall_insert; [done|]. unfold len in *. by rewrite length_insert.
    + intros r c Hr Hcc. rewrite cell_nonneg by (simpl; lia). simpl.
      specialize (Hc r c Hr Hcc). rewrite cell_nonneg in Hc by (simpl; lia).
      simpl in Hc.
      destruct (decide (r = i)) as [->|Hne].
      * rewrite list_lookup_insert_eq by (unfold len in Hl; lia). simpl.
        rewrite Hrow in Hc. simpl in Hc.
        destruct (decide (c = j)) as [->|Hnc].
        -- rewrite bool_decide_true by done.
           apply list_lookup_insert_eq. unfold len in Hlrow. lia.
        -- rewrite bool_decide_false by (intros [_ ?]; done).
           rewrite list_lookup_insert_ne by lia. done.
      * rewrite bool_decide_false by (intros [? _]; done).
        rewrite list_lookup_insert_ne by lia. done.
Qed.

Lemma zeros_is size : grid_is size (zeros size) (λ _ _, 0) ∨ size < 0.
Proof.
  destruct (Z.ltb_spec size 0); [by right|]. left. unfold grid_is, zeros, len.
  split_and!.
  - rewrite length_replicate. lia.
  - apply Forall_replicate. rewrite length_replicate. lia.
  - intros r c Hr Hc. rewrite cell_nonneg by (simpl; lia). simpl.
    rewrite lookup_replicate_2 by lia. simpl.
    by rewrite lookup_replicate_2 by lia.
Qed.

Section create_test_grid_facts.
Context (draws : nat → bool).

Lemma fill_row_spec size grid val i (m : nat) j0 k :
  grid_is size grid val → 0 ≤ i < size → 0 ≤ j0 → j0 + Z.of_nat m ≤ size →
  ∃ grid',
    fill_row draws grid i (seqZ j0 (Z.of_nat m)) k = Some (grid', (k + m)%nat)
    ∧ grid_is size grid'
        (λ r c, if bool_decide (r = i ∧ j0 ≤ c < j0 + Z.of_nat m)
                   && draws (k + Z.to_nat (c - j0))%nat
                then 1 else val r c).
Proof.
  revert grid val j0 k.
  induction m as [|m IH]; intros grid val j0 k Hg Hi Hj0 Hm.
  { exists grid. split; [simpl; f_equal; f_equal; lia|].
    eapply grid_is_ext; [exact Hg|]. intros r c _ _.
    rewrite bool_decide_false by lia. done. }
  rewrite seqZ_cons by lia. cbn [fill_row].
  replace (Z.pred (Z.of_nat (S m))) with (Z.of_nat m) by lia.
  assert (∀ grid1 val1,
    grid_is size grid1 val1 →
    (∀ r c, 0 ≤ r < size → 0 ≤ c < size →
       val1 r c = if bool_decide (r = i ∧ c = j0) && draws k
                  then 1 else val r c) →
    ∃ grid',
      fill_row draws grid1 i (seqZ (Z.succ j0) (Z.of_nat m)) (S k)
        = Some (grid', (k + S m)%nat)
      ∧ grid_is size grid'
          (λ r c, if bool_decide (r = i ∧ j0 ≤ c < j0 + Z.of_nat (S m))
                     && draws (k + Z.to_nat (c - j0))%nat
                  then 1 else val r c)) as Hnext.
  { intros grid1 val1 Hg1 Hval1.
    destruct (IH grid1 val1 (Z.succ j0) (S k) Hg1) as (grid' & Heq & Hg');
      [lia..|].
    exists grid'. split; [rewrite Heq; f_equal; f_equal; lia|].
    eapply grid_is_ext; [exact Hg'|]. intros r c Hr Hc. cbv beta.
    rewrite Hval1 by done.
    destruct (decide (r = i ∧ Z.succ j0 ≤ c < Z.succ j0 + Z.of_nat m))
      as [[-> Hcc]|Hno].
    - rewrite bool_decide_true by lia.
      rewrite (bool_decide_true (i = i ∧ j0 ≤ c < j0 + Z.of_nat (S m))) by lia.
      rewrite (bool_decide_false (i = i ∧ c = j0)) by lia.
      replace (S k + Z.to_nat (c - Z.succ j0))%nat
        with (k + Z.to_nat (c - j0))%nat by lia.
      simpl. by destruct (draws _).
    - rewrite bool_decide_false by done. simpl.
      destruct (decide (r = i ∧ c = j0)) as [[-> ->]|Hno'].
      + rewrite !bool_decide_true by lia.
        replace (k + Z.to_nat (j0 - j0))%nat with k by lia. done.
      + rewrite (bool_decide_false (r = i ∧ c = j0)) by done.
        rewrite bool_decide_false by lia. done. }
  destruct (draws k) eqn:Hk.
  - destruct (set_cell_spec size grid val i j0 1 Hg) as (grid1 & -> & Hg1);
      [lia..|].
    apply (Hnext grid1 _ Hg1). intros r c _ _. by rewrite andb_true_r.
  - apply (Hnext grid val Hg). intros r c _ _. by rewrite andb_false_r.
Qed.

Lemma fill_spec size grid val (m : nat) i0 k :
  grid_is size grid val → 0 ≤ i0 → i0 + Z.of_nat m ≤ size →
  ∃ grid' k',
    fill draws grid size (seqZ i0 (Z.of_nat m)) k = Some (grid', k')
    ∧ grid_is size grid'
        (λ r c, if bool_decide (i0 ≤ r < i0 + Z.of_nat m)
                   && draws (k + Z.to_nat ((r - i0) * size + c))%nat
                then 1 else val r c).
Proof.
  revert grid val i0 k.
  induction m as [|m IH]; intros grid val i0 k Hg Hi0 Hm.
  { exists grid, k. split; [done|].
    eapply grid_is_ext; [exact Hg|]. intros r c _ _.
    rewrite bool_decide_false by lia. done. }
  rewrite seqZ_cons by lia. cbn [fill].
  replace (Z.pred (Z.of_nat (S m))) with (Z.of_nat m) by lia.
  assert (0 ≤ size) as Hsize by lia.
  destruct (fill_row_spec size grid val i0 (Z.to_nat size) 0 k Hg)
    as (grid1 & Heq1 & Hg1); [lia..|].
  rewrite Z2Nat.id in Heq1 by done. rewrite Heq1.
  destruct (IH grid1 _ (Z.succ i0) (k + Z.to_nat size)%nat Hg1)
    as (grid' & k' & Heq & Hg'); [lia..|].
  exists grid', k'. split; [done|].
  eapply grid_is_ext; [exact Hg'|]. intros r c Hr Hc. cbv beta.
  destruct (decide (Z.succ i0 ≤ r < Z.succ i0 + Z.of_nat m)) as [Hrr|Hno].
  - rewrite bool_decide_true by done.
    rewrite (bool_decide_true (i0 ≤ r < i0 + Z.of_nat (S m))) by lia.
    rewrite (bool_decide_false (r = i0 ∧ _)) by lia.
    replace (k + Z.to_nat size + Z.to_nat ((r - Z.succ i0) * size + c))%nat
      with (k + Z.to_nat ((r - i0) * size + c))%nat by nia.
    simpl. by destruct (draws _).
  - rewrite bool_decide_false by done. simpl.
    destruct (decide (r = i0)) as [->|Hne].
    + rewrite !bool_decide_true by lia.
      replace (k + Z.to_nat ((i0 - i0) * size + c))%nat
        with (k + Z.to_nat (c - 0))%nat by (f_equal; f_equal; lia).
      done.
    + rewrite (bool_decide_false (r = i0 ∧ _)) by (intros [? _]; done).
      rewrite bool_decide_false by lia. done.
Qed.
End create_test_grid_facts.

(** X13. [create_test_grid], for a size of at least 1, returns a square grid
    of [size] rows of [size] cells: the two corners [(0, 0)] and
    [(size - 1, size - 1)] hold 0 whatever was drawn for them, and any other
    cell [(r, c)] holds 1 if the draw number [r * size + c] fell below the
    obstacle density, and 0 otherwise. *)
Theorem create_test_grid_spec (draws : nat → bool) (size : Z) :
  1 ≤ size →
  ∃ grid,
    create_test_grid draws size = Returns grid
    ∧ rectangular grid ∧ len grid = size ∧ row0_len grid = size
    ∧ ∀ r c, 0 ≤ r < size → 0 ≤ c < size →
        cell grid (r, c)
        = Some (if bool_decide ((r, c) = (0, 0) ∨ (r, c) = (size - 1, size - 1))
                then 0
                else if draws (Z.to_nat (r * size + c)) then 1 else 0).
Proof.
  intros Hsize. unfold create_test_grid.
  destruct (zeros_is size) as [Hz|?]; [|lia].
  destruct (fill_spec draws size (zeros size) _ (Z.to_nat size) 0 0%nat Hz)
    as (grid1 & k & Heq & Hg1); [lia..|].
  rewrite Z2Nat.id in Heq by lia. rewrite Heq.
  destruct (set_cell_spec size grid1 _ 0 0 0 Hg1) as (grid2 & -> & Hg2);
    [lia..|].
  destruct (set_cell_spec size grid2 _ (size - 1) (size - 1) 0 Hg2)
    as (grid3 & -> & Hg3); [lia..|].
  exists grid3. split; [done|].
  destruct (grid_is_rectangular _ _ _ Hg3) as [Hrect Hrow].
  split_and!; [done|apply Hg3|apply Hrow; lia|].
  intros r c Hr Hc. destruct Hg3 as (_ & _ & ->); [|done..]. f_equal.
  destruct (decide ((r, c) = (size - 1, size - 1))) as [?|Hne1]; simplify_eq.
  { rewrite bool_decide_true by done. by rewrite bool_decide_true by by right. }
  rewrite bool_decide_false by (intros [??]; by simplify_eq).
  destruct (decide ((r, c) = (0, 0))) as [?|Hne0]; simplify_eq.
  { rewrite bool_decide_true by done. by rewrite bool_decide_true by by left. }
  rewrite bool_decide_false by (intros [??]; by simplify_eq).
  rewrite (bool_decide_false (_ ∨ _)) by (by intros [?|?]).
  rewrite bool_decide_true by lia. simpl.
  replace (Z.to_nat ((r - 0) * size + c)) with (Z.to_nat (r * size + c))
    by (f_equal; lia).
  done.
Qed.

(** X14. [create_test_grid] raises [IndexError] for a size of 0 or less: the
    grid it builds is empty, and the assignment [grid[0][0] = 0] fails. *)
Theorem create_test_grid_raises_without_cells (draws : nat → bool) (size : Z) :
  size ≤ 0 → create_test_grid draws size = Raises IndexError.
Proof.
  intros Hsize. unfold create_test_grid, zeros, seqZ.
  replace (Z.to_nat size) with 0%nat by lia. done.
Qed.

(** X15. The comparison never finds the two searches in disagreement: on
    the grid that [create_test_grid] returns for a size of at least 1, from
    the corner [(0, 0)] to the corner [(size - 1, size - 1)] and with the
    Manhattan heuristic, [ida_star] and [AStar.search] both terminate, and
    both return whether a path of free cells joins the two corners. *)
Theorem comparison_results_match (draws : nat → bool) (size : Z) :
  1 ≤ size →
  ∃ grid b,
    create_test_grid draws size = Returns grid
    ∧ free grid (0, 0) ∧ free grid (size - 1, size - 1)
    ∧ (b = true ↔ path_exists grid (0, 0) (size - 1, size - 1))
    ∧ (∀ fuel,
         (fuel_bound (0, 0)%Z (size - 1, size - 1)%Z grid manhattan
          ≤ fuel)%nat →
         ida_star (0, 0) (size - 1, size - 1) grid manhattan fuel
         = Some (Returns b))
    ∧ (∀ fuel, (astar_fuel_bound (0, 0)%Z grid ≤ fuel)%nat →
         ∃ n, AStar.search (AStar.init manhattan) (0, 0)
                (size - 1, size - 1) grid fuel = Some (Returns b, n))
    ∧ (∀ fuel a,
         ida_star (0, 0) (size - 1, size - 1) grid manhattan fuel = Some a →
         a = Returns b)
    ∧ (∀ fuel a n,
         AStar.search (AStar.init manhattan) (0, 0) (size - 1, size - 1)
           grid fuel = Some (a, n) →
         a = Returns b).
Proof.
  intros Hsize.
  destruct (zeros_is size) as [Hz|?]; [|lia].
  destruct (fill_spec draws size (zeros size) _ (Z.to_nat size) 0 0%nat Hz)
    as (grid1 & k & Heq & Hg1); [lia..|].
  rewrite Z2Nat.id in Heq by lia.
  destruct (set_cell_spec size grid1 _ 0 0 0 Hg1) as (grid2 & Heq2 & Hg2);
    [lia..|].
  destruct (set_cell_spec size grid2 _ (size - 1) (size - 1) 0 Hg2)
    as (grid & Heq3 & Hg); [lia..|].
  destruct (grid_is_rectangular _ _ _ Hg) as [Hrect Hrow].
  specialize (Hrow ltac:(lia)).
  assert (∀ n, n = (0, 0) ∨ n = (size - 1, size - 1) → free grid n) as Hfree.
  { intros [r c] Hn.
    assert (0 ≤ r < size ∧ 0 ≤ c < size) as [Hr Hc]
      by (destruct Hn as [[= -> ->]|[= -> ->]]; lia).
    split.
    - apply in_bounds_spec. simpl. rewrite Hrow.
      destruct Hg as (-> & _). lia.
    - exists 0. split; [|done]. destruct Hg as (_ & _ & ->); [|done..].
      destruct Hn as [[= -> ->]|[= -> ->]].
      + destruct (bool_decide (0 = size - 1 ∧ 0 = size - 1)); [done|].
        by rewrite bool_decide_true.
      + by rewrite bool_decide_true. }
  destruct (ida_star_decides (0, 0) (size - 1, size - 1) grid manhattan Hrect)
    as (b & Hb & Hfuel & Hany).
  destruct (astar_search_decides (AStar.init manhattan) (0, 0)
              (size - 1, size - 1) grid Hrect) as (b' & Hb' & Hfuel' & Hany').
  pose proof (bool_same_iff _ _ _ Hb Hb') as Hsame. subst b'.
  exists grid, b.
  split_and!; [|apply Hfree; by left|apply Hfree; by right| |done..].
  - unfold create_test_grid. by rewrite Heq, Heq2, Heq3.
  - rewrite path_exists_reachable by auto. done.
Qed.

(** ** The further properties at concrete inputs *)

(** X2 at the move to the right from (0,0), towards (2,2). *)
Lemma manhattan_consistent_witness :
  Z.abs (manhattan (move (0, 0) (0, 1)) (2, 2) - manhattan (0, 0) (2, 2)) = 1
  ∧ (0 + 1 + manhattan (move (0, 0) (0, 1)) (2, 2)
     = 0 + manhattan (0, 0) (2, 2)
     ∨ 0 + 1 + manhattan (move (0, 0) (0, 1)) (2, 2)
       = 0 + manhattan (0, 0) (2, 2) + 2).
Proof.
  apply (manhattan_consistent (0, 0) (2, 2) (0, 1) 0). by left.
Defined.

(** X3 on [custom_grid], for the walk (0,1), (0,2) from (0,0). *)
Lemma chebyshev_admissible_witness :
  chebyshev (0, 0) (0, 2) ≤ Z.of_nat (length [(0, 1); (0, 2)]).
Proof.
  destruct (chebyshev_admissible (0, 0) (0, 2)) as (_ & _ & _ & Hadm).
  apply (Hadm custom_grid).
  - split; [|split; [|exact I]].
    + split.
      * exists (0, 1). split; [by left|reflexivity].
      * split; [reflexivity|]. exists 0. split; [reflexivity|lia].
    + split.
      * exists (0, 1). split; [by left|reflexivity].
      * split; [reflexivity|]. exists 0. split; [reflexivity|lia].
  - reflexivity.
Defined.

(** X4 on the grid [[0,0,0]], from (0,0) to (0,2): the second threshold is
    1, and the call at that threshold returns 2. *)
Lemma zero_heuristic_deepens_by_one_witness :
  0 ≤ 1
  ∧ ∀ r visited',
      dfs_search (0, 2) [[0; 0; 0]] zero_heuristic 5 (0, 0) 0 1 {[(0, 0)]}
        = Some (Returns (Num (Fin r), visited')) →
      r = 1 + 1.
Proof.
  apply (zero_heuristic_deepens_by_one (0, 0) (0, 2) [[0; 0; 0]] 5 1).
  apply (threshold_next (0, 0) (0, 2) [[0; 0; 0]] zero_heuristic 5 0 1
           {[(0, 0)]}).
  - exact (threshold_initial (0, 0) (0, 2) [[0; 0; 0]] zero_heuristic 5).
  - vm_compute. reflexivity.
Defined.

(** X5 on [test_grid], from (0,0) to (2,0): the first threshold is 2. *)
Lemma manhattan_threshold_grows_by_two_witness :
  (∃ k, 0 ≤ k ∧ 2 = manhattan (0, 0) (2, 0) + 2 * k)
  ∧ ∀ r visited',
      dfs_search (2, 0) test_grid manhattan 30 (0, 0) 0 2 {[(0, 0)]}
        = Some (Returns (Num (Fin r), visited')) →
      r = 2 + 2.
Proof.
  apply (manhattan_threshold_grows_by_two (0, 0) (2, 0) test_grid 30 2).
  exact (threshold_initial (0, 0) (2, 0) test_grid manhattan 30).
Defined.

(** X6 on the grid [[0,0]], from (0,0) to (0,1). *)
Lemma found_leaves_path_in_visited_witness :
  ∃ p, trail [[0; 0]] (0, 0) p ∧ endpoint (0, 0) p = (0, 1) ∧ NoDup p
       ∧ (∀ x, x ∈ p → x ∉ ({[(0, 0)]} : gset Coord))
       ∧ ({[(0, 0)]} ∪ {[(0, 1)]} : gset Coord) = {[(0, 0)]} ∪ list_to_set p
       ∧ 0 + Z.of_nat (length p) + manhattan (0, 1) (0, 1) ≤ 1.
Proof.
  apply (found_leaves_path_in_visited (0, 1) [[0; 0]] manhattan 2 (0, 0) 0 1
           {[(0, 0)]} ({[(0, 0)]} ∪ {[(0, 1)]})).
  vm_compute. reflexivity.
Defined.

(** X7 on [custom_grid], from corner to corner with [manhattan]. *)
Lemma ida_star_finds_shortest_path_witness :
  ∃ t visited' p,
    threshold_reached (0, 0) (2, 2) custom_grid manhattan 10 t
    ∧ dfs_search (2, 2) custom_grid manhattan 10 (0, 0) 0 t {[(0, 0)]}
      = Some (Returns (FOUND, visited'))
    ∧ trail custom_grid (0, 0) p ∧ endpoint (0, 0) p = (2, 2)
    ∧ visited' = list_to_set ((0, 0) :: p) ∧ NoDup ((0, 0) :: p)
    ∧ t = Z.of_nat (length p)
    ∧ ∀ q, trail custom_grid (0, 0) q → endpoint (0, 0) q = (2, 2) →
           (length p ≤ length q)%nat.
Proof.
  apply (ida_star_finds_shortest_path (0, 0) (2, 2) custom_grid manhattan 10).
  - intros a b. unfold manhattan. lia.
  - vm_compute. reflexivity.
Defined.

(** X8 on the grid [[0,0],[0]], the second row of which is too short: the
    bounds test lets (1,1) pass, and reading it raises. *)
Lemma ida_star_raises_only_index_error_witness :
  IndexError = IndexError ∧ ¬ rectangular [[0; 0]; [0]].
Proof.
  apply (ida_star_raises_only_index_error (0, 0) (1, 1) [[0; 0]; [0]]
           manhattan 5 IndexError).
  vm_compute. reflexivity.
Defined.

(** X9 on the grid [[]], one empty row. *)
Lemma ida_star_on_empty_grid_witness :
  ida_star (0, 0) (1, 1) [[]] manhattan 1 = Some (Returns false).
Proof.
  apply (ida_star_on_empty_grid (0, 0) (1, 1) [[]] manhattan 0).
  - reflexivity.
  - discriminate.
Defined.

(** X10 on [test_grid], from corner to corner. *)
Lemma astar_search_true_iff_reachable_witness :
  ∃ b : bool,
    (b = true ↔ reachable test_grid (0, 0) (4, 4))
    ∧ (free test_grid (0, 0) → (b = true ↔ path_exists test_grid (0, 0) (4, 4)))
    ∧ (∀ fuel, (astar_fuel_bound (0, 0)%Z test_grid ≤ fuel)%nat →
         ∃ n, AStar.search (AStar.init manhattan) (0, 0) (4, 4) test_grid fuel
              = Some (Returns b, n))
    ∧ (∀ fuel a n,
         AStar.search (AStar.init manhattan) (0, 0) (4, 4) test_grid fuel
         = Some (a, n) →
         a = Returns b).
Proof.
  apply (astar_search_true_iff_reachable (AStar.init manhattan) (0, 0) (4, 4)
           test_grid).
  repeat constructor.
Defined.

(** X11 on the grid [[0,0],[0]]: the second node popped is (0,1), and
    reading its neighbor (1,1) raises. *)
Lemma astar_search_raises_only_index_error_witness :
  IndexError = IndexError ∧ ¬ rectangular [[0; 0]; [0]].
Proof.
  apply (astar_search_raises_only_index_error (AStar.init manhattan) (0, 0)
           (1, 1) [[0; 0]; [0]] 5 IndexError 2).
  vm_compute. reflexivity.
Defined.

(** X12 on [custom_grid], from corner to corner: the search expands 8
    nodes. *)
Lemma astar_nodes_expanded_witness :
  AStar.nodes_expanded (AStar.init manhattan) + 1 ≤ 8
  ∧ 8 < AStar.nodes_expanded (AStar.init manhattan)
        + Z.of_nat (astar_fuel_bound (0, 0) custom_grid).
Proof.
  destruct (astar_nodes_expanded (AStar.init manhattan) (0, 0) (2, 2)
              custom_grid) as (Hleast & _ & Hmost).
  assert (AStar.search (AStar.init manhattan) (0, 0) (2, 2) custom_grid 20
          = Some (Returns true, 8)) as H by (vm_compute; reflexivity).
  split.
  - exact (Hleast _ _ _ H).
  - apply (Hmost ltac:(repeat constructor) _ _ _ H).
Defined.

(** X13 for a size of 3, every draw falling below the density. *)
Lemma create_test_grid_spec_witness :
  ∃ grid,
    create_test_grid (λ _, true) 3 = Returns grid
    ∧ rectangular grid ∧ len grid = 3 ∧ row0_len grid = 3
    ∧ ∀ r c, 0 ≤ r < 3 → 0 ≤ c < 3 →
        cell grid (r, c)
        = Some (if bool_decide ((r, c) = (0, 0) ∨ (r, c) = (3 - 1, 3 - 1))
                then 0
                else if (λ _ : nat, true) (Z.to_nat (r * 3 + c)) then 1
                     else 0).
Proof.
  apply (create_test_grid_spec (λ _, true) 3). lia.
Defined.

(** X14 for a size of 0. *)
Lemma create_test_grid_raises_without_cells_witness :
  create_test_grid (λ _, true) 0 = Raises IndexError.
Proof.
  apply (create_test_grid_raises_without_cells (λ _, true) 0). lia.
Defined.

(** X15 for a size of 3, the draw for the middle cell alone falling below
    the density. *)
Lemma comparison_results_match_witness :
  ∃ grid b,
    create_test_grid (λ k, Nat.eqb k 4) 3 = Returns grid
    ∧ free grid (0, 0) ∧ free grid (3 - 1, 3 - 1)
    ∧ (b = true ↔ path_exists grid (0, 0) (3 - 1, 3 - 1))
    ∧ (∀ fuel,
         (fuel_bound (0, 0)%Z (3 - 1, 3 - 1)%Z grid manhattan ≤ fuel)%nat →
         ida_star (0, 0) (3 - 1, 3 - 1) grid manhattan fuel
         = Some (Returns b))
    ∧ (∀ fuel, (astar_fuel_bound (0, 0)%Z grid ≤ fuel)%nat →
         ∃ n, AStar.search (AStar.init manhattan) (0, 0)
                (3 - 1, 3 - 1) grid fuel = Some (Returns b, n))
    ∧ (∀ fuel a,
         ida_star (0, 0) (3 - 1, 3 - 1) grid manhattan fuel = Some a →
         a = Returns b)
    ∧ (∀ fuel a n,
         AStar.search (AStar.init manhattan) (0, 0) (3 - 1, 3 - 1)
           grid fuel = Some (a, n) →
         a = Returns b).
Proof.
  apply (comparison_results_match (λ k, Nat.eqb k 4) 3). lia.
Defined.
